(** * Transcription job orchestrator (main.js): a shallow embedding

    The development follows [src/main.js]: the [job:transcribe] handler and
    its helpers ([convertToWav], [execFileSafe], [listTxt], [newestByMtime],
    [fileNonEmpty], [safeUnlink], [normalize], [cleanupTemp]).

    - JavaScript strings are Rocq strings (sequences of 8-bit characters,
      UTF-8 text).
    - Node's [path] module is modelled in [Module Path] (POSIX flavour).
    - Node's [fs] module is modelled in [Module Fs]: a finite map from path
      strings to regular files and directories, together with a table of
      injected faults, so that every primitive that can throw in Node can
      throw in the model.
    - The two external programs (the converter and the transcriber) are
      parameters of the handler: arbitrary functions on the file system.
    - The handler runs in a state-and-exception monad over a [World]
      (file system, status sink, trace of the effectful calls issued). *)

From Stdlib Require Import ZArith Lia List Ascii String DecimalString.
From stdpp Require Import base option list gmap strings.

Local Open Scope Z_scope.

(* ===================================================================== *)
(** * JavaScript string operations *)
(* ===================================================================== *)

Module Js.

Definition chars (s : string) : list ascii := String.list_ascii_of_string s.
Definition str (l : list ascii) : string := String.string_of_list_ascii l.

(** [s.length] (in 8-bit characters). *)
Definition length (s : string) : nat := List.length (chars s).

(** Truthiness of a string value: [''] is falsy. *)
Definition truthy (s : string) : bool := negb (bool_decide (s = "")).

(** Truthiness of a possibly [undefined] string. *)
Definition truthy_opt (o : option string) : bool :=
  match o with Some s => truthy s | None => false end.

(** [a || b] on strings. *)
Definition or_else (a b : string) : string := if truthy a then a else b.

(** [String.prototype.toLowerCase] as it acts on ASCII text: the letters
    A-Z are lowered and every other character is left as it is. (On a
    string with other characters the function of JavaScript also lowers
    the cased letters outside ASCII; what depends on that is stated for
    ASCII strings.) *)
Definition lower_char (c : ascii) : ascii :=
  let n := nat_of_ascii c in
  if (Nat.leb 65 n && Nat.leb n 90)%bool then ascii_of_nat (n + 32) else c.

Definition toLowerCase (s : string) : string := str (map lower_char (chars s)).

(** [l] ends with [suffix]. *)
Fixpoint is_prefix (p l : list ascii) : bool :=
  match p, l with
  | [], _ => true
  | a :: p', b :: l' => bool_decide (a = b) && is_prefix p' l'
  | _ :: _, [] => false
  end.

Definition endsWith (s suffix : string) : bool :=
  is_prefix (rev (chars suffix)) (rev (chars s)).

(** White space recognised by [String.prototype.trim], as UTF-8 byte
    sequences: TAB, LF, VT, FF, CR, SP, U+00A0, U+1680, U+2000..U+200A,
    U+2028, U+2029, U+202F, U+205F, U+3000, U+FEFF. *)
Definition b (n : nat) : ascii := ascii_of_nat n.

Definition white_space : list (list ascii) :=
  [ [b 9]; [b 10]; [b 11]; [b 12]; [b 13]; [b 32];
    [b 194; b 160];
    [b 225; b 154; b 128];
    [b 226; b 128; b 128]; [b 226; b 128; b 129]; [b 226; b 128; b 130];
    [b 226; b 128; b 131]; [b 226; b 128; b 132]; [b 226; b 128; b 133];
    [b 226; b 128; b 134]; [b 226; b 128; b 135]; [b 226; b 128; b 136];
    [b 226; b 128; b 137]; [b 226; b 128; b 138];
    [b 226; b 128; b 168]; [b 226; b 128; b 169]; [b 226; b 128; b 175];
    [b 226; b 129; b 159];
    [b 227; b 128; b 128];
    [b 239; b 187; b 191] ].

(** The length of the white-space character [l] starts with, if any. *)
Definition leading_ws (ws : list (list ascii)) (l : list ascii) : option nat :=
  List.length <$> List.find (fun w => is_prefix w l) ws.

Fixpoint strip_ws (fuel : nat) (ws : list (list ascii)) (l : list ascii)
  : list ascii :=
  match fuel with
  | O => l
  | S fuel' =>
      match leading_ws ws l with
      | Some n => strip_ws fuel' ws (drop n l)
      | None => l
      end
  end.

Definition trimStart_l (l : list ascii) : list ascii :=
  strip_ws (List.length l) white_space l.

Definition trimEnd_l (l : list ascii) : list ascii :=
  rev (strip_ws (List.length l) (map (@rev ascii) white_space) (rev l)).

Definition trim (s : string) : string := str (trimEnd_l (trimStart_l (chars s))).

(** [s.split('\n')]. *)
Fixpoint split_on (sep : ascii) (l : list ascii) : list (list ascii) :=
  match l with
  | [] => [[]]
  | c :: l' =>
      if bool_decide (c = sep) then [] :: split_on sep l'
      else match split_on sep l' with
           | s :: ss => (c :: s) :: ss
           | [] => [[c]]
           end
  end.

(** [parts.join(sep)]. *)
Fixpoint join_with (sep : list ascii) (parts : list (list ascii)) : list ascii :=
  match parts with
  | [] => []
  | [x] => x
  | x :: rest => x ++ sep ++ join_with sep rest
  end.

(** [arr.slice(-n)]. *)
Definition slice_last {A} (n : nat) (l : list A) : list A :=
  drop (List.length l - n)%nat l.

(** [String(n)] for a non-negative integer, and for an integer. *)
Definition string_of_nat (n : nat) : string :=
  NilEmpty.string_of_uint (Nat.to_uint n).

Definition string_of_Z (z : Z) : string :=
  match z with
  | Z0 => "0"
  | Zpos p => string_of_nat (Pos.to_nat p)
  | Zneg p => "-" +:+ string_of_nat (Pos.to_nat p)
  end.

(** [s.replace(/\.txt$/i, r)]: the match, if any, is the last four
    characters of [s]. *)
Definition replace_txt_suffix (s r : string) : string :=
  let l := chars s in
  let n := (List.length l - 4)%nat in
  if bool_decide (toLowerCase (str (drop n l)) = ".txt")
  then str (take n l) +:+ r
  else s.

End Js.

(* ===================================================================== *)
(** * Node's [path] module, POSIX flavour *)
(* ===================================================================== *)

(** [process.platform] is taken to be a POSIX platform: [path] is
    [path.posix], the separator is the forward slash. The functions follow
    Node's behaviour on every input string. *)

Module Path.
Import Js.

Definition is_sep (c : ascii) : bool := bool_decide (c = "/"%char).
Definition not_sep (c : ascii) : bool := negb (is_sep c).
Definition is_dot (c : ascii) : bool := bool_decide (c = "."%char).
Definition not_dot (c : ascii) : bool := negb (is_dot c).

Fixpoint drop_while (f : ascii -> bool) (l : list ascii) : list ascii :=
  match l with
  | [] => []
  | c :: l' => if f c then drop_while f l' else l
  end.

Fixpoint take_while (f : ascii -> bool) (l : list ascii) : list ascii :=
  match l with
  | [] => []
  | c :: l' => if f c then c :: take_while f l' else []
  end.

(** The last component of a path, reversed: trailing separators are
    skipped, then the characters up to the next separator are taken. *)
Definition rev_component (p : list ascii) : list ascii :=
  take_while not_sep (drop_while is_sep (rev p)).

Definition component (p : list ascii) : list ascii := rev (rev_component p).

(** [path.dirname]. The scan runs from the end down to index 1: it skips
    trailing separators and the last component, and stops at the
    separator before it. *)
Definition dirname_l (p : list ascii) : list ascii :=
  match p with
  | [] => ["."%char]
  | c0 :: rest =>
      match drop_while not_sep (drop_while is_sep (rev rest)) with
      | [] => if is_sep c0 then ["/"%char] else ["."%char]
      | _ :: before =>
          if is_sep c0 && bool_decide (before = [])
          then ["/"%char; "/"%char]
          else c0 :: rev before
      end
  end.

(** [path.extname]: from the last dot of the last component to its end;
    empty when there is no dot, when the dot is the component's first
    character, or when the component is [..]. *)
Definition extname_l (p : list ascii) : list ascii :=
  let rc := rev_component p in
  match drop_while not_dot rc with
  | [] => []
  | _ :: rev_pre =>
      if bool_decide (rev_pre = []) then []
      else if bool_decide (rc = ["."%char; "."%char]) then []
      else "."%char :: rev (take_while not_dot rc)
  end.

(** Matching of an explicit suffix against the last component, both
    reversed, as [path.basename] does character by character. *)
Inductive suffix_match :=
| Matched (rev_rest : list ascii)   (* suffix matched; what is left *)
| Mismatch                          (* a character differs *)
| Short.                            (* the component ended first *)

Fixpoint match_suffix (rs rc : list ascii) : suffix_match :=
  match rs, rc with
  | [], _ => Matched rc
  | _ :: _, [] => Short
  | s :: rs', c :: rc' =>
      if bool_decide (s = c) then match_suffix rs' rc' else Mismatch
  end.

(** [path.basename(p, suffix)]. *)
Definition basename_l (p suffix : list ascii) : list ascii :=
  if bool_decide (suffix <> []) &&
     Nat.leb (List.length suffix) (List.length p)
  then
    if bool_decide (suffix = p) then []
    else
      match match_suffix (rev suffix) (rev_component p) with
      | Matched [] => component p
      | Matched rev_rest => rev rev_rest
      | Mismatch => component p
      | Short => component p ++ rev (take_while is_sep (rev p))
      end
  else component p.

(** [normalizeString]: the segments between separators are pushed on a
    stack; empty segments and [.] are skipped; [..] pops the last
    segment unless there is none or it is [..] itself, in which case it
    is kept when the path is relative and dropped when it is absolute. *)
Definition dotdot : list ascii := ["."%char; "."%char].

Definition push_segment (allowAboveRoot : bool)
  (stack : list (list ascii)) (seg : list ascii) : list (list ascii) :=
  if bool_decide (seg = []) || bool_decide (seg = ["."%char]) then stack
  else if bool_decide (seg = dotdot) then
    match rev stack with
    | top :: below =>
        if bool_decide (top = dotdot)
        then (if allowAboveRoot then stack ++ [dotdot] else stack)
        else rev below
    | [] => if allowAboveRoot then [dotdot] else []
    end
  else stack ++ [seg].

Definition normalizeString (allowAboveRoot : bool) (p : list ascii)
  : list ascii :=
  join_with ["/"%char]
    (fold_left (push_segment allowAboveRoot) (split_on "/"%char p) []).

(** [path.normalize]. *)
Definition normalize_l (p : list ascii) : list ascii :=
  match p with
  | [] => ["."%char]
  | c0 :: _ =>
      let isAbsolute := is_sep c0 in
      let trailingSeparator :=
        match rev p with c :: _ => is_sep c | [] => false end in
      let body := normalizeString (negb isAbsolute) p in
      match body with
      | [] =>
          if isAbsolute then ["/"%char]
          else if trailingSeparator then ["."%char; "/"%char]
          else ["."%char]
      | _ =>
          (if isAbsolute then ["/"%char] else []) ++ body ++
          (if trailingSeparator then ["/"%char] else [])
      end
  end.

(** [path.join(a, b)]: the non-empty arguments are joined with a
    separator and the result is normalized. *)
Definition join_l (a b : list ascii) : list ascii :=
  match a, b with
  | [], [] => ["."%char]
  | [], _ => normalize_l b
  | _, [] => normalize_l a
  | _, _ => normalize_l (a ++ "/"%char :: b)
  end.

Definition dirname (p : string) : string := str (dirname_l (chars p)).
Definition extname (p : string) : string := str (extname_l (chars p)).
Definition basename (p suffix : string) : string :=
  str (basename_l (chars p) (chars suffix)).
Definition normalize (p : string) : string := str (normalize_l (chars p)).
Definition join (a b : string) : string := str (join_l (chars a) (chars b)).

End Path.

(* ===================================================================== *)
(** * Exceptions *)
(* ===================================================================== *)

(** The result of a call that may throw. A thrown value is a JavaScript
    [Error]; it is represented by its [message]. *)
Inductive Outcome (A : Type) : Type :=
| Ok (a : A)
| Throw (message : string).
Arguments Ok {A} a.
Arguments Throw {A} message.

(* ===================================================================== *)
(** * Node's [fs] module *)
(* ===================================================================== *)

Module Fs.

(** What a path names: a regular file with its content, or a directory
    with the size [stat] reports for it. *)
Inductive Node := Regular (text : string) | Directory (bytes : Z).

(** An entry of the file system: the node and its modification time. *)
Record File := { node : Node; mtime : Z }.

(** The content of an entry, when it is a regular file. *)
Definition data (f : File) : option string :=
  match node f with Regular text => Some text | Directory _ => None end.

(** What [fs.statSync] returns, as far as the program reads it. *)
Record Stats := { size : Z; mtimeMs : Z }.

Definition stats (f : File) : Stats :=
  {| size := match node f with
             | Regular text => Z.of_nat (Js.length text)
             | Directory bytes => bytes
             end;
     mtimeMs := mtime f |}.

(** The primitives that can throw. *)
Inductive Op := OpReaddir | OpStat | OpRead | OpWrite | OpUnlink.

Global Instance Op_eq_dec : EqDecision Op.
Proof. solve_decision. Defined.

(** The file system: a path string names at most one entry, a regular
    file or a directory (the directories on the way to an entry need not
    be entries themselves); [faults] lists the calls that the system
    refuses (permissions, a locked file, a full disk); [clock] is the
    time stamp given to a file when it is written. *)
Record State := {
  files : gmap string File;
  faults : list (Op * string);
  clock : Z;
}.

(** A directory sits at [p]. *)
Definition is_dir (st : State) (p : string) : bool :=
  match files st !! p with
  | Some f => match node f with Directory _ => true | Regular _ => false end
  | None => false
  end.

Definition refused (st : State) (op : Op) (p : string) : bool :=
  bool_decide ((op, p) ∈ faults st).

(** The call [op] on [p] fails for a reason other than a missing entry:
    the system refuses it, or it reads, writes or unlinks a directory. *)
Definition faulty (st : State) (op : Op) (p : string) : bool :=
  refused st op p ||
  match op with
  | OpRead | OpWrite | OpUnlink => is_dir st p
  | OpReaddir | OpStat => false
  end.

Definition quoted (p : string) : string := "'" +:+ p +:+ "'".

Definition eacces (syscall p : string) : string :=
  "EACCES: permission denied, " +:+ syscall +:+ " " +:+ quoted p.

Definition enoent (syscall p : string) : string :=
  "ENOENT: no such file or directory, " +:+ syscall +:+ " " +:+ quoted p.

Definition eisdir (detail : string) : string :=
  "EISDIR: illegal operation on a directory, " +:+ detail.

(** The message of the error a faulty call throws. *)
Definition failure (st : State) (op : Op) (syscall p : string) : string :=
  if refused st op p then eacces syscall p
  else match op with
       | OpRead => eisdir "read"
       | _ => eisdir (syscall +:+ " " +:+ quoted p)
       end.

(** [fs.existsSync(p)] never throws; it holds of files and directories. *)
Definition existsSync (st : State) (p : string) : bool :=
  bool_decide (is_Some (files st !! p)).

(** [fs.statSync(p)], on a file or a directory. *)
Definition statSync (st : State) (p : string) : Outcome Stats :=
  if faulty st OpStat p then Throw (failure st OpStat "stat" p)
  else match files st !! p with
       | Some f => Ok (stats f)
       | None => Throw (enoent "stat" p)
       end.

(** The names listed in directory [dir]: the last components [f] of the
    paths of the file system that [path.join(dir, f)] denotes, files and
    directories alike. *)
Definition entry_of (dir : string) (k : string) : option string :=
  let f := Path.basename k "" in
  if bool_decide (f ≠ "" ∧ Path.join dir f = k) then Some f else None.

Definition entries (st : State) (dir : string) : list string :=
  omap (entry_of dir) (map fst (map_to_list (files st))).

(** [fs.readdirSync(dir)]. *)
Definition readdirSync (st : State) (dir : string) : Outcome (list string) :=
  if faulty st OpReaddir dir then Throw (failure st OpReaddir "scandir" dir)
  else Ok (entries st dir).

(** [fs.readFileSync(p, 'utf8')]: throws on a directory. *)
Definition readFileSync (st : State) (p : string) : Outcome string :=
  if faulty st OpRead p then Throw (failure st OpRead "open" p)
  else match files st !! p ≫= data with
       | Some text => Ok text
       | None => Throw (enoent "open" p)
       end.

(** [fs.writeFileSync(p, text, 'utf8')]: creates or replaces the file;
    throws on a directory. *)
Definition writeFileSync (st : State) (p text : string)
  : State * Outcome unit :=
  if faulty st OpWrite p then (st, Throw (failure st OpWrite "open" p))
  else ({| files := <[p := {| node := Regular text; mtime := clock st |}]>
                      (files st);
           faults := faults st;
           clock := clock st |}, Ok tt).

(** [fs.unlinkSync(p)]: throws on a directory. *)
Definition unlinkSync (st : State) (p : string) : State * Outcome unit :=
  if faulty st OpUnlink p then (st, Throw (failure st OpUnlink "unlink" p))
  else match files st !! p with
       | Some _ => ({| files := delete p (files st);
                       faults := faults st;
                       clock := clock st |}, Ok tt)
       | None => (st, Throw (enoent "unlink" p))
       end.

(** The content of the regular file at [p], if there is one. *)
Definition content (st : State) (p : string) : option string :=
  files st !! p ≫= data.

End Fs.

(* ===================================================================== *)
(** * Child processes *)
(* ===================================================================== *)

Inductive Stream := Stdout | Stderr.

Global Instance Stream_eq_dec : EqDecision Stream.
Proof. solve_decision. Defined.

(** One run of an external program, as the parent observes it: whether the
    program could be started, its exit code ([None]: killed by a signal,
    as on a timeout), and the data it wrote, chunk by chunk. *)
Record ProcRun := {
  spawn_error : option string;
  exit_code : option Z;
  output : list (Stream * string);
}.

(** An external program: started with a command name and arguments, it
    changes the file system and reports a run. *)
Definition Process : Type :=
  string -> list string -> Fs.State -> Fs.State * ProcRun.

(** All the data written to one stream. *)
Definition captured (s : Stream) (run : ProcRun) : string :=
  fold_right String.append ""
    (omap (fun c => if decide (c.1 = s) then Some c.2 else None) (output run)).

(* ===================================================================== *)
(** * The world and the monad of the handler *)
(* ===================================================================== *)

(** The effectful calls the program issues, in the order it issues them. *)
Inductive Event :=
| EvStatus (text : string)                       (* webContents.send *)
| EvSpawn (cmd : string) (args : list string)    (* child_process.spawn *)
| EvExecFile (cmd : string) (args : list string) (* child_process.execFile *)
| EvExists (p : string)
| EvStat (p : string)
| EvReaddir (dir : string)
| EvReadFile (p : string)
| EvWriteFile (p text : string)
| EvUnlink (p : string).

Global Instance Event_eq_dec : EqDecision Event.
Proof. solve_decision. Defined.

Record World := {
  fs : Fs.State;
  window_open : bool;      (* [win && !win.isDestroyed()] *)
  trace : list Event;
}.

Definition M (A : Type) : Type := World -> World * Outcome A.

Definition ret {A} (a : A) : M A := fun w => (w, Ok a).

Definition throw {A} (message : string) : M A := fun w => (w, Throw message).

Definition bind {A B} (m : M A) (f : A -> M B) : M B :=
  fun w => match m w with
           | (w', Ok a) => f a w'
           | (w', Throw e) => (w', Throw e)
           end.

(** [try { m } catch { h }]: what [m] did before it threw stays done. *)
Definition try_catch {A} (m : M A) (h : string -> M A) : M A :=
  fun w => match m w with
           | (w', Ok a) => (w', Ok a)
           | (w', Throw e) => h e w'
           end.

Declare Scope js_scope.
Delimit Scope js_scope with js.
Notation "x <- m ;; k" := (bind m (fun x => k))
  (at level 100, m at next level, right associativity) : js_scope.
Notation "m ;; k" := (bind m (fun _ => k))
  (at level 100, right associativity) : js_scope.
Local Open Scope js_scope.

Definition emit (ev : Event) (w : World) : World :=
  {| fs := fs w; window_open := window_open w; trace := trace w ++ [ev] |}.

Definition set_fs (st : Fs.State) (w : World) : World :=
  {| fs := st; window_open := window_open w; trace := trace w |}.

(** A call that reads the file system. *)
Definition probe {A} (ev : Event) (f : Fs.State -> Outcome A) : M A :=
  fun w => (emit ev w, f (fs w)).

(** A call that changes the file system. *)
Definition update {A} (ev : Event) (f : Fs.State -> Fs.State * Outcome A)
  : M A :=
  fun w => let r := f (fs w) in (set_fs r.1 (emit ev w), r.2).

Definition existsSync (p : string) : M bool :=
  probe (EvExists p) (fun st => Ok (Fs.existsSync st p)).
Definition statSync (p : string) : M Fs.Stats :=
  probe (EvStat p) (fun st => Fs.statSync st p).
Definition readdirSync (dir : string) : M (list string) :=
  probe (EvReaddir dir) (fun st => Fs.readdirSync st dir).
Definition readFileSync (p : string) : M string :=
  probe (EvReadFile p) (fun st => Fs.readFileSync st p).
Definition writeFileSync (p text : string) : M unit :=
  update (EvWriteFile p text) (fun st => Fs.writeFileSync st p text).
Definition unlinkSync (p : string) : M unit :=
  update (EvUnlink p) (fun st => Fs.unlinkSync st p).

(** [sendStatus(text)]. *)
Definition sendStatus (text : string) : M unit :=
  fun w => (if window_open w then emit (EvStatus text) w else w, Ok tt).

Fixpoint for_each {A} (f : A -> M unit) (l : list A) : M unit :=
  match l with
  | [] => ret tt
  | x :: l' => f x ;; for_each f l'
  end.

(* ===================================================================== *)
(** * main.js *)
(* ===================================================================== *)

(** [process.platform]. *)
Definition platform : string := "linux".
Definition win32 : bool := bool_decide (platform = "win32").

(** The payload of a [job:transcribe] request; [None] is [undefined]. *)
Record Payload := {
  audioPath : option string;
  whisperBin : option string;
  modelPath : option string;
  language : option string;
  noTimestamps : bool;
}.

(** The object the handler returns; [None] is an absent key. *)
Record JobResult := {
  ok : bool;
  outputPath : option string;
  error : option string;
  note : option string;
}.

Definition job_ok (p : string) (n : option string) : JobResult :=
  {| ok := true; outputPath := Some p; error := None; note := n |}.

Definition job_failed (message : string) : JobResult :=
  {| ok := false; outputPath := None; error := Some message; note := None |}.

Section Job.

(** The external converter (started by [spawn]) and the external
    transcriber (started by [execFile]). *)
Variable converter : Process.
Variable transcriber : Process.

Definition spawn (cmd : string) (args : list string) : M ProcRun :=
  fun w => let r := converter cmd args (fs w) in
           (set_fs r.1 (emit (EvSpawn cmd args) w), Ok r.2).

Definition execFile (cmd : string) (args : list string) : M ProcRun :=
  fun w => let r := transcriber cmd args (fs w) in
           (set_fs r.1 (emit (EvExecFile cmd args) w), Ok r.2).

(* ------------------------------------------------------------------- *)
(** ** helpers *)

(** [fileNonEmpty(p)]. *)
Definition fileNonEmpty (p : string) : M bool :=
  try_catch (st <- statSync p ;; ret (Fs.size st >? 0))
            (fun _ => ret false).

(** [safeUnlink(p)]. *)
Definition safeUnlink (p : string) : M unit :=
  try_catch (unlinkSync p) (fun _ => ret tt).

(** [normalize(p)]. *)
Definition normalize (p : string) : string :=
  Js.toLowerCase (Path.normalize p).

(** [cleanupTemp(wavPath, wasWavInput)]. *)
Definition cleanupTemp (wavPath : string) (wasWavInput : bool) : M unit :=
  if negb wasWavInput then safeUnlink wavPath else ret tt.

(** [listTxt(dir)]. *)
Definition listTxt (dir : string) : M (list string) :=
  try_catch
    (names <- readdirSync dir ;;
     ret (map (Path.join dir)
            (List.filter (fun f => Js.endsWith (Js.toLowerCase f) ".txt")
               names)))
    (fun _ => ret []).

(** [newestByMtime(paths)]: the loop carries [best] and [bestT]. *)
Fixpoint newestByMtime_from (paths : list string)
  (best : option string) (bestT : Z) : M (option string) :=
  match paths with
  | [] => ret best
  | p :: rest =>
      r <- try_catch
             (st <- statSync p ;;
              let t := Fs.mtimeMs st in
              if t >? bestT then ret (Some p, t) else ret (best, bestT))
             (fun _ => ret (best, bestT)) ;;
      newestByMtime_from rest r.1 r.2
  end.

Definition newestByMtime (paths : list string) : M (option string) :=
  newestByMtime_from paths None (-1).

(** [execFileSafe(bin, args)]: the data handlers forward every chunk to
    the status sink; the callback ignores its first argument. *)
Definition execFileSafe (bin : string) (args : list string)
  : M (string * string) :=
  run <- execFile bin args ;;
  for_each (fun c => sendStatus c.2) (output run) ;;
  ret (Js.or_else (captured Stdout run) "",
       Js.or_else (captured Stderr run) "").

(** The last ten lines of [errBuf]. *)
Definition last_lines (errBuf : string) : string :=
  Js.str (Js.join_with [Js.b 10]
            (Js.slice_last 10 (Js.split_on (Js.b 10) (Js.chars errBuf)))).

Definition code_text (code : option Z) : string :=
  match code with Some z => Js.string_of_Z z | None => "null" end.

Definition ffmpeg_cmd : string := if win32 then "ffmpeg.exe" else "ffmpeg".

Definition ffmpeg_args (inputPath outWavPath : string) : list string :=
  ["-y"; "-i"; inputPath; "-ar"; "16000"; "-ac"; "1"; "-f"; "wav";
   outWavPath].

Definition ffmpeg_not_found (message : string) : string :=
  "ffmpeg not found. Please install ffmpeg and make sure it's on PATH. ("
  +:+ message +:+ ")".

Definition ffmpeg_failed (code : option Z) (errBuf : string) : string :=
  "ffmpeg failed (code " +:+ code_text code +:+ "). " +:+ last_lines errBuf.

(** [convertToWav(inputPath, outWavPath)]: rejects (throws at the
    [await]) when the converter cannot be started, exits with a code
    other than 0, or leaves no non-empty file. *)
Definition convertToWav (inputPath outWavPath : string) : M unit :=
  run <- spawn ffmpeg_cmd (ffmpeg_args inputPath outWavPath) ;;
  for_each (fun c => match c.1 with
                     | Stderr => sendStatus c.2
                     | Stdout => ret tt
                     end) (output run) ;;
  match spawn_error run with
  | Some message => throw (ffmpeg_not_found message)
  | None =>
      let failed :=
        throw (ffmpeg_failed (exit_code run) (captured Stderr run)) in
      if bool_decide (exit_code run = Some 0) then
        e <- existsSync outWavPath ;;
        if e then
          ne <- fileNonEmpty outWavPath ;;
          if ne then ret tt else failed
        else failed
      else failed
  end.

(* ------------------------------------------------------------------- *)
(** ** the [job:transcribe] handler *)

Definition desiredTxt_of (audioPath : string) : string :=
  Path.join (Path.dirname audioPath)
    (Path.basename audioPath (Path.extname audioPath) +:+ ".txt").

Definition isWav_of (audioPath : string) : bool :=
  bool_decide (Js.toLowerCase (Path.extname audioPath) = ".wav").

Definition tmpWav_of (audioPath : string) : string :=
  Path.join (Path.dirname audioPath)
    (Path.basename audioPath (Path.extname audioPath)
     +:+ "__whisper_tmp.wav").

Definition wavForWhisper_of (audioPath : string) : string :=
  if isWav_of audioPath then audioPath else tmpWav_of audioPath.

Definition diagnostic_of (desiredTxt : string) : string :=
  Js.replace_txt_suffix desiredTxt ".log.txt".

(** The four argument shapes, in the order of the array literal. *)
Definition variants_of (wavForWhisper desiredTxt dir : string)
  (common : list string) : list (list string) :=
  [ ["-f"; wavForWhisper; "-otxt"; "-of"; desiredTxt] ++ common;
    ["-f"; wavForWhisper; "-otxt"; "--output-file"; desiredTxt] ++ common;
    ["-f"; wavForWhisper; "-otxt"; "-o"; dir] ++ common;
    ["-f"; wavForWhisper; "-otxt"] ++ common ].

(** The constants the handler binds before its loop. *)
Record Job := {
  job_audioPath : string;
  job_dir : string;
  job_desiredTxt : string;
  job_isWav : bool;
  job_wavForWhisper : string;
  job_bin : string;
  job_variants : list (list string);
  job_preExisting : gset string;
}.

Definition audio_not_found : string := "Audio path is empty or not found.".

Definition converting : string := "Converting to WAV (ffmpeg)…".

(** The handler up to the loop: validation of the audio path, the
    conversion of a non-wav input, the choice of the binary, the common
    flags, the variants and the pre-scan. [inl r]: the handler returned
    [r] already. *)
Definition prepare (payload : option Payload) : M (JobResult + Job) :=
  let audio := payload ≫= audioPath in
  let audioPath := default "" audio in
  missing <- (if Js.truthy_opt audio
              then e <- existsSync audioPath ;; ret (negb e)
              else ret true) ;;
  if (missing : bool) then
    ret (inl (job_failed audio_not_found))
  else
    let dir := Path.dirname audioPath in
    let desiredTxt := desiredTxt_of audioPath in
    let isWav := isWav_of audioPath in
    let wavForWhisper := wavForWhisper_of audioPath in
    (if negb isWav then
       sendStatus converting ;;
       convertToWav audioPath wavForWhisper
     else ret tt) ;;
    let wb := payload ≫= whisperBin in
    binExists <- (if Js.truthy_opt wb
                  then existsSync (default "" wb) else ret false) ;;
    let bin := if (binExists : bool) then default "" wb
               else if win32 then "whisper-cli" else "whisper" in
    let lang := payload ≫= language in
    let common1 := if Js.truthy_opt lang
                   then ["-l"; default "" lang] else [] in
    let common2 := if from_option noTimestamps false payload
                   then ["--no-timestamps"] else [] in
    let mp := payload ≫= modelPath in
    modelExists <- (if Js.truthy_opt mp
                    then existsSync (default "" mp) else ret false) ;;
    let common3 := if (modelExists : bool)
                   then ["-m"; default "" mp] else [] in
    let common := common1 ++ common2 ++ common3 in
    let variants := variants_of wavForWhisper desiredTxt dir common in
    listed <- listTxt dir ;;
    ret (inr {| job_audioPath := audioPath;
                job_dir := dir;
                job_desiredTxt := desiredTxt;
                job_isWav := isWav;
                job_wavForWhisper := wavForWhisper;
                job_bin := bin;
                job_variants := variants;
                job_preExisting := list_to_set listed |}).

(** [for (let i = 0; i < variants.length; i++) { ... }], from index [i]
    on, with [rest] the variants still to try and [last] the captures
    of the previous attempt. [inl r]: the loop returned [r];
    [inr (lastStdout, lastStderr)]: the loop ran to its end. *)
Fixpoint run_variants (job : Job) (i : nat) (rest : list (list string))
  (last : string * string) : M (JobResult + string * string) :=
  match rest with
  | [] => ret (inr last)
  | args :: rest' =>
      sendStatus ("Running Whisper (attempt " +:+ Js.string_of_nat (i + 1)
                  +:+ "/" +:+ Js.string_of_nat (List.length (job_variants job))
                  +:+ ")…") ;;
      out <- execFileSafe (job_bin job) args ;;
      e <- existsSync (job_desiredTxt job) ;;
      direct <- (if e then fileNonEmpty (job_desiredTxt job) else ret false) ;;
      if direct then
        cleanupTemp (job_wavForWhisper job) (job_isWav job) ;;
        sendStatus "Done." ;;
        ret (inl (job_ok (job_desiredTxt job) None))
      else
        listed <- listTxt (job_dir job) ;;
        let after :=
          List.filter
            (fun p => negb (bool_decide (p ∈ job_preExisting job))) listed in
        newest <- newestByMtime after ;;
        found <- (if Js.truthy_opt newest
                  then fileNonEmpty (default "" newest)
                  else ret false) ;;
        if found then
          let newest := default "" newest in
          text <- readFileSync newest ;;
          writeFileSync (job_desiredTxt job) text ;;
          (if bool_decide (normalize newest ≠ normalize (job_desiredTxt job))
           then safeUnlink newest else ret tt) ;;
          cleanupTemp (job_wavForWhisper job) (job_isWav job) ;;
          sendStatus "Done." ;;
          ret (inl (job_ok (job_desiredTxt job) None))
        else run_variants job (i + 1) rest' out
  end.

(** ['\n'] *)
Definition newline : string := Js.str [Js.b 10].

Definition log_text (lastStdout lastStderr : string) : string :=
  fold_right String.append ""
    [ "--- STDOUT ---" +:+ newline; Js.or_else lastStdout "(empty)";
      newline +:+ newline;
      "--- STDERR ---" +:+ newline; Js.or_else lastStderr "(empty)";
      newline ].

Definition failure_message (diagnostic : string) : string :=
  "Transcription finished but no .txt file was found. Saved logs to "
  +:+ diagnostic.

(** [lastStdout && lastStdout.trim().length > 0]. *)
Definition usable_stdout (lastStdout : string) : bool :=
  Js.truthy lastStdout && (0 <? Z.of_nat (Js.length (Js.trim lastStdout))).

(** The handler after the loop: the stdout fallback, or the diagnostic
    log and the failure. *)
Definition conclude (job : Job) (last : string * string) : M JobResult :=
  let '(lastStdout, lastStderr) := last in
  if usable_stdout lastStdout then
    writeFileSync (job_desiredTxt job) lastStdout ;;
    cleanupTemp (job_wavForWhisper job) (job_isWav job) ;;
    sendStatus "Done (saved from stdout)." ;;
    ret (job_ok (job_desiredTxt job) (Some "Saved from stdout fallback."))
  else
    let diagnostic := diagnostic_of (job_desiredTxt job) in
    writeFileSync diagnostic (log_text lastStdout lastStderr) ;;
    cleanupTemp (job_wavForWhisper job) (job_isWav job) ;;
    ret (job_failed (failure_message diagnostic)).

(** The body of the [try] block. *)
Definition transcribe_body (payload : option Payload) : M JobResult :=
  prepared <- prepare payload ;;
  match prepared with
  | inl result => ret result
  | inr job =>
      looped <- run_variants job 0 (job_variants job) ("", "") ;;
      match looped with
      | inl result => ret result
      | inr last => conclude job last
      end
  end.

(** [ipcMain.handle('job:transcribe', ...)]: the [try] block and its
    [catch], which reports [err?.message || String(err)]. *)
Definition transcribe (payload : option Payload) : M JobResult :=
  try_catch (transcribe_body payload)
    (fun message => ret (job_failed (Js.or_else message "Error"))).

End Job.

(* ===================================================================== *)
(** * The helpers as functions of the file system *)
(* ===================================================================== *)

(** Every run of the program leaves the window as it is, extends the trace
    and may change the file system: the world after a run from [w] is
    [after st evs w] for the new file system [st] and the events [evs]. *)
Definition after (st : Fs.State) (evs : list Event) (w : World) : World :=
  {| fs := st; window_open := window_open w; trace := trace w ++ evs |}.

(** The event of a status message: nothing is sent to a closed window. *)
Definition status_ev (open : bool) (text : string) : list Event :=
  if open then [EvStatus text] else [].

(** [fileNonEmpty], as a function of the file system. *)
Definition nonEmpty (st : Fs.State) (p : string) : bool :=
  match Fs.statSync st p with
  | Ok s => Fs.size s >? 0
  | Throw _ => false
  end.

(** [listTxt], as a function of the file system. *)
Definition is_txt (f : string) : bool := Js.endsWith (Js.toLowerCase f) ".txt".

Definition listed (st : Fs.State) (dir : string) : list string :=
  match Fs.readdirSync st dir with
  | Ok names => map (Path.join dir) (List.filter is_txt names)
  | Throw _ => []
  end.

(** [newestByMtime], as a function of the file system. *)
Fixpoint newest_from (st : Fs.State) (paths : list string)
  (best : option string) (bestT : Z) : option string :=
  match paths with
  | [] => best
  | p :: rest =>
      match Fs.statSync st p with
      | Ok s => if Fs.mtimeMs s >? bestT
                then newest_from st rest (Some p) (Fs.mtimeMs s)
                else newest_from st rest best bestT
      | Throw _ => newest_from st rest best bestT
      end
  end.

Definition newest (st : Fs.State) (paths : list string) : option string :=
  newest_from st paths None (-1).

(** The file system after [safeUnlink(p)]. *)
Definition unlinked (st : Fs.State) (p : string) : Fs.State :=
  (Fs.unlinkSync st p).1.

(** The events and the file system of [cleanupTemp]. *)
Definition cleanup_evs (job : Job) : list Event :=
  if job_isWav job then [] else [EvUnlink (job_wavForWhisper job)].

Definition cleaned (job : Job) (st : Fs.State) : Fs.State :=
  if job_isWav job then st else unlinked st (job_wavForWhisper job).

(** The status messages of the chunks a process writes. *)
Definition chunk_evs (open : bool) (run : ProcRun) : list Event :=
  flat_map (fun c => status_ev open c.2) (output run).

(* ===================================================================== *)
(** * The runs of the variant loop *)
(* ===================================================================== *)

Section LoopSemantics.

Variable transcriber : Process.
Variable job : Job.
Variable open : bool.          (* [window_open] of the world *)

Definition attempt_message (i : nat) : string :=
  "Running Whisper (attempt " +:+ Js.string_of_nat (i + 1)
  +:+ "/" +:+ Js.string_of_nat (List.length (job_variants job)) +:+ ")…".

(** The invocation of one variant from the file system [st]. *)
Definition run_of (args : list string) (st : Fs.State) : ProcRun :=
  (transcriber (job_bin job) args st).2.

Definition fs_of (args : list string) (st : Fs.State) : Fs.State :=
  (transcriber (job_bin job) args st).1.

Definition captures (run : ProcRun) : string * string :=
  (captured Stdout run, captured Stderr run).

Definition invoke_evs (i : nat) (args : list string) (st : Fs.State)
  : list Event :=
  status_ev open (attempt_message i) ++
  EvExecFile (job_bin job) args :: chunk_evs open (run_of args st).

(** The direct check on the file system [st1] the invocation left. *)
Definition direct_ok (st1 : Fs.State) : bool :=
  Fs.existsSync st1 (job_desiredTxt job) && nonEmpty st1 (job_desiredTxt job).

Definition direct_evs (st1 : Fs.State) : list Event :=
  EvExists (job_desiredTxt job) ::
  (if Fs.existsSync st1 (job_desiredTxt job)
   then [EvStat (job_desiredTxt job)] else []).

(** The heuristic scan on [st1]. *)
Definition candidates (st1 : Fs.State) : list string :=
  List.filter (fun p => negb (bool_decide (p ∈ job_preExisting job)))
    (listed st1 (job_dir job)).

Definition pick (st1 : Fs.State) : option string :=
  newest st1 (candidates st1).

Definition found (st1 : Fs.State) : bool :=
  Js.truthy_opt (pick st1) && nonEmpty st1 (default "" (pick st1)).

Definition scan_evs (st1 : Fs.State) : list Event :=
  EvReaddir (job_dir job) :: map EvStat (candidates st1) ++
  (if Js.truthy_opt (pick st1)
   then [EvStat (default "" (pick st1))] else []).

(** Whether the matched file is deleted after the copy. *)
Definition superseded (p : string) : bool :=
  bool_decide (normalize p ≠ normalize (job_desiredTxt job)).

Definition done_evs : list Event :=
  cleanup_evs job ++ status_ev open "Done.".

(** [loop_run i rest last st st' evs r]: from the file system [st], the
    loop over the variants [rest] (the first of index [i]) issues the
    events [evs], leaves the file system [st'] and ends with [r]. *)
Inductive loop_run :
  nat -> list (list string) -> string * string -> Fs.State ->
  Fs.State -> list Event -> Outcome (JobResult + string * string) -> Prop :=
| loop_end i last st :
    loop_run i [] last st st [] (Ok (inr last))
| loop_direct i args rest last st st1 :
    st1 = fs_of args st ->
    direct_ok st1 = true ->
    loop_run i (args :: rest) last st
      (cleaned job st1)
      (invoke_evs i args st ++ direct_evs st1 ++ done_evs)
      (Ok (inl (job_ok (job_desiredTxt job) None)))
| loop_heuristic i args rest last st st1 p text st2 st3 :
    st1 = fs_of args st ->
    direct_ok st1 = false ->
    pick st1 = Some p -> found st1 = true ->
    Fs.readFileSync st1 p = Ok text ->
    Fs.writeFileSync st1 (job_desiredTxt job) text = (st2, Ok tt) ->
    st3 = (if superseded p then unlinked st2 p else st2) ->
    loop_run i (args :: rest) last st
      (cleaned job st3)
      (invoke_evs i args st ++ direct_evs st1 ++ scan_evs st1 ++
       [EvReadFile p; EvWriteFile (job_desiredTxt job) text] ++
       (if superseded p then [EvUnlink p] else []) ++ done_evs)
      (Ok (inl (job_ok (job_desiredTxt job) None)))
| loop_read_throws i args rest last st st1 p e :
    st1 = fs_of args st ->
    direct_ok st1 = false ->
    pick st1 = Some p -> found st1 = true ->
    Fs.readFileSync st1 p = Throw e ->
    loop_run i (args :: rest) last st st1
      (invoke_evs i args st ++ direct_evs st1 ++ scan_evs st1 ++
       [EvReadFile p])
      (Throw e)
| loop_write_throws i args rest last st st1 p text st2 e :
    st1 = fs_of args st ->
    direct_ok st1 = false ->
    pick st1 = Some p -> found st1 = true ->
    Fs.readFileSync st1 p = Ok text ->
    Fs.writeFileSync st1 (job_desiredTxt job) text = (st2, Throw e) ->
    loop_run i (args :: rest) last st st2
      (invoke_evs i args st ++ direct_evs st1 ++ scan_evs st1 ++
       [EvReadFile p; EvWriteFile (job_desiredTxt job) text])
      (Throw e)
| loop_next i args rest last st st1 st' evs r :
    st1 = fs_of args st ->
    direct_ok st1 = false ->
    found st1 = false ->
    loop_run (i + 1) rest (captures (run_of args st)) st1 st' evs r ->
    loop_run i (args :: rest) last st st'
      (invoke_evs i args st ++ direct_evs st1 ++ scan_evs st1 ++ evs)
      r.

End LoopSemantics.

(* ===================================================================== *)
(** * The runs of the handler *)
(* ===================================================================== *)

Section JobSemantics.

Variable converter : Process.
Variable transcriber : Process.
Variable payload : option Payload.
Variable open : bool.

Definition audio : string := default "" (payload ≫= audioPath).

Definition audio_given : bool := Js.truthy_opt (payload ≫= audioPath).

(** The run of the converter from the file system [st]. *)
Definition conversion (st : Fs.State) : Fs.State * ProcRun :=
  converter ffmpeg_cmd (ffmpeg_args audio (wavForWhisper_of audio)) st.

Definition convert_result (st : Fs.State) : Outcome unit :=
  let r := conversion st in
  match spawn_error r.2 with
  | Some message => Throw (ffmpeg_not_found message)
  | None =>
      if bool_decide (exit_code r.2 = Some 0) &&
         Fs.existsSync r.1 (wavForWhisper_of audio) &&
         nonEmpty r.1 (wavForWhisper_of audio)
      then Ok tt
      else Throw (ffmpeg_failed (exit_code r.2) (captured Stderr r.2))
  end.

Definition convert_evs (st : Fs.State) : list Event :=
  let r := conversion st in
  EvSpawn ffmpeg_cmd (ffmpeg_args audio (wavForWhisper_of audio)) ::
  flat_map (fun c => match c.1 with
                     | Stderr => status_ev open c.2
                     | Stdout => []
                     end) (output r.2) ++
  match spawn_error r.2 with
  | Some _ => []
  | None =>
      if bool_decide (exit_code r.2 = Some 0)
      then EvExists (wavForWhisper_of audio) ::
           (if Fs.existsSync r.1 (wavForWhisper_of audio)
            then [EvStat (wavForWhisper_of audio)] else [])
      else []
  end.

(** The constants of the job, bound on the file system [st0] that the
    preparation of the audio left. *)
Definition bin_of (st0 : Fs.State) : string :=
  let wb := payload ≫= whisperBin in
  if Js.truthy_opt wb && Fs.existsSync st0 (default "" wb)
  then default "" wb
  else if win32 then "whisper-cli" else "whisper".

Definition common_of (st0 : Fs.State) : list string :=
  let lang := payload ≫= language in
  let mp := payload ≫= modelPath in
  (if Js.truthy_opt lang then ["-l"; default "" lang] else []) ++
  (if from_option noTimestamps false payload
   then ["--no-timestamps"] else []) ++
  (if Js.truthy_opt mp && Fs.existsSync st0 (default "" mp)
   then ["-m"; default "" mp] else []).

Definition job_of (st0 : Fs.State) : Job :=
  {| job_audioPath := audio;
     job_dir := Path.dirname audio;
     job_desiredTxt := desiredTxt_of audio;
     job_isWav := isWav_of audio;
     job_wavForWhisper := wavForWhisper_of audio;
     job_bin := bin_of st0;
     job_variants :=
       variants_of (wavForWhisper_of audio) (desiredTxt_of audio)
         (Path.dirname audio) (common_of st0);
     job_preExisting := list_to_set (listed st0 (Path.dirname audio)) |}.

Definition setup_evs : list Event :=
  let wb := payload ≫= whisperBin in
  let mp := payload ≫= modelPath in
  (if Js.truthy_opt wb then [EvExists (default "" wb)] else []) ++
  (if Js.truthy_opt mp then [EvExists (default "" mp)] else []) ++
  [EvReaddir (Path.dirname audio)].

(** [prep_run st st' evs r]: the handler up to its loop. *)
Inductive prep_run :
  Fs.State -> Fs.State -> list Event -> Outcome (JobResult + Job) -> Prop :=
| prep_not_given st :
    audio_given = false ->
    prep_run st st [] (Ok (inl (job_failed audio_not_found)))
| prep_not_found st :
    audio_given = true ->
    Fs.existsSync st audio = false ->
    prep_run st st [EvExists audio] (Ok (inl (job_failed audio_not_found)))
| prep_wav st :
    audio_given = true ->
    Fs.existsSync st audio = true ->
    isWav_of audio = true ->
    prep_run st st (EvExists audio :: setup_evs) (Ok (inr (job_of st)))
| prep_converted st st0 :
    audio_given = true ->
    Fs.existsSync st audio = true ->
    isWav_of audio = false ->
    st0 = (conversion st).1 ->
    convert_result st = Ok tt ->
    prep_run st st0
      (EvExists audio :: status_ev open converting ++
       convert_evs st ++ setup_evs)
      (Ok (inr (job_of st0)))
| prep_convert_throws st st0 e :
    audio_given = true ->
    Fs.existsSync st audio = true ->
    isWav_of audio = false ->
    st0 = (conversion st).1 ->
    convert_result st = Throw e ->
    prep_run st st0
      (EvExists audio :: status_ev open converting ++ convert_evs st)
      (Throw e).

(** [conclude_run job last st st' evs r]: the handler after its loop. *)
Inductive conclude_run (job : Job) :
  string * string -> Fs.State -> Fs.State -> list Event ->
  Outcome JobResult -> Prop :=
| conclude_fallback out err st st1 :
    usable_stdout out = true ->
    Fs.writeFileSync st (job_desiredTxt job) out = (st1, Ok tt) ->
    conclude_run job (out, err) st (cleaned job st1)
      (EvWriteFile (job_desiredTxt job) out :: cleanup_evs job ++
       status_ev open "Done (saved from stdout).")
      (Ok (job_ok (job_desiredTxt job) (Some "Saved from stdout fallback.")))
| conclude_fallback_throws out err st st1 e :
    usable_stdout out = true ->
    Fs.writeFileSync st (job_desiredTxt job) out = (st1, Throw e) ->
    conclude_run job (out, err) st st1
      [EvWriteFile (job_desiredTxt job) out] (Throw e)
| conclude_diagnostic out err st st1 :
    usable_stdout out = false ->
    Fs.writeFileSync st (diagnostic_of (job_desiredTxt job))
      (log_text out err) = (st1, Ok tt) ->
    conclude_run job (out, err) st (cleaned job st1)
      (EvWriteFile (diagnostic_of (job_desiredTxt job)) (log_text out err)
       :: cleanup_evs job)
      (Ok (job_failed (failure_message (diagnostic_of (job_desiredTxt job)))))
| conclude_diagnostic_throws out err st st1 e :
    usable_stdout out = false ->
    Fs.writeFileSync st (diagnostic_of (job_desiredTxt job))
      (log_text out err) = (st1, Throw e) ->
    conclude_run job (out, err) st st1
      [EvWriteFile (diagnostic_of (job_desiredTxt job)) (log_text out err)]
      (Throw e).

(** [body_run st st' evs r]: one run of the [try] block. *)
Inductive body_run :
  Fs.State -> Fs.State -> list Event -> Outcome JobResult -> Prop :=
| body_early st st1 evs1 result :
    prep_run st st1 evs1 (Ok (inl result)) ->
    body_run st st1 evs1 (Ok result)
| body_prepare_throws st st1 evs1 e :
    prep_run st st1 evs1 (Throw e) ->
    body_run st st1 evs1 (Throw e)
| body_matched st st1 evs1 job st2 evs2 result :
    prep_run st st1 evs1 (Ok (inr job)) ->
    loop_run transcriber job open 0 (job_variants job) ("", "")
      st1 st2 evs2 (Ok (inl result)) ->
    body_run st st2 (evs1 ++ evs2) (Ok result)
| body_copy_throws st st1 evs1 job st2 evs2 e :
    prep_run st st1 evs1 (Ok (inr job)) ->
    loop_run transcriber job open 0 (job_variants job) ("", "")
      st1 st2 evs2 (Throw e) ->
    body_run st st2 (evs1 ++ evs2) (Throw e)
| body_exhausted st st1 evs1 job st2 evs2 last st3 evs3 r :
    prep_run st st1 evs1 (Ok (inr job)) ->
    loop_run transcriber job open 0 (job_variants job) ("", "")
      st1 st2 evs2 (Ok (inr last)) ->
    conclude_run job last st2 st3 evs3 r ->
    body_run st st3 (evs1 ++ evs2 ++ evs3) r.

(** What the [catch] block makes of a thrown error. *)
Definition caught (message : string) : JobResult :=
  job_failed (Js.or_else message "Error").

(** The result of the handler, from the outcome of its [try] block. *)
Definition settle (r : Outcome JobResult) : JobResult :=
  match r with
  | Ok result => result
  | Throw e => caught e
  end.

(** [job_run st st' evs result]: one run of the handler. *)
Definition job_run (st st' : Fs.State) (evs : list Event)
  (result : JobResult) : Prop :=
  exists r, body_run st st' evs r /\ result = settle r.

End JobSemantics.

(* ===================================================================== *)
(** * The vocabulary of the properties *)
(* ===================================================================== *)

(** ** Paths *)

Section PathShapes.
Import Js Path.

(** No separator in [l]. *)
Definition sep_free (l : list ascii) : Prop :=
  Forall (fun c => c <> "/"%char) l.

(** A directory prefix: empty, or ending with a separator. *)
Definition dir_prefix (r : list ascii) : Prop :=
  r = [] \/ exists r', r = r' ++ ["/"%char].

(** A plain segment: a name that is not empty, [.] or [..]. *)
Definition plain (seg : list ascii) : Prop :=
  seg <> [] /\ sep_free seg /\ seg <> ["."%char] /\ seg <> dotdot.

(** What [path.join(a, seg)] puts before a plain segment [seg]. *)
Definition join_prefix (a : list ascii) : list ascii :=
  match a with
  | [] => []
  | c0 :: _ =>
      (if is_sep c0 then ["/"%char] else []) ++
      match fold_left (push_segment (negb (is_sep c0)))
              (split_on "/"%char a) [] with
      | [] => []
      | stack => join_with ["/"%char] stack ++ ["/"%char]
      end
  end.

(** The stem the handler computes: [basename(p, extname(p))]. *)
Definition stem_l (p : list ascii) : list ascii :=
  basename_l p (extname_l p).

(** What the handler puts before the names it derives from [audioPath],
    and the stem of those names. *)
Definition prefix_of (audioPath : string) : list ascii :=
  join_prefix (Path.dirname_l (Js.chars audioPath)).

Definition stem_of (audioPath : string) : list ascii :=
  stem_l (Js.chars audioPath).

(** The name [seg] ends with [.txt], whatever the case. *)
Definition txt_name (seg : list ascii) : Prop :=
  is_prefix (rev (chars ".txt")) (rev (map lower_char seg)) = true.

Definition txt_path (p : string) : Prop :=
  exists r seg, p = str (r ++ seg) /\ dir_prefix r /\ sep_free seg /\
                txt_name seg.

(** [/s1/s2/.../sn] *)
Definition abs_dir (segs : list (list ascii)) : list ascii :=
  flat_map (fun s => "/"%char :: s) segs.

(** [/s1/.../sn] when [absolute], [s1/.../sn] otherwise. *)
Definition dir_path (absolute : bool) (segs : list (list ascii))
  : list ascii :=
  if absolute then abs_dir segs else join_with ["/"%char] segs.

(** [base.ext] and [dir/base.ext] *)
Definition file_name (base ext : list ascii) : list ascii :=
  base ++ "."%char :: ext.

Definition full_path (absolute : bool) (segs : list (list ascii))
  (base ext : list ascii) : list ascii :=
  dir_path absolute segs ++ "/"%char :: file_name base ext.

End PathShapes.

(** ** Events *)

(** A message to the window. *)
Definition is_status (ev : Event) : Prop :=
  match ev with EvStatus _ => True | _ => False end.

(** The events the loop may issue. *)
Definition loop_event (job : Job) (ev : Event) : Prop :=
  match ev with
  | EvSpawn _ _ => False
  | EvWriteFile p _ => p = job_desiredTxt job
  | EvUnlink p =>
      (job_isWav job = false /\ p = job_wavForWhisper job) \/
      (superseded job p = true /\ exists st1, p ∈ candidates job st1)
  | EvReadFile p => exists st1, p ∈ candidates job st1
  | EvReaddir d => d = job_dir job
  | _ => True
  end.

(** Events that read the world and leave the files as they are. *)
Definition probe_event (ev : Event) : Prop :=
  match ev with
  | EvStatus _ | EvExecFile _ _ | EvExists _ | EvStat _ | EvReaddir _ => True
  | _ => False
  end.

(** The events of the preparation. *)
Definition prep_event (payload : option Payload) (ev : Event) : Prop :=
  match ev with
  | EvSpawn _ _ => isWav_of (audio payload) = false
  | EvStatus _ | EvExists _ | EvStat _ | EvReaddir _ => True
  | _ => False
  end.

(** The events of the handler; [okb] is the [ok] field of its result. *)
Definition handler_event (payload : option Payload) (okb : bool) (ev : Event)
  : Prop :=
  match ev with
  | EvSpawn _ _ => isWav_of (audio payload) = false
  | EvWriteFile p _ =>
      p = desiredTxt_of (audio payload) \/
      (p = diagnostic_of (desiredTxt_of (audio payload)) /\ okb = false)
  | EvUnlink p =>
      (isWav_of (audio payload) = false /\ p = tmpWav_of (audio payload)) \/
      (normalize p <> normalize (desiredTxt_of (audio payload)) /\
       exists st1, p ∈ listed st1 (Path.dirname (audio payload)))
  | EvReadFile p => exists st1, p ∈ listed st1 (Path.dirname (audio payload))
  | _ => True
  end.

(** The invocation an event records. *)
Definition invoked (ev : Event) : option (string * list string) :=
  match ev with EvExecFile cmd args => Some (cmd, args) | _ => None end.

(** The directory an event lists. *)
Definition listed_dir (ev : Event) : option string :=
  match ev with EvReaddir dir => Some dir | _ => None end.

(** An invocation of the transcriber. *)
Definition is_exec (ev : Event) : bool :=
  match ev with EvExecFile _ _ => true | _ => false end.

(** The events before the first invocation. *)
Fixpoint prelude (evs : list Event) : list Event :=
  match evs with
  | [] => []
  | ev :: evs' => if is_exec ev then [] else ev :: prelude evs'
  end.

(** For each invocation, the events that follow it up to the next one. *)
Fixpoint segments (evs : list Event) : list (list Event) :=
  match evs with
  | [] => []
  | ev :: evs' =>
      if is_exec ev then prelude evs' :: segments evs' else segments evs'
  end.

(** Every listing of a directory in [seg] comes after a check of the
    existence of [desired] in [seg]; [checked]: the check was seen. *)
Fixpoint scans_after_check (desired : string) (checked : bool)
  (seg : list Event) : bool :=
  match seg with
  | [] => true
  | EvExists p :: seg' =>
      scans_after_check desired (checked || bool_decide (p = desired)) seg'
  | EvReaddir _ :: seg' => checked && scans_after_check desired checked seg'
  | _ :: seg' => scans_after_check desired checked seg'
  end.

(** Events that are neither an invocation, nor a check, nor a listing. *)
Definition neutral (ev : Event) : Prop :=
  match ev with
  | EvExecFile _ _ | EvExists _ | EvReaddir _ => False
  | _ => True
  end.

(** The events of one attempt, after its invocation. *)
Definition no_exec (evs : list Event) : Prop :=
  Forall (fun ev => is_exec ev = false) evs.

(** What follows the invocation of an attempt is checked before it is
    scanned, and lists the directory at most once. *)
Definition attempt_ok (job : Job) (seg : list Event) : Prop :=
  scans_after_check (job_desiredTxt job) false seg = true /\
  (List.length (omap listed_dir seg) <= 1)%nat.

(** The tail of an attempt that ends the loop. *)
Definition final_tail (tail : list Event) : Prop :=
  no_exec tail /\ (List.length (omap listed_dir tail) <= 1)%nat.

(** Events that are neither an invocation nor a listing. *)
Definition quiet (ev : Event) : Prop :=
  invoked ev = None /\ listed_dir ev = None.

(** Whether the attempt that left the disk [st1] ends the loop, when [pre] is
    the listing the new files are told from: the canonical output is there
    and not empty, or the newest listed file that is not in [pre] is not
    empty. *)
Definition conclusive (desired dir : string) (pre : list string)
    (st1 : Fs.State) : bool :=
  (Fs.existsSync st1 desired && nonEmpty st1 desired) ||
  (let fresh :=
     List.filter (fun p => negb (bool_decide (p ∈ pre))) (listed st1 dir) in
   Js.truthy_opt (newest st1 fresh) &&
   nonEmpty st1 (default "" (newest st1 fresh))).

(** The number of invocations made from the disk [st] over the variants
    [rest], every attempt judged against the one listing [pre]. *)
Fixpoint attempts (tr : Process) (bin desired dir : string)
    (pre : list string) (st : Fs.State) (rest : list (list string)) : nat :=
  match rest with
  | [] => 0
  | args :: rest' =>
      let st1 := (tr bin args st).1 in
      if conclusive desired dir pre st1 then 1
      else S (attempts tr bin desired dir pre st1 rest')
  end.

(** ** Names

    A directory segment or a file stem as the naming contract reads it:
    not empty and free of separators. *)
Definition name_ok (s : string) : bool :=
  negb (bool_decide (s = "")) && forallb Path.not_sep (Js.chars s).

(** A directory segment that [path.normalize] keeps as it is. *)
Definition segment_ok (s : string) : bool :=
  name_ok s && negb (bool_decide (s = ".")) && negb (bool_decide (s = "..")).

(** An extension (without its dot): not empty, no separator, no dot. *)
Definition ext_ok (s : string) : bool :=
  name_ok s && forallb Path.not_dot (Js.chars s).

(** The directory [/s1/.../sn] ([absolute]) or [s1/.../sn]; the root itself
    is written [""], so that [directory true [] +:+ "/" +:+ name] is a file in
    it. *)
Definition directory (absolute : bool) (segs : list string) : string :=
  Js.str (dir_path absolute (map Js.chars segs)).

(** A directory in normal form: plain segments, at least one when the
    directory is relative. *)
Definition dir_ok (absolute : bool) (segs : list string) : bool :=
  forallb segment_ok segs &&
  (absolute || match segs with [] => false | _ :: _ => true end).

(** [dir/base.ext] *)
Definition audio_path (absolute : bool) (segs : list string)
    (base ext : string) : string :=
  directory absolute segs +:+ "/" +:+ base +:+ "." +:+ ext.

(** ** Processes and probes *)

(** Two programs that differ at most in how their runs end. *)
Definition same_effects (tr1 tr2 : Process) : Prop :=
  forall cmd args st,
    (tr1 cmd args st).1 = (tr2 cmd args st).1 /\
    output (tr1 cmd args st).2 = output (tr2 cmd args st).2.

(** Whether [fs.statSync(p)] succeeds. *)
Definition stat_ok (st : Fs.State) (p : string) : bool :=
  match Fs.statSync st p with Ok _ => true | Throw _ => false end.

(** ** Concrete runs *)
Module Scenario.

(** A disk holding the files [l], every one last modified at time 5, on
    which the operations listed in [broken] fail. *)
Definition disk (l : list (string * string))
    (broken : list (Fs.Op * string)) : Fs.State :=
  {| Fs.files :=
       list_to_map
         (map (fun kv => (kv.1, {| Fs.node := Fs.Regular kv.2; Fs.mtime := 5 |})) l);
     Fs.faults := broken;
     Fs.clock := 10 |}.

(** What a child process does when it writes [d] to [p]. *)
Definition put (st : Fs.State) (p d : string) : Fs.State :=
  {| Fs.files :=
       <[p := {| Fs.node := Fs.Regular d; Fs.mtime := Fs.clock st |}]> (Fs.files st);
     Fs.faults := Fs.faults st;
     Fs.clock := Fs.clock st + 1 |}.

(** What a child process does when it makes a directory at [p], for
    which [stat] will report [bytes]. *)
Definition mkdir (st : Fs.State) (p : string) (bytes : Z) : Fs.State :=
  {| Fs.files :=
       <[p := {| Fs.node := Fs.Directory bytes; Fs.mtime := Fs.clock st |}]>
         (Fs.files st);
     Fs.faults := Fs.faults st;
     Fs.clock := Fs.clock st + 1 |}.

Definition exited (code : Z) (out : list (Stream * string)) : ProcRun :=
  {| spawn_error := None; exit_code := Some code; output := out |}.

Definition world (st : Fs.State) : World :=
  {| fs := st; window_open := true; trace := [] |}.

Definition request (a : string) : option Payload :=
  Some {| audioPath := Some a; whisperBin := None; modelPath := None;
          language := Some "en"; noTimestamps := true |}.

(** A converter that is never reached. *)
Definition no_converter : Process := fun _ _ st => (st, exited 0 []).

(** ffmpeg: writes the waveform to its last argument. *)
Definition ffmpeg : Process :=
  fun _ args st => (put st (List.last args "") "RIFF", exited 0 []).

(** A transcriber that writes [text] to [p] and exits with [code]. *)
Definition writes (p text : string) (code : Z) : Process :=
  fun _ _ st => (put st p text, exited code [(Stdout, "x")]).

(** A transcriber that ignores every output flag it is given and, run
    without one (the fourth shape), writes next to its input. *)
Definition stray (p text : string) : Process :=
  fun _ args st =>
    if bool_decide (List.length args = 6%nat)
    then (put st p text, exited 0 [])
    else (st, exited 0 []).

(** A transcriber that leaves [p] empty when it creates it and fills it
    when it finds it. *)
Definition fills (p text : string) : Process :=
  fun _ _ st =>
    if Fs.existsSync st p then (put st p text, exited 0 [])
    else (put st p "", exited 0 []).

(** A transcriber that opens [p] for writing and then gives up. *)
Definition truncates (p : string) : Process :=
  fun _ _ st => (put st p "", exited 1 [(Stderr, "no model")]).

(** A transcriber that writes no file and prints [out]. *)
Definition prints (out : string) : Process :=
  fun _ _ st => (st, exited 2 [(Stdout, out); (Stderr, "boom")]).

Definition song_disk : Fs.State := disk [("/m/song.wav", "RIFF")] [].
Definition lecture_disk : Fs.State := disk [("/m/lecture.mp3", "ID3")] [].
Definition memo_disk (broken : list (Fs.Op * string)) : Fs.State :=
  disk [("/m/memo.mp3", "ID3")] broken.
Definition note_disk (broken : list (Fs.Op * string)) : Fs.State :=
  disk [("/m/note.wav", "RIFF")] broken.
Definition talk_disk : Fs.State :=
  disk [("/m/talk.wav", "RIFF"); ("/m/talk.txt", "old words")] [].

(** The disk of [/m/song.wav] with a directory named [/m/song.txt]. *)
Definition folder_disk : Fs.State := mkdir song_disk "/m/song.txt" 4096.

(** A wav recording; the transcriber writes the canonical output and exits
    with status 1. *)
Definition song_request : option Payload := request "/m/song.wav".
Definition song_whisper : Process := writes "/m/song.txt" "hello world" 1.
Definition song_run : World * Outcome JobResult :=
  transcribe no_converter song_whisper song_request (world song_disk).

(** The same recording next to the directory [/m/song.txt]; the
    transcriber writes no file. *)
Definition folder_run : World * Outcome JobResult :=
  transcribe no_converter (prints "") song_request (world folder_disk).

(** An mp3 recording; only the fourth shape produces a file, next to the
    converted waveform. *)
Definition lecture_request : option Payload := request "/m/lecture.mp3".
Definition lecture_whisper : Process :=
  stray "/m/lecture__whisper_tmp.wav.txt" "test transcript".
Definition lecture_ready : World * Outcome (JobResult + Job) :=
  prepare ffmpeg lecture_request (world lecture_disk).
Definition lecture_job : Job := job_of lecture_request (fs lecture_ready.1).
Definition lecture_body : World * Outcome JobResult :=
  transcribe_body ffmpeg lecture_whisper lecture_request (world lecture_disk).

(** The same recording; the file next to the converted waveform appears
    empty at the first attempt and is filled at the second. *)
Definition draft_whisper : Process :=
  fills "/m/lecture__whisper_tmp.wav.txt" "late transcript".
Definition draft_loop : World * Outcome (JobResult + string * string) :=
  run_variants draft_whisper lecture_job 0 (job_variants lecture_job)
    ("", "") lecture_ready.1.

(** A wav recording for which the transcriber writes nothing. *)
Definition note_request : option Payload := request "/m/note.wav".
Definition note_ready (broken : list (Fs.Op * string)) :
    World * Outcome (JobResult + Job) :=
  prepare no_converter note_request (world (note_disk broken)).
Definition note_job (broken : list (Fs.Op * string)) : Job :=
  job_of note_request (fs (note_ready broken).1).
Definition note_loop (out : string) (broken : list (Fs.Op * string)) :
    World * Outcome (JobResult + string * string) :=
  run_variants (prints out) (note_job broken) 0
    (job_variants (note_job broken)) ("", "") (note_ready broken).1.

(** An mp3 recording whose transcript is written at the first attempt. *)
Definition memo_request : option Payload := request "/m/memo.mp3".
Definition memo_run (tr : Process) (broken : list (Fs.Op * string)) :
    World * Outcome JobResult :=
  transcribe ffmpeg tr memo_request (world (memo_disk broken)).

(** A wav recording that already has a transcript. *)
Definition talk_request : option Payload := request "/m/talk.wav".
Definition talk_run (tr : Process) : World * Outcome JobResult :=
  transcribe no_converter tr talk_request (world talk_disk).

Definition talk_ready : World * Outcome (JobResult + Job) :=
  prepare no_converter talk_request (world talk_disk).
Definition talk_job : Job := job_of talk_request (fs talk_ready.1).

End Scenario.

(** * Observations on a trace and on the disk *)

(** A string of ASCII characters: the strings on which
    [String.prototype.toLowerCase] lowers the letters A-Z and nothing else. *)
Definition ascii_only (s : string) : bool :=
  forallb (fun c => Nat.ltb (nat_of_ascii c) 128) (Js.chars s).


(** Whether the handler converts the audio of [payload] on the disk [st]. *)
Definition converts (payload : option Payload) (st : Fs.State) : bool :=
  audio_given payload && Fs.existsSync st (audio payload) &&
  negb (isWav_of (audio payload)).

(** The modification time [fs.statSync(p).mtimeMs], when [stat] succeeds. *)
Definition mtime_of (st : Fs.State) (p : string) : option Z :=
  match Fs.statSync st p with
  | Ok s => Some (Fs.mtimeMs s)
  | Throw _ => None
  end.

(** The disk and the captures after the transcriber was run on every variant
    of [rest] in turn; [last] stands when there is none. *)
Fixpoint replay (tr : Process) (bin : string) (rest : list (list string))
    (st : Fs.State) (last : string * string) : Fs.State * (string * string) :=
  match rest with
  | [] => (st, last)
  | args :: rest' =>
      let r := tr bin args st in
      replay tr bin rest' r.1 (captured Stdout r.2, captured Stderr r.2)
  end.

(** The write and the deletion an event records. *)
Definition written (ev : Event) : option (string * string) :=
  match ev with EvWriteFile p text => Some (p, text) | _ => None end.

Definition deleted (ev : Event) : option string :=
  match ev with EvUnlink p => Some p | _ => None end.

Definition is_statusb (ev : Event) : bool :=
  match ev with EvStatus _ => true | _ => false end.

(** The events of a trace that are not messages to the window. *)
Definition mute (evs : list Event) : list Event :=
  List.filter (fun ev => negb (is_statusb ev)) evs.

(** Further recordings and processes on which the theorems are run. *)
Module Cases.

Import Scenario.

(** A converter that gives up without writing the waveform. *)
Definition broken_ffmpeg : Process :=
  fun _ _ st => (st, exited 1 [(Stderr, "no codec")]).


(** The world of a job whose window was closed. *)
Definition closed_world (st : Fs.State) : World :=
  {| fs := st; window_open := false; trace := [] |}.

(** Two lines of standard error. *)
Definition two_lines : string := "a" +:+ Js.str [Js.b 10] +:+ "b".

End Cases.

(* ===================================================================== *)
(** * Runs of the helpers *)
(* ===================================================================== *)

Lemma after_after st1 evs1 st2 evs2 w :
  after st2 evs2 (after st1 evs1 w) = after st2 (evs1 ++ evs2) w.
Proof. unfold after; simpl. by rewrite app_assoc. Qed.

Lemma after_nil w : after (fs w) [] w = w.
Proof. destruct w; unfold after; simpl. by rewrite app_nil_r. Qed.

Lemma emit_after ev w : emit ev w = after (fs w) [ev] w.
Proof. reflexivity. Qed.

Lemma set_fs_after st st0 evs w : set_fs st (after st0 evs w) = after st evs w.
Proof. reflexivity. Qed.

Lemma after_inj st1 evs1 st2 evs2 w :
  after st1 evs1 w = after st2 evs2 w -> st1 = st2 /\ evs1 = evs2.
Proof.
  unfold after; intros H; inversion H as [[Hst Htr]].
  split; [done | by apply app_inv_head in Htr].
Qed.

Lemma sendStatus_run text w :
  sendStatus text w = (after (fs w) (status_ev (window_open w) text) w, Ok tt).
Proof.
  unfold sendStatus, status_ev. destruct (window_open w) eqn:E.
  - by rewrite emit_after.
  - by rewrite after_nil.
Qed.

Lemma for_each_status_run {A} (g : A -> list string) (f : A -> M unit)
    (l : list A) w :
  (forall x w0, f x w0 =
     (after (fs w0) (flat_map (status_ev (window_open w0)) (g x)) w0, Ok tt)) ->
  for_each f l w =
    (after (fs w)
       (flat_map (fun x => flat_map (status_ev (window_open w)) (g x)) l) w,
     Ok tt).
Proof.
  intros Hf. revert w. induction l as [|x l IH]; intros w; simpl.
  - unfold ret. by rewrite after_nil.
  - unfold bind. rewrite Hf, IH. simpl. by rewrite after_after.
Qed.

Section Runs.

Variable converter : Process.
Variable transcriber : Process.

Lemma fileNonEmpty_run p w :
  fileNonEmpty p w = (after (fs w) [EvStat p] w, Ok (nonEmpty (fs w) p)).
Proof.
  unfold fileNonEmpty, try_catch, bind, statSync, probe, nonEmpty, ret.
  rewrite emit_after. by destruct (Fs.statSync (fs w) p).
Qed.

Lemma safeUnlink_run p w :
  safeUnlink p w = (after (unlinked (fs w) p) [EvUnlink p] w, Ok tt).
Proof.
  unfold safeUnlink, try_catch, unlinkSync, update, unlinked, ret.
  rewrite emit_after, set_fs_after.
  by destruct (Fs.unlinkSync (fs w) p) as [st [[]|e]].
Qed.

Lemma listTxt_run dir w :
  listTxt dir w = (after (fs w) [EvReaddir dir] w, Ok (listed (fs w) dir)).
Proof.
  unfold listTxt, try_catch, bind, readdirSync, probe, listed, ret.
  rewrite emit_after. by destruct (Fs.readdirSync (fs w) dir).
Qed.

Lemma newestByMtime_from_run paths best bestT w :
  newestByMtime_from paths best bestT w =
    (after (fs w) (map EvStat paths) w,
     Ok (newest_from (fs w) paths best bestT)).
Proof.
  revert best bestT w. induction paths as [|p rest IH]; intros best bestT w.
  - simpl. unfold ret. by rewrite after_nil.
  - simpl. unfold bind, try_catch, statSync, probe, ret.
    rewrite emit_after.
    destruct (Fs.statSync (fs w) p) as [s|e]; simpl.
    + destruct (Fs.mtimeMs s >? bestT); simpl;
        rewrite IH; simpl; by rewrite after_after.
    + rewrite IH; simpl; by rewrite after_after.
Qed.

Lemma newestByMtime_run paths w :
  newestByMtime paths w =
    (after (fs w) (map EvStat paths) w, Ok (newest (fs w) paths)).
Proof. apply newestByMtime_from_run. Qed.

Lemma cleanupTemp_run job w :
  cleanupTemp (job_wavForWhisper job) (job_isWav job) w =
    (after (cleaned job (fs w)) (cleanup_evs job) w, Ok tt).
Proof.
  unfold cleanupTemp, cleaned, cleanup_evs.
  destruct (job_isWav job); simpl.
  - unfold ret. by rewrite after_nil.
  - apply safeUnlink_run.
Qed.

Lemma or_else_empty s : Js.or_else s "" = s.
Proof.
  unfold Js.or_else, Js.truthy. case_bool_decide; simpl; congruence.
Qed.

Lemma execFileSafe_run bin args w :
  let r := transcriber bin args (fs w) in
  execFileSafe transcriber bin args w =
    (after r.1 (EvExecFile bin args :: chunk_evs (window_open w) r.2) w,
     Ok (captured Stdout r.2, captured Stderr r.2)).
Proof.
  simpl. unfold execFileSafe, bind, execFile, ret.
  rewrite emit_after, set_fs_after.
  rewrite (for_each_status_run (fun c => [c.2])).
  - simpl. rewrite after_after, !or_else_empty. unfold chunk_evs.
    do 3 f_equal. apply flat_map_ext. intros c. simpl. by rewrite app_nil_r.
  - intros c w0. rewrite sendStatus_run. simpl. by rewrite app_nil_r.
Qed.

End Runs.

Lemma existsSync_run p w :
  existsSync p w = (after (fs w) [EvExists p] w, Ok (Fs.existsSync (fs w) p)).
Proof. reflexivity. Qed.

Lemma readFileSync_run p w :
  readFileSync p w = (after (fs w) [EvReadFile p] w, Fs.readFileSync (fs w) p).
Proof. reflexivity. Qed.

Lemma writeFileSync_run p text w :
  writeFileSync p text w =
    (after (Fs.writeFileSync (fs w) p text).1 [EvWriteFile p text] w,
     (Fs.writeFileSync (fs w) p text).2).
Proof. reflexivity. Qed.

Lemma fs_after st evs w : fs (after st evs w) = st.
Proof. reflexivity. Qed.

Lemma window_open_after st evs w :
  window_open (after st evs w) = window_open w.
Proof. reflexivity. Qed.

Lemma trace_after st evs w : trace (after st evs w) = trace w ++ evs.
Proof. reflexivity. Qed.

(** The loop of the handler runs as [loop_run] says. *)

Ltac norm_world :=
  rewrite ?after_after, ?fs_after, ?window_open_after.

Ltac run_step lem :=
  unfold bind at 1; rewrite lem; norm_world.

Lemma loop_run_events transcriber job open i rest last st st' evs evs' r :
  loop_run transcriber job open i rest last st st' evs r ->
  evs = evs' ->
  loop_run transcriber job open i rest last st st' evs' r.
Proof. by intros H <-. Qed.

Ltac list_eq := simpl; rewrite <- ?app_assoc; rewrite ?app_nil_r; simpl; reflexivity.

Lemma run_variants_loop_run transcriber job rest :
  forall i last w, exists st' evs r,
    run_variants transcriber job i rest last w = (after st' evs w, r) /\
    loop_run transcriber job (window_open w) i rest last (fs w) st' evs r.
Proof.
  induction rest as [|args rest IH]; intros i last w.
  - exists (fs w), [], (Ok (inr last)). simpl. unfold ret. rewrite after_nil.
    split; [done | constructor].
  - simpl. run_step sendStatus_run. run_step execFileSafe_run. cbv zeta.
    norm_world.
    fold (attempt_message job i).
    fold (fs_of transcriber job args (fs w)).
    fold (run_of transcriber job args (fs w)).
    remember (fs_of transcriber job args (fs w)) as st1 eqn:Hst1.
    set (run := run_of transcriber job args (fs w)).
    run_step existsSync_run.
    assert (Hdirect :
      forall w0, fs w0 = st1 ->
        (if Fs.existsSync st1 (job_desiredTxt job)
         then fileNonEmpty (job_desiredTxt job) else ret false) w0 =
        (after st1 (if Fs.existsSync st1 (job_desiredTxt job)
                    then [EvStat (job_desiredTxt job)] else []) w0,
         Ok (direct_ok job st1))).
    { intros w0 Hw0. unfold direct_ok.
      destruct (Fs.existsSync st1 (job_desiredTxt job)).
      - rewrite fileNonEmpty_run, Hw0. done.
      - unfold ret. rewrite <- Hw0, after_nil. done. }
    unfold bind at 1. rewrite Hdirect by done. norm_world.
    destruct (direct_ok job st1) eqn:Hd.
    + run_step cleanupTemp_run. run_step sendStatus_run. unfold ret.
      eexists _, _, _. split; [reflexivity|].
      eapply loop_run_events; [by eapply loop_direct|].
      unfold invoke_evs, direct_evs, done_evs; list_eq.
    + run_step listTxt_run.
      fold (candidates job st1).
      run_step newestByMtime_run.
      fold (pick job st1).
      assert (Hfound :
        forall w0, fs w0 = st1 ->
          (if Js.truthy_opt (pick job st1)
           then fileNonEmpty (default "" (pick job st1)) else ret false) w0 =
          (after st1 (if Js.truthy_opt (pick job st1)
                      then [EvStat (default "" (pick job st1))] else []) w0,
           Ok (found job st1))).
      { intros w0 Hw0. unfold found.
        destruct (Js.truthy_opt (pick job st1)).
        - rewrite fileNonEmpty_run, Hw0. done.
        - unfold ret. rewrite <- Hw0, after_nil. done. }
      unfold bind at 1. rewrite Hfound by done. norm_world.
      destruct (found job st1) eqn:Hf.
      * assert (exists p, pick job st1 = Some p) as [p Hp].
        { unfold found in Hf. destruct (pick job st1); [eauto|done]. }
        rewrite Hp in *. simpl default.
        run_step readFileSync_run.
        destruct (Fs.readFileSync st1 p) as [text|e] eqn:Hr.
        -- run_step writeFileSync_run.
           destruct (Fs.writeFileSync st1 (job_desiredTxt job) text)
             as [st2 [[]|e]] eqn:Hw; simpl fst; simpl snd.
           ++ fold (superseded job p).
              assert (Hsup : forall w0, fs w0 = st2 ->
                (if superseded job p then safeUnlink p else ret tt) w0 =
                (after (if superseded job p then unlinked st2 p else st2)
                   (if superseded job p then [EvUnlink p] else []) w0, Ok tt)).
              { intros w0 Hw0. destruct (superseded job p).
                - rewrite safeUnlink_run, Hw0. done.
                - unfold ret. rewrite <- Hw0, after_nil. done. }
              unfold bind at 1. rewrite Hsup by done. norm_world.
              run_step cleanupTemp_run. run_step sendStatus_run. unfold ret.
              eexists _, _, _. split; [reflexivity|].
              eapply loop_run_events; [by eapply loop_heuristic|].
              unfold invoke_evs, direct_evs, scan_evs, done_evs; rewrite ?Hp; list_eq.
           ++ eexists _, _, _. split; [reflexivity|].
              eapply loop_run_events; [by eapply loop_write_throws|].
              unfold invoke_evs, direct_evs, scan_evs; rewrite ?Hp; list_eq.
        -- eexists _, _, _. split; [reflexivity|].
           eapply loop_run_events; [by eapply loop_read_throws|].
           unfold invoke_evs, direct_evs, scan_evs; rewrite ?Hp; list_eq.
      * match goal with
        | |- context [run_variants _ _ _ _ _ ?w0] =>
            destruct (IH (i + 1)%nat (captures run) w0)
              as (st' & evs & r & Hrun & Hloop)
        end.
        unfold captures in Hrun. rewrite Hrun. norm_world.
        eexists _, _, _. split; [reflexivity|].
        rewrite fs_after, window_open_after in Hloop.
        eapply loop_run_events; [by eapply loop_next|].
        unfold invoke_evs, direct_evs, scan_evs; rewrite ?Hp; list_eq.
Qed.

(** The handler runs as [job_run] says. *)

Ltac list_assoc :=
  repeat (rewrite <- app_assoc || rewrite <- app_comm_cons ||
          rewrite app_nil_r || rewrite app_nil_l);
  reflexivity.

Section JobRuns.

Variable converter : Process.
Variable transcriber : Process.
Variable payload : option Payload.

Lemma convertToWav_run w :
  convertToWav converter (audio payload) (wavForWhisper_of (audio payload)) w =
    (after (conversion converter payload (fs w)).1
       (convert_evs converter payload (window_open w) (fs w)) w,
     convert_result converter payload (fs w)).
Proof.
  unfold convertToWav, convert_evs, convert_result.
  unfold bind at 1. unfold spawn at 1.
  rewrite emit_after, set_fs_after. fold (conversion converter payload (fs w)).
  remember (conversion converter payload (fs w)) as r eqn:Hr.
  destruct r as [st1 run]. simpl fst; simpl snd.
  run_step (for_each_status_run
              (fun c : Stream * string =>
                 match c.1 with Stderr => [c.2] | Stdout => [] end)).
  2:{ intros [[] d] w0; simpl.
      - unfold ret. by rewrite after_nil.
      - rewrite sendStatus_run. by rewrite app_nil_r. }
  assert (Hchunks :
    flat_map (fun x : Stream * string =>
                flat_map (status_ev (window_open w))
                  match x.1 with Stderr => [x.2] | Stdout => [] end)
             (output run) =
    flat_map (fun c : Stream * string =>
                match c.1 with
                | Stderr => status_ev (window_open w) c.2
                | Stdout => []
                end) (output run)).
  { apply flat_map_ext. intros [[] d]; simpl; [done | by rewrite app_nil_r]. }
  rewrite Hchunks.
  destruct (spawn_error run) as [m|].
  - unfold throw. do 2 f_equal. list_eq.
  - case_bool_decide; simpl.
    + run_step existsSync_run.
      destruct (Fs.existsSync st1 _) eqn:He; simpl.
      * run_step fileNonEmpty_run.
        destruct (nonEmpty st1 _); unfold ret, throw; do 2 f_equal; list_eq.
      * unfold throw; do 2 f_equal; list_eq.
    + unfold throw; do 2 f_equal; list_eq.
Qed.

Lemma prep_run_events open st st' evs evs' r :
  prep_run converter payload open st st' evs r ->
  evs = evs' ->
  prep_run converter payload open st st' evs' r.
Proof. by intros H <-. Qed.

Lemma exists_if_run (o : option string) w :
  (if Js.truthy_opt o then existsSync (default "" o) else ret false) w =
    (after (fs w) (if Js.truthy_opt o then [EvExists (default "" o)] else []) w,
     Ok (Js.truthy_opt o && Fs.existsSync (fs w) (default "" o))).
Proof.
  destruct (Js.truthy_opt o); simpl.
  - apply existsSync_run.
  - unfold ret. by rewrite after_nil.
Qed.

Lemma prepare_prep_run w :
  exists st' evs r,
    prepare converter payload w = (after st' evs w, r) /\
    prep_run converter payload (window_open w) (fs w) st' evs r.
Proof.
  unfold prepare.
  fold (audio payload). fold (audio_given payload).
  destruct (audio_given payload) eqn:Hg.
  - unfold bind at 1. unfold bind at 1. rewrite existsSync_run.
    unfold ret at 1. norm_world.
    destruct (Fs.existsSync (fs w) (audio payload)) eqn:He; cbn [negb].
    + assert (Hprep : exists st0 evs0 r0,
        (if negb (isWav_of (audio payload))
         then bind (sendStatus converting)
                (fun _ => convertToWav converter (audio payload)
                            (wavForWhisper_of (audio payload)))
         else ret tt) (after (fs w) [EvExists (audio payload)] w) =
        (after st0 (EvExists (audio payload) :: evs0) w, r0) /\
        ((isWav_of (audio payload) = true /\ st0 = fs w /\ evs0 = [] /\
          r0 = Ok tt) \/
         (isWav_of (audio payload) = false /\
          st0 = (conversion converter payload (fs w)).1 /\
          evs0 = status_ev (window_open w) converting ++
                 convert_evs converter payload (window_open w) (fs w) /\
          r0 = convert_result converter payload (fs w)))).
      { destruct (isWav_of (audio payload)); cbn [negb].
        - eexists _, _, _. split; [reflexivity|]. left. done.
        - run_step sendStatus_run. rewrite convertToWav_run. norm_world.
          eexists _, _, _. split; [reflexivity|]. right. done. }
      destruct Hprep as (st0 & evs0 & r0 & Hrun & Hcases).
      unfold bind at 1. rewrite Hrun.
      destruct r0 as [[]|e].
      * run_step exists_if_run. run_step exists_if_run.
        run_step listTxt_run. unfold ret.
        eexists _, _, _. split; [reflexivity|].
        destruct Hcases as [(Hw & -> & -> & _)|(Hw & -> & -> & Hres)].
        -- eapply prep_run_events; [by eapply prep_wav|].
           unfold setup_evs. list_assoc.
        -- eapply prep_run_events; [by eapply prep_converted|].
           unfold setup_evs. list_assoc.
      * eexists _, _, _. split; [reflexivity|].
        destruct Hcases as [(Hw & -> & -> & ?)|(Hw & -> & -> & Hres)];
          [done|].
        eapply prep_run_events; [by eapply prep_convert_throws|]. list_assoc.
    + unfold ret. eexists _, _, _. split; [reflexivity|].
      by eapply prep_not_found.
  - unfold bind at 1. unfold ret.
    exists (fs w), [], (Ok (inl (job_failed audio_not_found))).
    rewrite after_nil. split; [reflexivity|]. by eapply prep_not_given.
Qed.

Lemma conclude_conclude_run job last w :
  exists st' evs r,
    conclude job last w = (after st' evs w, r) /\
    conclude_run (window_open w) job last (fs w) st' evs r.
Proof.
  destruct last as [out err]. unfold conclude.
  destruct (usable_stdout out) eqn:Hu.
  - run_step writeFileSync_run.
    destruct (Fs.writeFileSync (fs w) (job_desiredTxt job) out)
      as [st1 [[]|e]] eqn:Hw; simpl fst; simpl snd.
    + run_step cleanupTemp_run. run_step sendStatus_run. unfold ret.
      eexists _, _, _. split; [reflexivity|].
      replace (([EvWriteFile (job_desiredTxt job) out] ++ cleanup_evs job) ++
               status_ev (window_open w) "Done (saved from stdout).")
        with (EvWriteFile (job_desiredTxt job) out :: cleanup_evs job ++
              status_ev (window_open w) "Done (saved from stdout).")
        by list_assoc.
      by eapply conclude_fallback.
    + eexists _, _, _. split; [reflexivity|].
      by eapply conclude_fallback_throws.
  - run_step writeFileSync_run.
    destruct (Fs.writeFileSync (fs w) (diagnostic_of (job_desiredTxt job))
                (log_text out err)) as [st1 [[]|e]] eqn:Hw;
      simpl fst; simpl snd.
    + run_step cleanupTemp_run. unfold ret.
      eexists _, _, _. split; [reflexivity|].
      by eapply conclude_diagnostic.
    + eexists _, _, _. split; [reflexivity|].
      by eapply conclude_diagnostic_throws.
Qed.

(** The [try] block runs as [body_run] says. *)
Lemma transcribe_body_run w :
  exists st' evs r,
    transcribe_body converter transcriber payload w = (after st' evs w, r) /\
    body_run converter transcriber payload (window_open w) (fs w) st' evs r.
Proof.
  unfold transcribe_body.
  destruct (prepare_prep_run w) as (st1 & evs1 & r1 & Hprep & Hp).
  unfold bind at 1. rewrite Hprep.
  destruct r1 as [[result|job]|e].
  - unfold ret. eexists _, _, _. split; [reflexivity|].
    by eapply body_early.
  - destruct (run_variants_loop_run transcriber job (job_variants job) 0%nat
                ("", "") (after st1 evs1 w))
      as (st2 & evs2 & r2 & Hloop & Hl).
    rewrite fs_after, window_open_after in Hl.
    unfold bind at 1. rewrite Hloop. norm_world.
    destruct r2 as [[result|last]|e].
    + unfold ret. eexists _, _, _. split; [reflexivity|].
      by eapply body_matched.
    + destruct (conclude_conclude_run job last (after st2 (evs1 ++ evs2) w))
        as (st3 & evs3 & r3 & Hconc & Hc).
      rewrite fs_after, window_open_after in Hc.
      rewrite Hconc. norm_world. rewrite <- app_assoc.
      eexists _, _, _. split; [reflexivity|]. by eapply body_exhausted.
    + eexists _, _, _. split; [reflexivity|].
      by eapply body_copy_throws.
  - eexists _, _, _. split; [reflexivity|].
    by eapply body_prepare_throws.
Qed.

(** The handler never throws, and it runs as [job_run] says. *)
Lemma transcribe_job_run w :
  exists st' evs result,
    transcribe converter transcriber payload w =
      (after st' evs w, Ok result) /\
    job_run converter transcriber payload (window_open w)
      (fs w) st' evs result.
Proof.
  destruct (transcribe_body_run w) as (st' & evs & r & Hrun & Hbody).
  exists st', evs, (settle r). split; [|by exists r].
  unfold transcribe, try_catch. rewrite Hrun. by destruct r.
Qed.

End JobRuns.

(* ===================================================================== *)
(** * Facts about strings and paths *)

Lemma chars_str l : Js.chars (Js.str l) = l.
Proof. apply String.list_ascii_of_string_of_list_ascii. Qed.

Lemma str_chars s : Js.str (Js.chars s) = s.
Proof. apply String.string_of_list_ascii_of_string. Qed.

Lemma str_inj l1 l2 : Js.str l1 = Js.str l2 -> l1 = l2.
Proof. intros H. by rewrite <- (chars_str l1), H, chars_str. Qed.

Lemma chars_app s1 s2 : Js.chars (s1 +:+ s2) = Js.chars s1 ++ Js.chars s2.
Proof.
  induction s1 as [|c s1 IH]; [done|].
  change (String c s1 +:+ s2) with (String c (s1 +:+ s2)).
  unfold Js.chars in *. simpl. by f_equal.
Qed.

Lemma str_app l1 l2 : Js.str (l1 ++ l2) = Js.str l1 +:+ Js.str l2.
Proof.
  induction l1 as [|c l1 IH]; [done|].
  unfold Js.str in *. simpl.
  change (String c (string_of_list_ascii l1) +:+ string_of_list_ascii l2)
    with (String c (string_of_list_ascii l1 +:+ string_of_list_ascii l2)).
  by f_equal.
Qed.

Module PathFacts.
Import Js Path.

Lemma not_sep_true c : not_sep c = true <-> c <> "/"%char.
Proof.
  unfold not_sep, is_sep. case_bool_decide; simpl; split; congruence.
Qed.

Lemma take_while_all f l l' :
  Forall (fun c => f c = true) l ->
  (l' = [] \/ exists c l'', l' = c :: l'' /\ f c = false) ->
  take_while f (l ++ l') = l.
Proof.
  intros Hl Hl'. induction Hl as [|c l Hc Hl IH]; simpl.
  - destruct Hl' as [->|(c & l'' & -> & Hc)]; simpl; [done|by rewrite Hc].
  - by rewrite Hc, IH.
Qed.

Lemma drop_while_all f l l' :
  Forall (fun c => f c = true) l ->
  (l' = [] \/ exists c l'', l' = c :: l'' /\ f c = false) ->
  drop_while f (l ++ l') = l'.
Proof.
  intros Hl Hl'. induction Hl as [|c l Hc Hl IH]; simpl.
  - destruct Hl' as [->|(c & l'' & -> & Hc)]; simpl; [done|by rewrite Hc].
  - by rewrite Hc, IH.
Qed.

Lemma drop_while_head f c l : f c = false -> drop_while f (c :: l) = c :: l.
Proof. intros H; simpl; by rewrite H. Qed.

Lemma take_drop_while f l : take_while f l ++ drop_while f l = l.
Proof. induction l as [|c l IH]; simpl; [done|]. destruct (f c); simpl; by f_equal. Qed.

Lemma take_while_Forall f l : Forall (fun c => f c = true) (take_while f l).
Proof.
  induction l as [|c l IH]; simpl; [constructor|].
  destruct (f c) eqn:E; by constructor.
Qed.

Lemma drop_while_stops f l c l' : drop_while f l = c :: l' -> f c = false.
Proof.
  induction l as [|d l IH]; simpl; [done|].
  destruct (f d) eqn:E; [done|]. intros [= <- <-]. done.
Qed.

Lemma rev_dir_prefix r :
  dir_prefix r ->
  rev r = [] \/ exists c l, rev r = c :: l /\ not_sep c = false.
Proof.
  intros [->|[r' ->]]; [by left|right].
  rewrite rev_app_distr. simpl. eauto.
Qed.

Lemma sep_free_rev l : sep_free l -> Forall (fun c => not_sep c = true) (rev l).
Proof.
  intros H. apply Forall_forall. intros c Hc. apply not_sep_true.
  apply list_elem_of_In, in_rev, list_elem_of_In in Hc.
  by eapply Forall_forall in H.
Qed.

(** The last component of [r ++ seg] is [seg]. *)
Lemma rev_component_seg r seg :
  dir_prefix r -> sep_free seg -> seg <> [] ->
  rev_component (r ++ seg) = rev seg.
Proof.
  intros Hr Hs Hne. unfold rev_component. rewrite rev_app_distr.
  assert (Hrs : rev seg <> []).
  { intros E. apply Hne. by rewrite <- (rev_involutive seg), E. }
  destruct (rev seg) as [|c l] eqn:E; [done|].
  assert (Hall : Forall (fun c => not_sep c = true) (c :: l)).
  { rewrite <- E. by apply sep_free_rev. }
  assert (Hc : is_sep c = false).
  { inversion Hall as [|? ? H1 _]; subst. unfold not_sep in H1.
    by destruct (is_sep c). }
  change ((c :: l) ++ rev r) with (c :: (l ++ rev r)).
  rewrite drop_while_head by done.
  change (c :: (l ++ rev r)) with ((c :: l) ++ rev r).
  apply take_while_all; [done|]. by apply rev_dir_prefix.
Qed.

Lemma split_on_nonempty sep l : split_on sep l <> [].
Proof.
  destruct l as [|c l]; simpl; [done|].
  case_bool_decide; [done|]. by destruct (split_on sep l).
Qed.

Lemma split_on_app sep x y :
  split_on sep (x ++ sep :: y) = split_on sep x ++ split_on sep y.
Proof.
  induction x as [|c x IH]; simpl.
  - by rewrite bool_decide_eq_true_2.
  - rewrite IH. case_bool_decide; [done|].
    pose proof (split_on_nonempty sep x).
    by destruct (split_on sep x).
Qed.

Lemma split_on_sep_free seg : sep_free seg -> split_on "/"%char seg = [seg].
Proof.
  induction 1 as [|c seg Hc _ IH]; simpl; [done|].
  rewrite bool_decide_eq_false_2 by done. by rewrite IH.
Qed.

Lemma push_plain allow stack seg :
  plain seg -> push_segment allow stack seg = stack ++ [seg].
Proof.
  intros (Hne & _ & Hdot & Hdd). unfold push_segment.
  rewrite !bool_decide_eq_false_2 by done. done.
Qed.

Lemma join_with_snoc sep stack seg :
  join_with sep (stack ++ [seg]) =
    match stack with
    | [] => seg
    | _ => join_with sep stack ++ sep ++ seg
    end.
Proof.
  induction stack as [|x stack IH]; [done|].
  change ((x :: stack) ++ [seg]) with (x :: (stack ++ [seg])).
  destruct stack as [|y stack]; [done|].
  change (join_with sep (x :: (y :: stack) ++ [seg]))
    with (x ++ sep ++ join_with sep ((y :: stack) ++ [seg])).
  rewrite IH.
  change (join_with sep (x :: y :: stack))
    with (x ++ sep ++ join_with sep (y :: stack)).
  by rewrite <- !app_assoc.
Qed.

Lemma last_not_sep x seg :
  sep_free seg -> seg <> [] ->
  match rev (x ++ seg) with c :: _ => is_sep c | [] => false end = false.
Proof.
  intros Hs Hne. rewrite rev_app_distr.
  pose proof (sep_free_rev _ Hs) as Hall.
  destruct (rev seg) as [|c l] eqn:E.
  - exfalso. apply Hne. by rewrite <- (rev_involutive seg), E.
  - simpl. inversion Hall as [|? ? H1 _]; subst.
    unfold not_sep in H1. by destruct (is_sep c).
Qed.

Lemma join_prefix_dir a : dir_prefix (join_prefix a).
Proof.
  destruct a as [|c0 a]; [by left|]. unfold join_prefix.
  destruct (fold_left _ _ _) as [|s stack].
  - destruct (is_sep c0); [right; by exists []|by left].
  - right. eexists. by rewrite app_assoc.
Qed.

Lemma normalize_l_plain seg : plain seg -> normalize_l seg = seg.
Proof.
  intros Hp. pose proof Hp as (Hne & Hs & _).
  destruct seg as [|c0 seg']; [done|].
  unfold normalize_l.
  assert (Hc0 : is_sep c0 = false).
  { inversion Hs; subst. unfold is_sep. by rewrite bool_decide_eq_false_2. }
  rewrite Hc0. simpl negb.
  pose proof (last_not_sep [] (c0 :: seg') Hs Hne) as Hl.
  simpl app in Hl. rewrite Hl. clear Hl.
  unfold normalizeString. rewrite split_on_sep_free by done. simpl fold_left.
  rewrite (push_plain true [] _ Hp). simpl. by rewrite app_nil_r.
Qed.

Lemma normalize_l_snoc a seg :
  a <> [] -> plain seg ->
  normalize_l (a ++ "/"%char :: seg) = join_prefix a ++ seg.
Proof.
  intros Ha Hp. pose proof Hp as (Hne & Hs & _).
  destruct a as [|c0 a']; [done|].
  unfold normalize_l, join_prefix.
  change ((c0 :: a') ++ "/"%char :: seg) with (c0 :: (a' ++ "/"%char :: seg)).
  cbv iota beta.
  pose proof (last_not_sep ((c0 :: a') ++ ["/"%char]) seg Hs Hne) as Hl.
  rewrite <- app_assoc in Hl. simpl app in Hl. rewrite Hl. clear Hl.
  unfold normalizeString.
  change (c0 :: a' ++ "/"%char :: seg) with ((c0 :: a') ++ "/"%char :: seg).
  rewrite split_on_app, (split_on_sep_free seg) by done.
  rewrite fold_left_app.
  remember (fold_left (push_segment (negb (is_sep c0)))
              (split_on "/"%char (c0 :: a')) []) as stack eqn:E.
  cbn [fold_left]. rewrite push_plain by done.
  rewrite join_with_snoc.
  destruct stack as [|s stack].
  - destruct seg as [|d seg']; [done|].
    destruct (is_sep c0); simpl; by rewrite app_nil_r.
  - set (body := join_with ["/"%char] (s :: stack)).
    assert (Hb : body ++ ["/"%char] ++ seg <> []).
    { destruct body; simpl; done. }
    destruct (body ++ ["/"%char] ++ seg) as [|b0 rest] eqn:Eb; [done|].
    rewrite <- Eb. rewrite app_nil_r.
    destruct (is_sep c0); simpl; by rewrite <- ?app_assoc.
Qed.

Lemma join_l_plain a seg : plain seg -> join_l a seg = join_prefix a ++ seg.
Proof.
  intros Hp. pose proof Hp as (Hne & _).
  destruct a as [|c0 a'].
  - destruct seg as [|d seg']; [done|].
    change (join_l [] (d :: seg')) with (normalize_l (d :: seg')).
    by rewrite normalize_l_plain.
  - destruct seg as [|d seg']; [done|].
    change (join_l (c0 :: a') (d :: seg'))
      with (normalize_l ((c0 :: a') ++ "/"%char :: d :: seg')).
    by rewrite normalize_l_snoc.
Qed.

Lemma rev_component_not_sep p :
  Forall (fun c => not_sep c = true) (rev_component p).
Proof. apply take_while_Forall. Qed.

Lemma sep_free_of_not_sep l :
  Forall (fun c => not_sep c = true) l -> sep_free l.
Proof.
  intros H. eapply Forall_impl; [exact H|]. intros c. by rewrite not_sep_true.
Qed.

Lemma sep_free_rev' l : sep_free (rev l) -> sep_free l.
Proof.
  intros H. apply Forall_forall. intros c Hc.
  eapply Forall_forall in H; [done|].
  by apply list_elem_of_In, in_rev, list_elem_of_In; rewrite rev_involutive.
Qed.

Lemma component_sep_free p : sep_free (component p).
Proof.
  apply sep_free_rev'. unfold component. rewrite rev_involutive.
  apply sep_free_of_not_sep, rev_component_not_sep.
Qed.

Lemma match_suffix_app x y z :
  match_suffix (x ++ y) (x ++ z) = match_suffix y z.
Proof.
  induction x as [|c x IH]; [done|]. simpl.
  by rewrite bool_decide_eq_true_2.
Qed.

Lemma not_dot_false c : not_dot c = false -> c = "."%char.
Proof.
  unfold not_dot, is_dot. case_bool_decide; simpl; [done|congruence].
Qed.

Lemma stem_cases p :
  stem_l p = component p \/ stem_l p = [] \/
  exists tw rev_pre,
    rev_component p = tw ++ "."%char :: rev_pre /\
    Forall (fun c => not_dot c = true) tw /\
    rev_pre <> [] /\
    extname_l p = "."%char :: rev tw /\
    stem_l p = rev rev_pre.
Proof.
  unfold stem_l, basename_l.
  destruct (bool_decide (extname_l p <> []) &&
            Nat.leb (List.length (extname_l p)) (List.length p)) eqn:Hc; [|by left].
  apply andb_true_iff in Hc as [Hne _]. apply bool_decide_eq_true in Hne.
  case_bool_decide as Hsp; [by right; left|].
  unfold extname_l in *.
  pose proof (take_drop_while not_dot (rev_component p)) as Htd.
  destruct (drop_while not_dot (rev_component p)) as [|d rev_pre] eqn:Ed;
    [done|].
  apply drop_while_stops, not_dot_false in Ed as Hd. subst d.
  case_bool_decide as Hpre; [done|].
  case_bool_decide as Hdd; [done|].
  right; right.
  exists (take_while not_dot (rev_component p)), rev_pre.
  split; [done|]. split; [apply take_while_Forall|]. split; [done|].
  split; [done|].
  change (rev ("."%char :: rev (take_while not_dot (rev_component p))))
    with (rev (rev (take_while not_dot (rev_component p))) ++ ["."%char]).
  rewrite rev_involutive. rewrite <- Htd at 2.
  rewrite match_suffix_app. simpl.
  by destruct rev_pre.
Qed.

Lemma stem_sep_free p : sep_free (stem_l p).
Proof.
  destruct (stem_cases p) as [->|[->|(tw & rp & Hrc & _ & _ & _ & ->)]].
  - apply component_sep_free.
  - constructor.
  - apply sep_free_rev'. rewrite rev_involutive.
    pose proof (rev_component_not_sep p) as H. rewrite Hrc in H.
    apply sep_free_of_not_sep.
    apply Forall_app in H as [_ H]. by inversion H.
Qed.

Lemma plain_suffix stem suf :
  sep_free stem -> sep_free suf -> (3 <= List.length suf)%nat ->
  plain (stem ++ suf).
Proof.
  intros Hs Hf Hl. repeat split.
  - intros E. apply (f_equal List.length) in E. rewrite length_app in E.
    simpl in E. lia.
  - by apply Forall_app.
  - intros E. apply (f_equal List.length) in E. rewrite length_app in E.
    simpl in E. lia.
  - intros E. apply (f_equal List.length) in E. rewrite length_app in E.
    simpl in E. lia.
Qed.

End PathFacts.

(** The three paths the handler derives have one shape: what [path.join]
    puts before a name, the stem of the audio path, and a suffix. *)
Section Shapes.
Import PathFacts.

Variable audioPath : string.

Lemma sep_free_literal (s : string) :
  forallb (fun c => negb (bool_decide (c = "/"%char))) (Js.chars s) = true ->
  sep_free (Js.chars s).
Proof.
  intros H. apply Forall_forall. intros c Hc.
  rewrite forallb_forall in H. apply list_elem_of_In in Hc.
  specialize (H c Hc). apply negb_true_iff, bool_decide_eq_false in H. done.
Qed.

Lemma join_stem_suffix (suf : string) :
  forallb (fun c => negb (bool_decide (c = "/"%char))) (Js.chars suf) = true ->
  (3 <= length (Js.chars suf))%nat ->
  Path.join (Path.dirname audioPath)
    (Path.basename audioPath (Path.extname audioPath) +:+ suf) =
  Js.str (prefix_of audioPath ++ stem_of audioPath ++ Js.chars suf).
Proof.
  intros Hsf Hlen. unfold Path.join, Path.dirname, Path.basename, Path.extname.
  rewrite chars_app, !chars_str. fold (stem_of audioPath).
  rewrite join_l_plain; [done|].
  apply plain_suffix; [apply stem_sep_free | by apply sep_free_literal | done].
Qed.

Lemma desiredTxt_shape :
  desiredTxt_of audioPath =
    Js.str (prefix_of audioPath ++ stem_of audioPath ++ Js.chars ".txt").
Proof. by apply join_stem_suffix; [reflexivity | simpl; lia]. Qed.

Lemma tmpWav_shape :
  tmpWav_of audioPath =
    Js.str (prefix_of audioPath ++ stem_of audioPath ++
            Js.chars "__whisper_tmp.wav").
Proof. by apply join_stem_suffix; [reflexivity | simpl; lia]. Qed.

Lemma diagnostic_shape :
  diagnostic_of (desiredTxt_of audioPath) =
    Js.str (prefix_of audioPath ++ stem_of audioPath ++ Js.chars ".log.txt").
Proof.
  unfold diagnostic_of, Js.replace_txt_suffix.
  rewrite desiredTxt_shape, chars_str.
  rewrite (app_assoc (prefix_of audioPath) (stem_of audioPath)).
  set (x := prefix_of audioPath ++ stem_of audioPath).
  replace (length (x ++ Js.chars ".txt") - 4)%nat with (length x)
    by (rewrite length_app; simpl; lia).
  rewrite drop_app_length, take_app_length.
  rewrite bool_decide_eq_true_2 by reflexivity.
  subst x.
  rewrite (app_assoc (prefix_of audioPath)).
  by rewrite (str_app (prefix_of audioPath ++ stem_of audioPath)), str_chars.
Qed.

Lemma tmpWav_ne_desiredTxt : tmpWav_of audioPath <> desiredTxt_of audioPath.
Proof.
  rewrite tmpWav_shape, desiredTxt_shape. intros E%str_inj.
  by do 2 apply app_inv_head in E.
Qed.

Lemma diagnostic_ne_desiredTxt :
  diagnostic_of (desiredTxt_of audioPath) <> desiredTxt_of audioPath.
Proof.
  rewrite diagnostic_shape, desiredTxt_shape. intros E%str_inj.
  by do 2 apply app_inv_head in E.
Qed.

Lemma diagnostic_ne_tmpWav :
  diagnostic_of (desiredTxt_of audioPath) <> tmpWav_of audioPath.
Proof.
  rewrite diagnostic_shape, tmpWav_shape. intros E%str_inj.
  by do 2 apply app_inv_head in E.
Qed.

End Shapes.

(** ** Text paths are not wav paths *)

Module TxtFacts.
Import Js Path PathFacts.

Lemma lower_char_dot c : lower_char c = "."%char -> c = "."%char.
Proof.
  destruct c as [[] [] [] [] [] [] [] []]; vm_compute; congruence.
Qed.

Lemma lower_char_letter c (l : ascii) :
  lower_char c = l -> l <> "."%char -> not_dot c = true.
Proof.
  intros H Hl. unfold not_dot, is_dot. case_bool_decide as E; [|done].
  subst c. vm_compute in H. congruence.
Qed.

Lemma is_prefix_app x y : is_prefix x (x ++ y) = true.
Proof.
  induction x as [|c x IH]; [done|]. simpl.
  by rewrite bool_decide_eq_true_2.
Qed.

Lemma toLowerCase_str l : toLowerCase (str l) = str (map lower_char l).
Proof. unfold toLowerCase. by rewrite chars_str. Qed.

Lemma txt_name_rev seg :
  txt_name seg ->
  exists c1 c2 c3 rest,
    rev seg = c1 :: c2 :: c3 :: "."%char :: rest /\
    lower_char c1 = "t"%char /\ lower_char c2 = "x"%char /\
    lower_char c3 = "t"%char.
Proof.
  unfold txt_name. rewrite <- map_rev.
  destruct (rev seg) as [|c1 [|c2 [|c3 [|c4 rest]]]]; simpl;
    repeat (case_bool_decide; simpl); try done.
  intros _. exists c1, c2, c3, rest.
  assert (c4 = "."%char) as -> by (by apply lower_char_dot).
  done.
Qed.

Lemma txt_ext r seg :
  dir_prefix r -> sep_free seg -> txt_name seg ->
  map lower_char (extname_l (r ++ seg)) = [] \/
  map lower_char (extname_l (r ++ seg)) = chars ".txt".
Proof.
  intros Hr Hs Ht.
  destruct (txt_name_rev seg Ht) as (c1 & c2 & c3 & rest & Hrev & H1 & H2 & H3).
  assert (Hne : seg <> []) by (intros ->; done).
  unfold extname_l. rewrite rev_component_seg by done. rewrite Hrev.
  assert (not_dot c1 = true) as N1 by (by eapply lower_char_letter).
  assert (not_dot c2 = true) as N2 by (by eapply lower_char_letter).
  assert (not_dot c3 = true) as N3 by (by eapply lower_char_letter).
  assert (not_dot "."%char = false) as N4 by reflexivity.
  cbn [drop_while take_while]. rewrite N1, N2, N3, N4.
  case_bool_decide; [by left|].
  case_bool_decide; [by left|].
  right. cbn [rev app map]. rewrite H1, H2, H3. reflexivity.
Qed.

Lemma txt_path_not_wav p : txt_path p -> isWav_of p = false.
Proof.
  intros (r & seg & -> & Hr & Hs & Ht). unfold isWav_of, Path.extname.
  rewrite chars_str, toLowerCase_str.
  apply bool_decide_eq_false. intros E.
  destruct (txt_ext r seg Hr Hs Ht) as [H|H]; rewrite H in E; done.
Qed.

Lemma txt_name_suffix stem (suf : string) :
  is_prefix (rev (chars ".txt")) (rev (map lower_char (chars suf))) = true ->
  txt_name (stem ++ chars suf).
Proof.
  unfold txt_name. rewrite map_app, rev_app_distr.
  generalize (rev (map lower_char (chars suf))). intros l.
  generalize (rev (map lower_char stem)). intros l'.
  destruct l as [|c1 [|c2 [|c3 [|c4 l]]]]; simpl;
    repeat (case_bool_decide; simpl); done.
Qed.

Lemma desiredTxt_txt_path a : txt_path (desiredTxt_of a).
Proof.
  exists (prefix_of a), (stem_of a ++ chars ".txt").
  split; [apply desiredTxt_shape|]. split; [apply join_prefix_dir|].
  split; [|by apply txt_name_suffix].
  apply Forall_app. split; [apply stem_sep_free|].
  by apply sep_free_literal.
Qed.

Lemma diagnostic_txt_path a : txt_path (diagnostic_of (desiredTxt_of a)).
Proof.
  exists (prefix_of a), (stem_of a ++ chars ".log.txt").
  split; [apply diagnostic_shape|]. split; [apply join_prefix_dir|].
  split; [|by apply txt_name_suffix].
  apply Forall_app. split; [apply stem_sep_free|].
  by apply sep_free_literal.
Qed.

Lemma basename_plain k : Path.basename k "" = str (component (chars k)).
Proof. reflexivity. Qed.

Lemma listed_txt_path st dir p : p ∈ listed st dir -> txt_path p.
Proof.
  unfold listed, Fs.readdirSync.
  destruct (Fs.faulty st Fs.OpReaddir dir); [by intros ?%elem_of_nil|].
  intros (f & -> & Hf)%list_elem_of_fmap.
  apply list_elem_of_In, filter_In in Hf as [Hf Htxt].
  apply list_elem_of_In in Hf. unfold Fs.entries in Hf.
  apply list_elem_of_omap in Hf as (k & _ & Hk).
  unfold Fs.entry_of in Hk. case_bool_decide as Hc; [|done].
  injection Hk as <-. destruct Hc as [Hne _].
  rewrite basename_plain in *.
  set (seg := component (chars k)) in *.
  assert (Hs : sep_free seg) by apply component_sep_free.
  assert (Ht : txt_name seg).
  { unfold is_txt, endsWith in Htxt. by rewrite toLowerCase_str, chars_str in Htxt. }
  exists (join_prefix (chars dir)), seg.
  split; [|split; [apply join_prefix_dir|done]].
  unfold Path.join. rewrite chars_str. f_equal. apply join_l_plain.
  destruct (txt_name_rev seg Ht) as (c1 & c2 & c3 & rest & Hrev & _).
  assert (Hlen : (4 <= List.length seg)%nat).
  { rewrite <- length_rev, Hrev. simpl. lia. }
  repeat split; [| done | |]; intros E; rewrite E in Hlen; simpl in Hlen; lia.
Qed.

End TxtFacts.

Section WavInput.
Import TxtFacts.

Variable audioPath : string.
Hypothesis Hwav : isWav_of audioPath = true.

Lemma wav_not_txt_path p : txt_path p -> p <> audioPath.
Proof. intros Hp ->. apply txt_path_not_wav in Hp. congruence. Qed.

Lemma wav_ne_desiredTxt : desiredTxt_of audioPath <> audioPath.
Proof. apply wav_not_txt_path, desiredTxt_txt_path. Qed.

Lemma wav_ne_diagnostic : diagnostic_of (desiredTxt_of audioPath) <> audioPath.
Proof. apply wav_not_txt_path, diagnostic_txt_path. Qed.

Lemma wav_not_listed st dir : audioPath ∉ listed st dir.
Proof. intros H%listed_txt_path. by eapply wav_not_txt_path. Qed.

End WavInput.

(** ** The paths derived from a decomposed audio path *)

Module NamingFacts.
Import Js Path PathFacts.

Lemma abs_dir_join segs :
  segs <> [] -> abs_dir segs = "/"%char :: join_with ["/"%char] segs.
Proof.
  induction segs as [|s segs IH]; [done|]. intros _.
  destruct segs as [|s' segs].
  - simpl. by rewrite app_nil_r.
  - change (abs_dir (s :: s' :: segs))
      with ("/"%char :: s ++ abs_dir (s' :: segs)).
    rewrite IH by done. done.
Qed.

Lemma split_abs_dir segs :
  Forall plain segs -> split_on "/"%char (abs_dir segs) = [] :: segs.
Proof.
  induction 1 as [|s segs Hs _ IH]; [done|].
  change (abs_dir (s :: segs)) with ("/"%char :: s ++ abs_dir segs).
  cbn [split_on]. rewrite bool_decide_eq_true_2 by done. f_equal.
  destruct segs as [|s' segs'].
  - simpl. rewrite app_nil_r. apply split_on_sep_free. apply Hs.
  - change (abs_dir (s' :: segs')) with ("/"%char :: s' ++ abs_dir segs') in *.
    rewrite split_on_app.
    rewrite (split_on_sep_free s) by apply Hs.
    cbn [split_on] in IH. rewrite bool_decide_eq_true_2 in IH by done.
    by injection IH as ->.
Qed.

Lemma fold_push_plain allow segs stack :
  Forall plain segs ->
  fold_left (push_segment allow) segs stack = stack ++ segs.
Proof.
  intros H. revert stack. induction H as [|s segs Hs _ IH]; intros stack.
  - by rewrite app_nil_r.
  - cbn [fold_left]. rewrite push_plain by done. rewrite IH.
    by rewrite <- app_assoc.
Qed.

Lemma fold_push_empty allow segs stack :
  fold_left (push_segment allow) ([] :: segs) stack =
  fold_left (push_segment allow) segs stack.
Proof.
  cbn [fold_left]. unfold push_segment at 2.
  by rewrite bool_decide_eq_true_2.
Qed.

Lemma join_prefix_abs_dir segs :
  Forall plain segs -> segs <> [] ->
  join_prefix (abs_dir segs) = abs_dir segs ++ ["/"%char].
Proof.
  intros Hp Hne. rewrite (abs_dir_join segs Hne) at 2.
  destruct segs as [|s segs]; [done|].
  change (abs_dir (s :: segs)) with ("/"%char :: s ++ abs_dir segs).
  unfold join_prefix.
  change ("/"%char :: s ++ abs_dir segs) with (abs_dir (s :: segs)).
  rewrite split_abs_dir by done.
  rewrite fold_push_empty, fold_push_plain by done. done.
Qed.

Lemma split_on_join segs :
  Forall plain segs -> segs <> [] ->
  split_on "/"%char (join_with ["/"%char] segs) = segs.
Proof.
  intros Hp Hne. pose proof (split_abs_dir segs Hp) as H.
  rewrite (abs_dir_join segs Hne) in H. cbn [split_on] in H.
  rewrite bool_decide_eq_true_2 in H by done. by injection H.
Qed.

Lemma join_with_head sep c s segs :
  exists t, join_with sep ((c :: s) :: segs) = c :: t.
Proof. destruct segs; simpl; eauto. Qed.

Lemma join_prefix_rel_dir segs :
  Forall plain segs -> segs <> [] ->
  join_prefix (join_with ["/"%char] segs) =
  join_with ["/"%char] segs ++ ["/"%char].
Proof.
  intros Hp Hne. destruct segs as [|s segs]; [done|].
  inversion Hp as [|? ? Hs _]; subst. destruct Hs as (Hsne & Hsf & _).
  destruct s as [|c s]; [done|].
  destruct (join_with_head ["/"%char] c s segs) as [t Ht].
  assert (Hc : is_sep c = false).
  { inversion Hsf; subst. by apply bool_decide_eq_false_2. }
  unfold join_prefix. rewrite Ht, Hc, <- Ht. cbn [negb app].
  rewrite split_on_join, fold_push_plain by done. done.
Qed.

(** [path.dirname] of a file in a directory. *)
Lemma dirname_dir_file c0 t file :
  sep_free file -> file <> [] -> is_sep c0 = false \/ t <> [] ->
  dirname_l (c0 :: t ++ "/"%char :: file) = c0 :: t.
Proof.
  intros Hs Hne Hd.
  assert (Hrev : Forall (fun c => not_sep c = true) (rev file))
    by (by apply sep_free_rev).
  destruct (rev file) as [|c l] eqn:Hcl.
  { exfalso. apply Hne. by rewrite <- (rev_involutive file), Hcl. }
  assert (Hc : is_sep c = false).
  { inversion Hrev; subst. unfold not_sep in *. by destruct (is_sep c). }
  unfold dirname_l. rewrite rev_app_distr. cbn [rev].
  rewrite <- app_assoc. cbn [app]. rewrite Hcl. cbn [app].
  rewrite drop_while_head by done.
  change (c :: l ++ "/"%char :: rev t) with ((c :: l) ++ "/"%char :: rev t).
  rewrite drop_while_all; [| done | right; eexists _, _; split; done].
  destruct Hd as [Hd|Hd].
  - rewrite Hd. cbn [andb]. by rewrite rev_involutive.
  - rewrite bool_decide_eq_false_2.
    + rewrite andb_false_r. by rewrite rev_involutive.
    + intros E. apply Hd. by rewrite <- (rev_involutive t), E.
Qed.

Section Decomposed.

Variable absolute : bool.
Variables (segs : list (list ascii)) (base ext : list ascii).
Hypothesis Hsegs : Forall plain segs.
Hypothesis Hroot : absolute = false -> segs <> [].
Hypothesis Hbase : base <> [] /\ sep_free base.
Hypothesis Hext : ext <> [] /\ sep_free ext /\
                  Forall (fun c => not_dot c = true) ext.

Lemma file_name_sep_free : sep_free (file_name base ext).
Proof.
  apply Forall_app. split; [apply Hbase|].
  constructor; [done | apply Hext].
Qed.

Lemma file_name_ne : file_name base ext <> [].
Proof. unfold file_name. destruct base; done. Qed.

Lemma rev_component_full :
  rev_component (full_path absolute segs base ext) =
  rev (file_name base ext).
Proof.
  unfold full_path.
  replace (dir_path absolute segs ++ "/"%char :: file_name base ext)
    with ((dir_path absolute segs ++ ["/"%char]) ++ file_name base ext)
    by (by rewrite <- app_assoc).
  apply rev_component_seg;
    [right; eauto | apply file_name_sep_free | apply file_name_ne].
Qed.

Lemma rev_file_name :
  rev (file_name base ext) = rev ext ++ "."%char :: rev base.
Proof.
  unfold file_name. rewrite rev_app_distr. simpl.
  by rewrite <- app_assoc.
Qed.

Lemma rev_ext_not_dot : Forall (fun c => not_dot c = true) (rev ext).
Proof.
  destruct Hext as (_ & _ & H). apply Forall_forall. intros c Hc.
  apply list_elem_of_In, in_rev, list_elem_of_In in Hc.
  by eapply Forall_forall in H.
Qed.

Lemma rev_base_ne : rev base <> [].
Proof.
  intros E. destruct Hbase as [Hb _]. apply Hb.
  by rewrite <- (rev_involutive base), E.
Qed.

Lemma extname_full :
  extname_l (full_path absolute segs base ext) = "."%char :: ext.
Proof.
  unfold extname_l. rewrite rev_component_full, rev_file_name.
  rewrite drop_while_all;
    [| apply rev_ext_not_dot | right; eexists _, _; split; done].
  rewrite bool_decide_eq_false_2 by apply rev_base_ne.
  rewrite bool_decide_eq_false_2.
  - rewrite take_while_all;
      [| apply rev_ext_not_dot | right; eexists _, _; split; done].
    by rewrite rev_involutive.
  - intros E. apply (f_equal List.length) in E.
    rewrite length_app in E. simpl in E.
    pose proof rev_base_ne. destruct Hext as [He _].
    destruct (rev base); [done|]. destruct (rev ext) eqn:E2.
    + apply He. by rewrite <- (rev_involutive ext), E2.
    + simpl in E. lia.
Qed.

Lemma stem_full : stem_l (full_path absolute segs base ext) = base.
Proof.
  unfold stem_l, basename_l. rewrite extname_full.
  rewrite bool_decide_eq_true_2 by done.
  assert (Hlen : (List.length ("."%char :: ext) <
                  List.length (full_path absolute segs base ext))%nat).
  { unfold full_path, file_name. rewrite !length_app. simpl.
    rewrite length_app. simpl. lia. }
  rewrite (proj2 (Nat.leb_le _ _)) by lia. cbn [andb].
  rewrite bool_decide_eq_false_2
    by (intros E; rewrite E in Hlen; lia).
  rewrite rev_component_full, rev_file_name.
  change (rev ("."%char :: ext)) with (rev ext ++ ["."%char]).
  rewrite match_suffix_app. cbn [match_suffix].
  rewrite bool_decide_eq_true_2 by done.
  pose proof rev_base_ne.
  destruct (rev base) eqn:E; [done|]. by rewrite <- E, rev_involutive.
Qed.

(** The root is the one directory that is not written as it is named. *)
Lemma dirname_full :
  dirname_l (full_path absolute segs base ext) =
  if segs is [] then ["/"%char] else dir_path absolute segs.
Proof.
  pose proof file_name_sep_free as Hs. pose proof file_name_ne as Hne.
  unfold full_path, dir_path. destruct segs as [|s segs'] eqn:Esegs.
  - destruct absolute; [|by destruct Hroot].
    cbn [abs_dir flat_map app].
    destruct (rev (file_name base ext)) as [|c l] eqn:Hcl.
    { exfalso. apply Hne.
      by rewrite <- (rev_involutive (file_name base ext)), Hcl. }
    assert (Hrev : Forall (fun c => not_sep c = true) (c :: l))
      by (rewrite <- Hcl; by apply sep_free_rev).
    assert (Hc : is_sep c = false).
    { inversion Hrev; subst. unfold not_sep in *. by destruct (is_sep c). }
    unfold dirname_l. rewrite Hcl. rewrite drop_while_head by done.
    rewrite <- (app_nil_r (c :: l)).
    rewrite drop_while_all by (done || by left). done.
  - inversion Hsegs as [|? ? Hps _]; subst.
    destruct Hps as (Hsne & Hsf & _).
    destruct absolute.
    + change (abs_dir (s :: segs'))
        with ("/"%char :: (s ++ abs_dir segs')).
      cbn [app]. apply dirname_dir_file; [done|done|right].
      by destruct s.
    + destruct s as [|c0 s0]; [done|].
      destruct (join_with_head ["/"%char] c0 s0 segs') as [t Ht].
      rewrite Ht. cbn [app]. apply dirname_dir_file; [done|done|left].
      inversion Hsf; subst. by apply bool_decide_eq_false_2.
Qed.

Lemma prefix_full :
  join_prefix (dirname_l (full_path absolute segs base ext)) =
  dir_path absolute segs ++ ["/"%char].
Proof.
  rewrite dirname_full. unfold dir_path.
  destruct segs as [|s segs'] eqn:E.
  - destruct absolute; [done|by destruct Hroot].
  - rewrite <- E in *. destruct absolute.
    + apply join_prefix_abs_dir; [done|by rewrite E].
    + apply join_prefix_rel_dir; [done|by rewrite E].
Qed.

End Decomposed.

End NamingFacts.

(* ===================================================================== *)
(** * The runs are determined *)
(* ===================================================================== *)

Ltac same_lhs :=
  repeat match goal with
  | Ha : ?x = _, Hb : ?x = _ |- _ => rewrite Ha in Hb; simplify_eq
  end.

Section Determinism.

Variable converter : Process.
Variable transcriber : Process.
Variable payload : option Payload.
Variable open : bool.

Lemma loop_run_det job i rest last st st1 evs1 r1 st2 evs2 r2 :
  loop_run transcriber job open i rest last st st1 evs1 r1 ->
  loop_run transcriber job open i rest last st st2 evs2 r2 ->
  st1 = st2 /\ evs1 = evs2 /\ r1 = r2.
Proof.
  intros H1. revert st2 evs2 r2.
  induction H1; intros st2' evs2' r2' Hb; inversion Hb; subst;
    try done; try congruence.
  all: same_lhs; try done.
  match goal with
  | H : loop_run _ _ _ _ _ _ _ _ _ _ |- _ =>
      apply IHloop_run in H as (-> & -> & ->)
  end. done.
Qed.

Lemma prep_run_det st st1 evs1 r1 st2 evs2 r2 :
  prep_run converter payload open st st1 evs1 r1 ->
  prep_run converter payload open st st2 evs2 r2 ->
  st1 = st2 /\ evs1 = evs2 /\ r1 = r2.
Proof.
  intros H1 H2. inversion H1; subst; inversion H2; subst;
    try done; try congruence; same_lhs; done.
Qed.

Lemma conclude_run_det job last st st1 evs1 r1 st2 evs2 r2 :
  conclude_run open job last st st1 evs1 r1 ->
  conclude_run open job last st st2 evs2 r2 ->
  st1 = st2 /\ evs1 = evs2 /\ r1 = r2.
Proof.
  intros H1 H2. inversion H1; subst; inversion H2; subst;
    try done; try congruence; same_lhs; done.
Qed.

Lemma body_run_det st st1 evs1 r1 st2 evs2 r2 :
  body_run converter transcriber payload open st st1 evs1 r1 ->
  body_run converter transcriber payload open st st2 evs2 r2 ->
  st1 = st2 /\ evs1 = evs2 /\ r1 = r2.
Proof.
  intros H1 H2.
  inversion H1; subst; inversion H2; subst;
    repeat match goal with
    | Ha : prep_run _ _ _ ?s _ _ _, Hb : prep_run _ _ _ ?s _ _ _ |- _ =>
        destruct (prep_run_det _ _ _ _ _ _ _ Ha Hb) as (? & ? & ?);
        clear Hb; simplify_eq
    | Ha : loop_run _ _ _ _ _ _ ?s _ _ _, Hb : loop_run _ _ _ _ _ _ ?s _ _ _ |- _ =>
        destruct (loop_run_det _ _ _ _ _ _ _ _ _ _ _ Ha Hb) as (? & ? & ?);
        clear Hb; simplify_eq
    | Ha : conclude_run _ _ _ ?s _ _ _, Hb : conclude_run _ _ _ ?s _ _ _ |- _ =>
        destruct (conclude_run_det _ _ _ _ _ _ _ _ _ Ha Hb) as (? & ? & ?);
        clear Hb; simplify_eq
    end; done.
Qed.

Lemma job_run_det st st1 evs1 r1 st2 evs2 r2 :
  job_run converter transcriber payload open st st1 evs1 r1 ->
  job_run converter transcriber payload open st st2 evs2 r2 ->
  st1 = st2 /\ evs1 = evs2 /\ r1 = r2.
Proof.
  intros (o1 & H1 & ->) (o2 & H2 & ->).
  by destruct (body_run_det _ _ _ _ _ _ _ H1 H2) as (-> & -> & ->).
Qed.

End Determinism.

(** * Facts about the file system *)

Lemma unlinked_lookup_ne st p q :
  p <> q -> Fs.files (unlinked st q) !! p = Fs.files st !! p.
Proof.
  intros Hne. unfold unlinked, Fs.unlinkSync.
  destruct (Fs.faulty st Fs.OpUnlink q); [done|].
  destruct (Fs.files st !! q); [|done]. simpl. by rewrite lookup_delete_ne.
Qed.

Lemma unlinked_faults st q : Fs.faults (unlinked st q) = Fs.faults st.
Proof.
  unfold unlinked, Fs.unlinkSync.
  destruct (Fs.faulty st Fs.OpUnlink q); [done|].
  by destruct (Fs.files st !! q).
Qed.

Lemma unlinked_absent st q :
  Fs.faulty st Fs.OpUnlink q = false -> Fs.files (unlinked st q) !! q = None.
Proof.
  intros Hf. unfold unlinked, Fs.unlinkSync. rewrite Hf.
  destruct (Fs.files st !! q) eqn:E; [|done]. simpl. by rewrite lookup_delete_eq.
Qed.

(** The handler never makes or removes a directory. *)
Lemma unlinked_is_dir st q p : Fs.is_dir (unlinked st q) p = Fs.is_dir st p.
Proof.
  unfold unlinked, Fs.unlinkSync.
  destruct (Fs.faulty st Fs.OpUnlink q) eqn:Hf; [done|].
  destruct (Fs.files st !! q) as [f|] eqn:E; [|done].
  unfold Fs.is_dir. simpl.
  destruct (decide (p = q)) as [->|Hne].
  - rewrite lookup_delete_eq, E.
    apply orb_false_iff in Hf as [_ Hd]. unfold Fs.is_dir in Hd.
    rewrite E in Hd. by destruct (Fs.node f).
  - by rewrite lookup_delete_ne.
Qed.

Lemma faulty_unlinked st q op p :
  Fs.faulty (unlinked st q) op p = Fs.faulty st op p.
Proof.
  unfold Fs.faulty, Fs.refused. by rewrite unlinked_faults, unlinked_is_dir.
Qed.



Lemma write_ok st p text st2 :
  Fs.writeFileSync st p text = (st2, Ok tt) ->
  Fs.content st2 p = Some text /\
  (forall q, q <> p -> Fs.files st2 !! q = Fs.files st !! q) /\
  Fs.faults st2 = Fs.faults st /\
  Fs.faulty st Fs.OpWrite p = false.
Proof.
  unfold Fs.writeFileSync, Fs.content.
  destruct (Fs.faulty st Fs.OpWrite p); [done|]. intros [= <-]. simpl.
  rewrite lookup_insert_eq. split; [done|]. split; [|done].
  intros q Hq. by rewrite lookup_insert_ne.
Qed.


(** A failed write leaves the file system as it was and throws the message
    of [Fs.failure], which is not empty. *)
Lemma write_faulty st p text :
  Fs.faulty st Fs.OpWrite p = true ->
  Fs.writeFileSync st p text = (st, Throw (Fs.failure st Fs.OpWrite "open" p)).
Proof. intros Hf. unfold Fs.writeFileSync. by rewrite Hf. Qed.




Lemma length_chars_pos s : (0 <? Z.of_nat (Js.length s)) = true -> s <> "".
Proof. intros H ->. done. Qed.

Lemma content_regular st p text :
  Fs.content st p = Some text <->
  exists f, Fs.files st !! p = Some f /\ Fs.node f = Fs.Regular text.
Proof.
  unfold Fs.content, Fs.data. split.
  - destruct (Fs.files st !! p) as [f|]; [|done]. simpl.
    destruct (Fs.node f) eqn:E; [|done]. intros [= ->]. by exists f.
  - intros (f & -> & E). simpl. by rewrite E.
Qed.

Lemma content_not_dir st p text :
  Fs.content st p = Some text -> Fs.is_dir st p = false.
Proof.
  intros (f & E & Hn)%content_regular. unfold Fs.is_dir. by rewrite E, Hn.
Qed.

(** [fileNonEmpty] holds of a file with some content, and of a directory
    whose reported size is positive. *)
Lemma nonEmpty_exists st p : nonEmpty st p = true -> Fs.existsSync st p = true.
Proof.
  unfold nonEmpty, Fs.statSync, Fs.existsSync.
  destruct (Fs.faulty st Fs.OpStat p); [done|].
  destruct (Fs.files st !! p) as [f|]; [|done]. intros _.
  by apply bool_decide_eq_true.
Qed.

Lemma nonEmpty_content st p :
  nonEmpty st p = true -> Fs.is_dir st p = false ->
  exists text, Fs.content st p = Some text /\ text <> "".
Proof.
  unfold nonEmpty, Fs.statSync, Fs.content, Fs.is_dir, Fs.stats, Fs.data.
  destruct (Fs.faulty st Fs.OpStat p); [done|].
  destruct (Fs.files st !! p) as [f|]; [|done]. simpl.
  destruct (Fs.node f) as [text|bytes]; [|done]. intros H _.
  exists text. split; [done|]. intros E. rewrite E in H. done.
Qed.

Lemma read_content st p text :
  Fs.readFileSync st p = Ok text -> Fs.content st p = Some text.
Proof.
  unfold Fs.readFileSync, Fs.content.
  destruct (Fs.faulty st Fs.OpRead p); [done|].
  destruct (Fs.files st !! p ≫= Fs.data); [|done]. by intros [= <-].
Qed.

Lemma content_unlinked_ne st p q :
  p <> q -> Fs.content (unlinked st q) p = Fs.content st p.
Proof. intros H. unfold Fs.content. by rewrite unlinked_lookup_ne. Qed.

(** The constants of a prepared job. *)
Section Prepared.

Variable converter : Process.
Variable payload : option Payload.
Variable open : bool.

Lemma prep_run_job st st1 evs job :
  prep_run converter payload open st st1 evs (Ok (inr job)) ->
  job = job_of payload st1.
Proof. inversion 1; subst; done. Qed.

Lemma cleaned_content st job p :
  (job_isWav job = false -> p <> job_wavForWhisper job) ->
  Fs.content (cleaned job st) p = Fs.content st p.
Proof.
  intros H. unfold cleaned. destruct (job_isWav job); [done|].
  apply content_unlinked_ne. by apply H.
Qed.

Lemma cleaned_is_dir st job p :
  Fs.is_dir (cleaned job st) p = Fs.is_dir st p.
Proof.
  unfold cleaned. destruct (job_isWav job); [done|]. apply unlinked_is_dir.
Qed.


Lemma cleaned_exists st job p :
  (job_isWav job = false -> p <> job_wavForWhisper job) ->
  Fs.existsSync (cleaned job st) p = Fs.existsSync st p.
Proof.
  intros H. unfold cleaned, Fs.existsSync. destruct (job_isWav job); [done|].
  rewrite unlinked_lookup_ne; [done|]. by apply H.
Qed.

Lemma job_of_tmp_ne_desired st0 :
  job_isWav (job_of payload st0) = false ->
  job_desiredTxt (job_of payload st0) <> job_wavForWhisper (job_of payload st0).
Proof.
  simpl. unfold wavForWhisper_of. intros ->. intros E.
  by apply (tmpWav_ne_desiredTxt (audio payload)).
Qed.

End Prepared.

Lemma superseded_ne job p :
  superseded job p = true -> p <> job_desiredTxt job.
Proof.
  unfold superseded. intros H%bool_decide_eq_true E. apply H. by rewrite E.
Qed.

Lemma content_exists st p text :
  Fs.content st p = Some text -> Fs.existsSync st p = true.
Proof.
  intros (f & E & _)%content_regular. unfold Fs.existsSync.
  apply bool_decide_eq_true. by rewrite E.
Qed.

(** What the loop leaves when it returns a result: the canonical output
    path exists, and it holds some text unless it is a directory. *)
Lemma loop_run_matched tr job open i rest last st st' evs result :
  (job_isWav job = false -> job_desiredTxt job <> job_wavForWhisper job) ->
  loop_run tr job open i rest last st st' evs (Ok (inl result)) ->
  result = job_ok (job_desiredTxt job) None /\
  Fs.existsSync st' (job_desiredTxt job) = true /\
  (Fs.is_dir st' (job_desiredTxt job) = false ->
   exists text, Fs.content st' (job_desiredTxt job) = Some text /\ text <> "").
Proof.
  intros Hne H.
  remember (Ok (inl result)) as r eqn:Hr.
  induction H; subst; try done.
  - injection Hr as <-. split; [done|].
    match goal with H : direct_ok _ _ = true |- _ =>
      apply andb_true_iff in H as [He Hn] end.
    split; [by rewrite cleaned_exists|].
    rewrite cleaned_is_dir, cleaned_content by done.
    by apply nonEmpty_content.
  - injection Hr as <-. split; [done|].
    assert (Hc' : exists t, Fs.content (cleaned job
                    (if superseded job p then unlinked st2 p else st2))
                    (job_desiredTxt job) = Some t /\ t <> "").
    { rewrite cleaned_content by done.
      match goal with H : Fs.writeFileSync _ _ _ = _ |- _ =>
        apply write_ok in H as (Hc & _) end.
      match goal with H : found _ _ = true |- _ =>
        apply andb_true_iff in H as [_ Hf] end.
      match goal with H : pick _ _ = Some _ |- _ => rewrite H in Hf end.
      simpl in Hf.
      match goal with H : Fs.readFileSync _ _ = Ok _ |- _ =>
        apply read_content in H; pose proof (content_not_dir _ _ _ H) as Hd;
        apply nonEmpty_content in Hf as (t & Ht & Htne); [|exact Hd];
        rewrite H in Ht; injection Ht as -> end.
      exists t. split; [|done].
      destruct (superseded job p) eqn:Hs; [|done].
      rewrite content_unlinked_ne; [done|].
      intros E. by apply (superseded_ne job p). }
    destruct Hc' as (t & Hc' & Htne).
    split; [by eapply content_exists|]. intros _. by exists t.
  - by apply IHloop_run.
Qed.

(** * The events of a run *)

Lemma status_ev_status open text : Forall is_status (status_ev open text).
Proof. unfold status_ev. destruct open; repeat constructor. Qed.

Lemma chunk_evs_status open run : Forall is_status (chunk_evs open run).
Proof.
  unfold chunk_evs. induction (output run) as [|c l IH]; simpl; [constructor|].
  apply Forall_app. split; [apply status_ev_status | done].
Qed.

Lemma status_loop_event job evs : Forall is_status evs -> Forall (loop_event job) evs.
Proof. intros H. eapply Forall_impl; [exact H|]. by intros []. Qed.

Lemma newest_from_in st paths best bestT p :
  newest_from st paths best bestT = Some p -> p ∈ paths \/ best = Some p.
Proof.
  revert best bestT. induction paths as [|q paths IH]; intros best bestT; simpl.
  - by right.
  - destruct (Fs.statSync st q) as [s|e].
    + destruct (Fs.mtimeMs s >? bestT); intros H%IH.
      * destruct H as [H|[= ->]]; left; [by right | by left].
      * destruct H as [H|H]; [left; by right | by right].
    + intros H%IH. destruct H as [H|H]; [left; by right | by right].
Qed.

Lemma pick_candidate job st1 p : pick job st1 = Some p -> p ∈ candidates job st1.
Proof. unfold pick, newest. intros H%newest_from_in. by destruct H. Qed.

Section LoopEvents.

Variable tr : Process.
Variable job : Job.
Variable open : bool.

Lemma invoke_evs_event i args st :
  Forall (loop_event job) (invoke_evs tr job open i args st).
Proof.
  unfold invoke_evs. apply Forall_app. split.
  - apply status_loop_event, status_ev_status.
  - constructor; [done|]. apply status_loop_event, chunk_evs_status.
Qed.

Lemma direct_evs_event st1 : Forall (loop_event job) (direct_evs job st1).
Proof. unfold direct_evs. destruct (Fs.existsSync _ _); repeat constructor. Qed.

Lemma scan_evs_event st1 : Forall (loop_event job) (scan_evs job st1).
Proof.
  unfold scan_evs. constructor; [done|]. apply Forall_app. split.
  - apply Forall_forall. by intros ev (p & -> & _)%list_elem_of_fmap.
  - destruct (Js.truthy_opt _); repeat constructor.
Qed.

Lemma done_evs_event : Forall (loop_event job) (done_evs job open).
Proof.
  unfold done_evs, cleanup_evs. apply Forall_app. split.
  - destruct (job_isWav job) eqn:E; [constructor|].
    constructor; [by left | constructor].
  - apply status_loop_event, status_ev_status.
Qed.

Lemma loop_run_events_ok i rest last st st' evs r :
  loop_run tr job open i rest last st st' evs r ->
  Forall (loop_event job) evs.
Proof.
  induction 1; subst;
    repeat first
      [ apply invoke_evs_event | apply direct_evs_event
      | apply scan_evs_event | apply done_evs_event
      | assumption | apply Forall_nil_2
      | apply Forall_app; split ].
  - constructor; [|constructor; [done|constructor]].
    eexists. by apply pick_candidate.
  - destruct (superseded job p) eqn:Hs; [|constructor].
    constructor; [|constructor].
    right. split; [done|]. eexists. by apply pick_candidate.
  - repeat constructor. eexists. by apply pick_candidate.
  - constructor; [|constructor; [done|constructor]].
    eexists. by apply pick_candidate.
Qed.

End LoopEvents.

Lemma status_probe evs : Forall is_status evs -> Forall probe_event evs.
Proof. intros H. eapply Forall_impl; [exact H|]. by intros []. Qed.

Lemma invoke_evs_probe tr job open i args st :
  Forall probe_event (invoke_evs tr job open i args st).
Proof.
  unfold invoke_evs. apply Forall_app. split.
  - apply status_probe, status_ev_status.
  - constructor; [done|]. apply status_probe, chunk_evs_status.
Qed.

Lemma direct_evs_probe job st1 : Forall probe_event (direct_evs job st1).
Proof. unfold direct_evs. destruct (Fs.existsSync _ _); repeat constructor. Qed.

Lemma scan_evs_probe job st1 : Forall probe_event (scan_evs job st1).
Proof.
  unfold scan_evs. constructor; [done|]. apply Forall_app. split.
  - apply Forall_forall. by intros ev (p & -> & _)%list_elem_of_fmap.
  - destruct (Js.truthy_opt _); repeat constructor.
Qed.

Lemma attempt_probe tr job open i args st st1 :
  Forall probe_event
    (invoke_evs tr job open i args st ++ direct_evs job st1 ++ scan_evs job st1).
Proof.
  apply Forall_app; split; [apply invoke_evs_probe|].
  apply Forall_app; split; [apply direct_evs_probe | apply scan_evs_probe].
Qed.

Lemma not_probe_elem ev evs :
  Forall probe_event evs -> ~ probe_event ev -> ev ∉ evs.
Proof. intros H Hn Hin. eapply Forall_forall in H; eauto. Qed.

(** An event that is in one of the blocks of a trace. *)
Ltac pick_disjunct :=
  first [assumption | reflexivity | left; pick_disjunct | right; pick_disjunct].

Ltac event_among := rewrite ?elem_of_app, ?elem_of_cons; pick_disjunct.

(** An event that a literal list of other events does not hold. *)
Ltac no_such_event H :=
  repeat (apply elem_of_cons in H as [H|H]; [discriminate H|]);
  by apply elem_of_nil in H.

(** A file the loop deletes is the temporary waveform, or the file it
    has just read and copied. *)
Lemma loop_run_unlink tr job open i rest last st st' evs r p :
  loop_run tr job open i rest last st st' evs r ->
  EvUnlink p ∈ evs ->
  (job_isWav job = false /\ p = job_wavForWhisper job) \/
  (superseded job p = true /\ EvReadFile p ∈ evs /\
   exists text, EvWriteFile (job_desiredTxt job) text ∈ evs).
Proof.
  assert (Hdone : EvUnlink p ∈ done_evs job open ->
                  job_isWav job = false /\ p = job_wavForWhisper job).
  { unfold done_evs, cleanup_evs. intros [H|H]%elem_of_app.
    - destruct (job_isWav job); [by apply elem_of_nil in H|].
      apply list_elem_of_singleton in H. by injection H as ->.
    - pose proof (status_ev_status open "Done.") as Hs.
      eapply Forall_forall in Hs; [|exact H]. done. }
  assert (Hprobe : forall evs0, Forall probe_event evs0 -> EvUnlink p ∉ evs0).
  { intros evs0 H. apply not_probe_elem; [done|]. simpl. tauto. }
  induction 1; subst; intros Hin;
    rewrite ?elem_of_app in Hin; destruct_or?;
    try (exfalso; eapply Hprobe; [|eassumption];
         first [ apply invoke_evs_probe | apply direct_evs_probe
               | apply scan_evs_probe ]);
    try (left; by apply Hdone);
    try (by exfalso; no_such_event Hin).
  - right.
    match goal with H : _ ∈ (if superseded job ?q then _ else _) |- _ =>
      destruct (superseded job q) eqn:Hs; [|by apply elem_of_nil in H];
      apply list_elem_of_singleton in H; injection H as ->
    end.
    split; [done|]. split; [event_among|].
    exists text. event_among.
  - match goal with H : EvUnlink p ∈ evs |- _ =>
      destruct (IHloop_run H) as [?|(Hs & Hr & text & Hw)]; [by left|right]
    end.
    split; [done|]. split; [event_among|].
    exists text. event_among.
Qed.

Section HandlerEvents.

Variable converter : Process.
Variable transcriber : Process.
Variable payload : option Payload.
Variable open : bool.

Lemma stderr_chunks_status (l : list (Stream * string)) :
  Forall is_status
    (flat_map (fun c => match c.1 with
                        | Stderr => status_ev open c.2
                        | Stdout => []
                        end) l).
Proof.
  induction l as [|[[] d] l IH]; simpl; [constructor|done|].
  apply Forall_app. split; [apply status_ev_status|done].
Qed.

Lemma status_prep evs : Forall is_status evs -> Forall (prep_event payload) evs.
Proof. intros H. eapply Forall_impl; [exact H|]. by intros []. Qed.

Lemma convert_evs_prep st :
  isWav_of (audio payload) = false ->
  Forall (prep_event payload) (convert_evs converter payload open st).
Proof.
  intros Hw. unfold convert_evs. constructor; [done|].
  apply Forall_app. split; [apply status_prep, stderr_chunks_status|].
  destruct (spawn_error _); [constructor|].
  case_bool_decide; [|constructor].
  destruct (Fs.existsSync _ _); repeat constructor.
Qed.

Lemma setup_evs_prep : Forall (prep_event payload) (setup_evs payload).
Proof.
  unfold setup_evs.
  destruct (Js.truthy_opt (payload ≫= whisperBin)),
           (Js.truthy_opt (payload ≫= modelPath)); repeat constructor.
Qed.

Lemma prep_run_events_ok st st1 evs r :
  prep_run converter payload open st st1 evs r ->
  Forall (prep_event payload) evs.
Proof.
  inversion 1; subst.
  - constructor.
  - repeat constructor.
  - constructor; [done|apply setup_evs_prep].
  - constructor; [done|]. apply Forall_app. split;
      [apply status_prep, status_ev_status|].
    apply Forall_app. split; [by apply convert_evs_prep|apply setup_evs_prep].
  - constructor; [done|]. apply Forall_app. split;
      [apply status_prep, status_ev_status|by apply convert_evs_prep].
Qed.

Lemma prep_handler_event okb ev :
  prep_event payload ev -> handler_event payload okb ev.
Proof. by destruct ev. Qed.

Lemma candidates_listed job st1 p :
  p ∈ candidates job st1 -> p ∈ listed st1 (job_dir job).
Proof.
  unfold candidates. intros H%list_elem_of_In%filter_In.
  apply list_elem_of_In, H.
Qed.

Lemma loop_handler_event st0 okb ev :
  loop_event (job_of payload st0) ev -> handler_event payload okb ev.
Proof.
  destruct ev; simpl; try done.
  - intros (st1 & H). exists st1. by apply candidates_listed in H.
  - by left.
  - unfold wavForWhisper_of.
    intros [[Hw ->]|(Hs & st1 & H)].
    + left. by rewrite Hw.
    + right. split; [by apply bool_decide_eq_true in Hs|].
      exists st1. by apply candidates_listed in H.
Qed.

Lemma body_run_events_ok st st' evs r :
  body_run converter transcriber payload open st st' evs r ->
  Forall (handler_event payload (ok (settle r))) evs.
Proof.
  assert (Hprep : forall s s1 e r okb,
            prep_run converter payload open s s1 e r ->
            Forall (handler_event payload okb) e).
  { intros s s1 e r0 okb H%prep_run_events_ok.
    eapply Forall_impl; [exact H|]. apply prep_handler_event. }
  assert (Hloop : forall s s1 e job i rest last s2 e2 r okb,
            prep_run converter payload open s s1 e (Ok (inr job)) ->
            loop_run transcriber job open i rest last s1 s2 e2 r ->
            Forall (handler_event payload okb) e2).
  { intros s s1 e job i rest last s2 e2 r0 okb Hp Hl.
    apply prep_run_job in Hp as ->. apply loop_run_events_ok in Hl.
    eapply Forall_impl; [exact Hl|]. apply loop_handler_event. }
  inversion 1; subst; repeat (apply Forall_app; split); eauto.
  match goal with H : prep_run _ _ _ _ _ _ (Ok (inr _)) |- _ =>
    apply prep_run_job in H as -> end.
  match goal with H : conclude_run _ _ _ _ _ _ _ |- _ =>
    inversion H; subst end.
  - constructor; [by left|].
    apply Forall_app. split.
    + unfold cleanup_evs; simpl. unfold wavForWhisper_of.
      destruct (isWav_of (audio payload)) eqn:E; repeat constructor; done.
    + eapply Forall_impl; [apply status_ev_status|]. by intros [].
  - constructor; [by left|constructor].
  - constructor; [by right|].
    unfold cleanup_evs; simpl. unfold wavForWhisper_of.
    destruct (isWav_of (audio payload)) eqn:E; repeat constructor; done.
  - constructor; [by right|constructor].
Qed.

Lemma job_run_events_ok st st' evs result :
  job_run converter transcriber payload open st st' evs result ->
  Forall (handler_event payload (ok result)) evs.
Proof. intros (r & H & ->). by eapply body_run_events_ok. Qed.

End HandlerEvents.

Lemma done_evs_no_write job open p t : EvWriteFile p t ∉ done_evs job open.
Proof.
  unfold done_evs, cleanup_evs. intros [H|H]%elem_of_app.
  - destruct (job_isWav job); [by apply elem_of_nil in H|].
    by apply list_elem_of_singleton in H.
  - pose proof (status_ev_status open "Done.") as Hs.
    eapply Forall_forall in Hs; [|exact H]. done.
Qed.

(** When the loop returns a result, the only file it may have written is
    the canonical output, with the content the file has at the end. *)
Lemma loop_run_matched_writes tr job open i rest last st st' evs result :
  (job_isWav job = false -> job_desiredTxt job <> job_wavForWhisper job) ->
  loop_run tr job open i rest last st st' evs (Ok (inl result)) ->
  forall p t, EvWriteFile p t ∈ evs ->
    p = job_desiredTxt job /\ Fs.content st' (job_desiredTxt job) = Some t.
Proof.
  intros Hne H p t.
  assert (Hprobe : forall evs0, Forall probe_event evs0 -> EvWriteFile p t ∉ evs0).
  { intros evs0 H0. apply not_probe_elem; [done|]. simpl. tauto. }
  remember (Ok (inl result)) as r eqn:Hr.
  induction H; subst; try done; intros Hin;
    rewrite ?elem_of_app in Hin; destruct_or?;
    try (exfalso; eapply Hprobe; [|eassumption];
         first [ apply invoke_evs_probe | apply direct_evs_probe
               | apply scan_evs_probe ]);
    try (exfalso; by eapply done_evs_no_write).
  - apply elem_of_cons in Hin as [Hin|Hin]; [done|].
    apply list_elem_of_singleton in Hin. injection Hin as -> ->.
    split; [done|]. rewrite cleaned_content by done.
    match goal with H : Fs.writeFileSync _ _ _ = _ |- _ =>
      apply write_ok in H as (Hc & _) end.
    destruct (superseded job p0) eqn:Hs; [|done].
    rewrite content_unlinked_ne; [done|].
    intros E. by apply (superseded_ne job p0).
  - exfalso. destruct (superseded job p0); [|by apply elem_of_nil in Hin].
    by apply list_elem_of_singleton in Hin.
  - by apply IHloop_run.
Qed.

Lemma usable_stdout_nonempty out : usable_stdout out = true -> out <> "".
Proof.
  unfold usable_stdout, Js.truthy. intros [H _]%andb_true_iff.
  by apply negb_true_iff, bool_decide_eq_false in H.
Qed.

(** A loop that runs to its end has only probed. *)
Lemma loop_run_exhausted tr job open i rest last st st' evs last' :
  loop_run tr job open i rest last st st' evs (Ok (inr last')) ->
  Forall probe_event evs.
Proof.
  intros H. remember (Ok (inr last')) as r eqn:Hr.
  induction H; subst; try done.
  rewrite !app_assoc. apply Forall_app. split; [|by apply IHloop_run].
  rewrite <- !app_assoc. apply attempt_probe.
Qed.

Lemma cleanup_evs_no_write job p t : EvWriteFile p t ∉ cleanup_evs job.
Proof.
  unfold cleanup_evs. destruct (job_isWav job); [apply not_elem_of_nil|].
  by intros H%list_elem_of_singleton.
Qed.

Lemma status_ev_no_write open text p t : EvWriteFile p t ∉ status_ev open text.
Proof.
  intros H. pose proof (status_ev_status open text) as Hs.
  eapply Forall_forall in Hs; [|exact H]. done.
Qed.

(** A run of the handler, from its equation. *)
Lemma transcribe_inv converter transcriber payload w w' r :
  transcribe converter transcriber payload w = (w', r) ->
  exists st' evs result,
    w' = after st' evs w /\ r = Ok result /\
    job_run converter transcriber payload (window_open w) (fs w) st' evs result.
Proof.
  intros H.
  destruct (transcribe_job_run converter transcriber payload w)
    as (st' & evs & result & Hrun & Hjob).
  rewrite Hrun in H. injection H as <- <-. by exists st', evs, result.
Qed.

(** Claim C4, with the exception the code leaves. Whenever the handler
    returns a result with [ok = true], the [outputPath] of the result is the
    canonical output path and that path exists when the handler returns.
    Unless a directory sits at that path, the file there has a content that
    is not empty, on each route (direct match, heuristic match, stdout
    fallback). On the last two routes, the ones on which the handler writes,
    it writes to no other path, what it writes is the content found at the
    end, and the path is not a directory. *)
Theorem ok_output_nonempty
    (converter transcriber : Process) (payload : option Payload)
    (w w' : World) (result : JobResult) :
  transcribe converter transcriber payload w = (w', Ok result) ->
  ok result = true ->
  let desired := desiredTxt_of (audio payload) in
  let evs := drop (List.length (trace w)) (trace w') in
  outputPath result = Some desired /\
  Fs.existsSync (fs w') desired = true /\
  (Fs.is_dir (fs w') desired = false ->
   exists text,
     Fs.content (fs w') desired = Some text /\ text <> "" /\
     forall p t, EvWriteFile p t ∈ evs -> p = desired /\ t = text) /\
  (forall p t, EvWriteFile p t ∈ evs -> Fs.is_dir (fs w') desired = false).
Proof.
  intros Hrun Hok desired evs. subst desired evs.
  apply transcribe_inv in Hrun as (st' & evs & res & -> & [= <-] & Hjob).
  rewrite fs_after, trace_after, drop_app_length.
  destruct Hjob as (r & Hbody & ->).
  inversion Hbody; subst; try done.
  - match goal with H : prep_run _ _ _ _ _ _ _ |- _ => inversion H; subst; done end.
  - match goal with H : prep_run _ _ _ _ _ _ (Ok (inr _)) |- _ =>
      pose proof (prep_run_events_ok _ _ _ _ _ _ _ H) as Hpe;
      apply prep_run_job in H as -> end.
    match goal with H : loop_run _ _ _ _ _ _ _ _ _ _ |- _ =>
      pose proof (loop_run_matched _ _ _ _ _ _ _ _ _ _
                    (job_of_tmp_ne_desired payload _) H)
        as (-> & Hex & Hfile);
      pose proof (loop_run_matched_writes _ _ _ _ _ _ _ _ _ _
                    (job_of_tmp_ne_desired payload _) H) as Hw
    end.
    cbn [job_desiredTxt job_of] in *.
    assert (Hwrite : forall p t, EvWriteFile p t ∈ evs1 ++ evs2 ->
              p = desiredTxt_of (audio payload) /\
              Fs.content st' (desiredTxt_of (audio payload)) = Some t).
    { intros p t [Hin|Hin]%elem_of_app.
      - eapply Forall_forall in Hpe; [|exact Hin]. done.
      - by apply Hw in Hin. }
    split; [done|]. split; [exact Hex|]. split.
    + intros Hd. destruct (Hfile Hd) as (text & Hc & Hne).
      exists text. split; [done|]. split; [done|].
      intros p t Hin. apply Hwrite in Hin as [-> Hin].
      rewrite Hc in Hin. by injection Hin as ->.
    + intros p t Hin. apply Hwrite in Hin as [_ Hin].
      by eapply content_not_dir.
  - match goal with H : prep_run _ _ _ _ _ _ (Ok (inr _)) |- _ =>
      pose proof (prep_run_events_ok _ _ _ _ _ _ _ H) as Hpe;
      apply prep_run_job in H as -> end.
    match goal with H : loop_run _ _ _ _ _ _ _ _ _ _ |- _ =>
      pose proof (loop_run_events_ok _ _ _ _ _ _ _ _ _ _ H) as Hle end.
    match goal with H : conclude_run _ _ _ _ _ _ _ |- _ =>
      inversion H; subst; try done end.
    match goal with H : Fs.writeFileSync _ _ _ = _ |- _ =>
      apply write_ok in H as (Hc & _) end.
    split; [done|].
    match goal with |- Fs.existsSync ?s _ = true /\ _ =>
      assert (Hend : Fs.content s (desiredTxt_of (audio payload)) = Some out)
    end.
    { rewrite cleaned_content; [done|]. apply job_of_tmp_ne_desired. }
    split; [by eapply content_exists|]. split.
    + intros _. exists out. split; [exact Hend|].
      split; [by apply usable_stdout_nonempty|].
      intros p t Hin. rewrite !elem_of_app in Hin. destruct_or?.
      * eapply Forall_forall in Hpe; [|eassumption]. done.
      * match goal with H : loop_run _ _ _ _ _ _ _ _ _ _ |- _ =>
          apply loop_run_exhausted in H end.
        exfalso. eapply not_probe_elem; [eassumption| |eassumption].
        simpl. tauto.
      * apply elem_of_cons in Hin as [Hin|Hin]; [by injection Hin as -> ->|].
        exfalso. apply elem_of_app in Hin as [Hin|Hin].
        -- by eapply cleanup_evs_no_write.
        -- by eapply status_ev_no_write.
    + intros _ _ _. by eapply content_not_dir.
Qed.

(** * Runs, from the equations of the code *)

Section Inversions.

Variable converter : Process.
Variable transcriber : Process.
Variable payload : option Payload.

Lemma prepare_inv w w1 r :
  prepare converter payload w = (w1, r) ->
  exists st1 evs1,
    w1 = after st1 evs1 w /\
    prep_run converter payload (window_open w) (fs w) st1 evs1 r.
Proof.
  intros H. destruct (prepare_prep_run converter payload w)
    as (st1 & evs1 & r1 & Hrun & Hp).
  rewrite Hrun in H. injection H as <- <-. by exists st1, evs1.
Qed.

Lemma run_variants_inv job i rest last w w2 r :
  run_variants transcriber job i rest last w = (w2, r) ->
  exists st2 evs2,
    w2 = after st2 evs2 w /\
    loop_run transcriber job (window_open w) i rest last (fs w) st2 evs2 r.
Proof.
  intros H. destruct (run_variants_loop_run transcriber job rest i last w)
    as (st2 & evs2 & r2 & Hrun & Hl).
  rewrite Hrun in H. injection H as <- <-. by exists st2, evs2.
Qed.

Lemma transcribe_body_inv w w' r :
  transcribe_body converter transcriber payload w = (w', r) ->
  exists st' evs,
    w' = after st' evs w /\
    body_run converter transcriber payload (window_open w) (fs w) st' evs r.
Proof.
  intros H. destruct (transcribe_body_run converter transcriber payload w)
    as (st' & evs & r' & Hrun & Hb).
  rewrite Hrun in H. injection H as <- <-. by exists st', evs.
Qed.

(** The handler, phase by phase. *)
Lemma transcribe_phases w :
  transcribe converter transcriber payload w =
    match prepare converter payload w with
    | (w1, Ok (inl result)) => (w1, Ok result)
    | (w1, Throw e) => (w1, Ok (caught e))
    | (w1, Ok (inr job)) =>
        match run_variants transcriber job 0 (job_variants job) ("", "") w1
        with
        | (w2, Ok (inl result)) => (w2, Ok result)
        | (w2, Throw e) => (w2, Ok (caught e))
        | (w2, Ok (inr last)) =>
            match conclude job last w2 with
            | (w3, Ok result) => (w3, Ok result)
            | (w3, Throw e) => (w3, Ok (caught e))
            end
        end
    end.
Proof.
  unfold transcribe, try_catch, transcribe_body. unfold bind at 1.
  destruct (prepare converter payload w) as [w1 [[result|job]|e]]; try done.
  unfold bind at 1.
  destruct (run_variants _ _ _ _ _ w1) as [w2 [[result|last]|e]]; try done.
Qed.

End Inversions.

Lemma trim_empty : Js.trim "" = "".
Proof. reflexivity. Qed.




Section Completeness.

Variable converter : Process.
Variable transcriber : Process.
Variable payload : option Payload.

Lemma prepare_complete w st1 evs1 r :
  prep_run converter payload (window_open w) (fs w) st1 evs1 r ->
  prepare converter payload w = (after st1 evs1 w, r).
Proof.
  intros H. destruct (prepare_prep_run converter payload w)
    as (st1' & evs1' & r' & Hrun & Hp).
  eapply prep_run_det in Hp; [|exact H]. by destruct Hp as (-> & -> & ->).
Qed.

Lemma run_variants_complete job i rest last w st2 evs2 r :
  loop_run transcriber job (window_open w) i rest last (fs w) st2 evs2 r ->
  run_variants transcriber job i rest last w = (after st2 evs2 w, r).
Proof.
  intros H. destruct (run_variants_loop_run transcriber job rest i last w)
    as (st2' & evs2' & r' & Hrun & Hl).
  eapply loop_run_det in Hl; [|exact H]. by destruct Hl as (-> & -> & ->).
Qed.

End Completeness.

Lemma prep_no_write converter payload open st st1 evs r p t :
  prep_run converter payload open st st1 evs r -> EvWriteFile p t ∉ evs.
Proof.
  intros H%prep_run_events_ok Hin.
  eapply Forall_forall in H; [|exact Hin]. done.
Qed.


Lemma append_assoc (s1 s2 s3 : string) : (s1 +:+ s2) +:+ s3 = s1 +:+ s2 +:+ s3.
Proof.
  induction s1 as [|c s1 IH]; [done|].
  change ((String c (s1 +:+ s2)) +:+ s3 = String c (s1 +:+ s2 +:+ s3)).
  change (String c ((s1 +:+ s2) +:+ s3) = String c (s1 +:+ s2 +:+ s3)).
  by rewrite IH.
Qed.



Lemma drop_trace w st evs :
  drop (List.length (trace w)) (trace (after st evs w)) = evs.
Proof. by rewrite trace_after, drop_app_length. Qed.


Lemma prep_no_unlink converter payload open st st1 evs r p :
  prep_run converter payload open st st1 evs r -> EvUnlink p ∉ evs.
Proof.
  intros H%prep_run_events_ok Hin.
  eapply Forall_forall in H; [|exact Hin]. done.
Qed.

Lemma status_ev_no_unlink open text p : EvUnlink p ∉ status_ev open text.
Proof.
  intros H. pose proof (status_ev_status open text) as Hs.
  eapply Forall_forall in Hs; [|exact H]. done.
Qed.

Lemma cleanup_evs_unlink job p :
  EvUnlink p ∈ cleanup_evs job ->
  job_isWav job = false /\ p = job_wavForWhisper job.
Proof.
  unfold cleanup_evs. destruct (job_isWav job); [by intros ?%elem_of_nil|].
  intros H%list_elem_of_singleton. by injection H as ->.
Qed.

(** A file the handler deletes is the temporary waveform, or the file the
    heuristic has just read and copied to the canonical output. *)
Lemma body_run_unlink converter transcriber payload open st st' evs r p :
  body_run converter transcriber payload open st st' evs r ->
  EvUnlink p ∈ evs ->
  (isWav_of (audio payload) = false /\ p = tmpWav_of (audio payload)) \/
  (normalize p <> normalize (desiredTxt_of (audio payload)) /\
   EvReadFile p ∈ evs /\
   exists text, EvWriteFile (desiredTxt_of (audio payload)) text ∈ evs).
Proof.
  assert (Htmp : forall st0,
            job_isWav (job_of payload st0) = false ->
            p = job_wavForWhisper (job_of payload st0) ->
            isWav_of (audio payload) = false /\ p = tmpWav_of (audio payload)).
  { intros st0 Hw ->. split; [done|]. simpl in *. unfold wavForWhisper_of.
    by rewrite Hw. }
  assert (Hloop : forall st0 i rest last s s2 e2 r2,
            loop_run transcriber (job_of payload st0) open i rest last s s2 e2 r2 ->
            EvUnlink p ∈ e2 ->
            (isWav_of (audio payload) = false /\ p = tmpWav_of (audio payload)) \/
            (normalize p <> normalize (desiredTxt_of (audio payload)) /\
             EvReadFile p ∈ e2 /\
             exists text, EvWriteFile (desiredTxt_of (audio payload)) text ∈ e2)).
  { intros st0 i rest last s s2 e2 r2 Hl Hin.
    destruct (loop_run_unlink _ _ _ _ _ _ _ _ _ _ _ Hl Hin)
      as [[Hw Hp]|(Hs & Hr & text & Hwr)].
    - left. by eapply Htmp.
    - right. split; [by apply bool_decide_eq_true in Hs|]. split; [done|].
      by exists text. }
  inversion 1; subst; intros Hin.
  - exfalso. by eapply prep_no_unlink.
  - exfalso. by eapply prep_no_unlink.
  - apply elem_of_app in Hin as [Hin|Hin]; [exfalso; by eapply prep_no_unlink|].
    match goal with H : prep_run _ _ _ _ _ _ (Ok (inr _)) |- _ =>
      apply prep_run_job in H as -> end.
    destruct (Hloop _ _ _ _ _ _ _ _ ltac:(eassumption) Hin)
      as [?|(? & ? & text & ?)]; [by left|right].
    split; [done|]. split; [event_among|]. exists text. event_among.
  - apply elem_of_app in Hin as [Hin|Hin]; [exfalso; by eapply prep_no_unlink|].
    match goal with H : prep_run _ _ _ _ _ _ (Ok (inr _)) |- _ =>
      apply prep_run_job in H as -> end.
    destruct (Hloop _ _ _ _ _ _ _ _ ltac:(eassumption) Hin)
      as [?|(? & ? & text & ?)]; [by left|right].
    split; [done|]. split; [event_among|]. exists text. event_among.
  - match goal with H : prep_run _ _ _ _ _ _ (Ok (inr _)) |- _ =>
      pose proof (prep_no_unlink _ _ _ _ _ _ _ p H) as Hnp;
      apply prep_run_job in H as -> end.
    rewrite !elem_of_app in Hin. destruct Hin as [Hin|[Hin|Hin]]; [done| |].
    + destruct (Hloop _ _ _ _ _ _ _ _ ltac:(eassumption) Hin)
        as [?|(? & ? & text & ?)]; [by left|right].
      split; [done|]. split; [event_among|]. exists text. event_among.
    + left.
      match goal with H : conclude_run _ _ _ _ _ _ _ |- _ =>
        inversion H; subst end.
      * apply elem_of_cons in Hin as [Hin|Hin]; [done|].
        apply elem_of_app in Hin as [Hin|Hin];
          [|exfalso; by eapply status_ev_no_unlink].
        apply cleanup_evs_unlink in Hin as [? ?]. by eapply Htmp.
      * by apply list_elem_of_singleton in Hin.
      * apply elem_of_cons in Hin as [Hin|Hin]; [done|].
        apply cleanup_evs_unlink in Hin as [? ?]. by eapply Htmp.
      * by apply list_elem_of_singleton in Hin.
Qed.

(** Claim C9. For a request whose audio path has the extension [.wav] (in any
    case), the handler never spawns the converter and never writes the
    temporary waveform path; all it writes is the canonical output or, in a
    result with [ok = false], the log; and every file it deletes is a file
    other than the canonical output that it has read and copied to the
    canonical output: the superseded match of the heuristic. *)
Theorem wav_input_frame
    (converter transcriber : Process) (payload : option Payload)
    (w w' : World) (result : JobResult) :
  isWav_of (audio payload) = true ->
  transcribe converter transcriber payload w = (w', Ok result) ->
  let desired := desiredTxt_of (audio payload) in
  let diagnostic := diagnostic_of desired in
  let evs := drop (List.length (trace w)) (trace w') in
  (forall cmd args, EvSpawn cmd args ∉ evs) /\
  (forall p t, EvWriteFile p t ∈ evs ->
     p <> tmpWav_of (audio payload) /\
     (p = desired \/ (p = diagnostic /\ ok result = false))) /\
  (forall p, EvUnlink p ∈ evs ->
     normalize p <> normalize desired /\
     EvReadFile p ∈ evs /\
     exists text, EvWriteFile desired text ∈ evs).
Proof.
  intros Hwav Hrun desired diagnostic evs.
  apply transcribe_inv in Hrun as (st' & evs' & res & -> & [= <-] & Hjob).
  subst evs. rewrite drop_trace.
  pose proof (job_run_events_ok _ _ _ _ _ _ _ _ Hjob) as Hev.
  destruct Hjob as (r & Hbody & ->).
  split; [|split].
  - intros cmd args Hin. eapply Forall_forall in Hev; [|exact Hin].
    simpl in Hev. congruence.
  - intros p t Hin. eapply Forall_forall in Hev; [|exact Hin].
    simpl in Hev. split; [|done].
    destruct Hev as [->|[-> _]]; intros E.
    + symmetry in E. by apply tmpWav_ne_desiredTxt in E.
    + by apply diagnostic_ne_tmpWav in E.
  - intros p Hin.
    destruct (body_run_unlink _ _ _ _ _ _ _ _ _ Hbody Hin) as [[Hw _]|H];
      [congruence|done].
Qed.

(** When the loop returns a result, it has cleaned up. *)
Lemma loop_run_cleaned tr job open i rest last st st' evs result :
  loop_run tr job open i rest last st st' evs (Ok (inl result)) ->
  exists st0, st' = cleaned job st0 /\
              forall ev, ev ∈ cleanup_evs job -> ev ∈ evs.
Proof.
  intros H. remember (Ok (inl result)) as r eqn:Hr.
  induction H; subst; try done.
  - eexists. split; [done|]. intros ev Hev. unfold done_evs.
    rewrite !elem_of_app. auto.
  - eexists. split; [done|]. intros ev Hev. unfold done_evs.
    rewrite !elem_of_app. auto 10.
  - destruct (IHloop_run eq_refl) as (st0 & -> & Hc).
    exists st0. split; [done|]. intros ev Hev.
    rewrite !elem_of_app. auto 10.
Qed.

Lemma cleaned_absent job st :
  job_isWav job = false ->
  Fs.faulty (cleaned job st) Fs.OpUnlink (job_wavForWhisper job) = false ->
  Fs.files (cleaned job st) !! job_wavForWhisper job = None.
Proof.
  unfold cleaned. intros ->. rewrite faulty_unlinked. apply unlinked_absent.
Qed.

Lemma wav_untouched_event payload okb ev :
  isWav_of (audio payload) = true ->
  handler_event payload okb ev ->
  ev <> EvUnlink (audio payload) /\ forall t, ev <> EvWriteFile (audio payload) t.
Proof.
  intros Hwav Hev. split.
  - intros ->. simpl in Hev. destruct Hev as [[? _]|(_ & st1 & Hin)];
      [congruence|]. by eapply wav_not_listed.
  - intros t ->. simpl in Hev. destruct Hev as [E|[E _]]; symmetry in E.
    + by eapply wav_ne_desiredTxt.
    + by eapply wav_ne_diagnostic.
Qed.

(** Claim C1, as the code has it. For an input that is not a wav file, once the
    preparation has given a job (the temporary waveform was converted) and
    the body of the handler returns a result (direct match, heuristic match,
    stdout fallback, or the failure that writes the log), the handler has
    called [unlink] on the temporary waveform; the file is gone when the
    handler returns unless that [unlink] fails, a failure [safeUnlink]
    swallows. For a wav input the waveform given to the transcriber is the
    input itself, and no event of the handler, whatever its outcome, deletes
    it or writes it. *)
Theorem temp_cleanup
    (converter transcriber : Process) (payload : option Payload) (w : World) :
  (forall w1 job w' result,
     prepare converter payload w = (w1, Ok (inr job)) ->
     isWav_of (audio payload) = false ->
     transcribe_body converter transcriber payload w = (w', Ok result) ->
     EvUnlink (tmpWav_of (audio payload)) ∈
       drop (List.length (trace w)) (trace w') /\
     (Fs.faulty (fs w') Fs.OpUnlink (tmpWav_of (audio payload)) = false ->
      Fs.files (fs w') !! tmpWav_of (audio payload) = None)) /\
  (forall w' r,
     isWav_of (audio payload) = true ->
     transcribe converter transcriber payload w = (w', r) ->
     wavForWhisper_of (audio payload) = audio payload /\
     forall ev, ev ∈ drop (List.length (trace w)) (trace w') ->
       ev <> EvUnlink (audio payload) /\
       forall t, ev <> EvWriteFile (audio payload) t).
Proof.
  split.
  - intros w1 job w' result Hprep Hwav Hbody.
    apply prepare_inv in Hprep as (st1 & evs1 & -> & Hp).
    apply transcribe_body_inv in Hbody as (st' & evs & -> & Hb).
    rewrite drop_trace, fs_after.
    assert (Htmp : forall st0, job_wavForWhisper (job_of payload st0) =
                               tmpWav_of (audio payload)).
    { intros st0. simpl. unfold wavForWhisper_of. by rewrite Hwav. }
    inversion Hb; subst.
    + match goal with H : prep_run _ _ _ _ _ _ (Ok (inl _)) |- _ =>
        destruct (prep_run_det _ _ _ _ _ _ _ _ _ _ H Hp) as (_ & _ & ?) end.
      done.
    + match goal with H : prep_run _ _ _ _ _ _ (Ok (inr _)) |- _ =>
        apply prep_run_job in H as -> end.
      match goal with H : loop_run _ (job_of _ ?s) _ _ _ _ _ _ _ _ |- _ =>
        rewrite <- (Htmp s);
        apply loop_run_cleaned in H as (stx & -> & Hc) end.
      split.
      * apply elem_of_app. right. apply Hc. unfold cleanup_evs. simpl.
        rewrite Hwav. by left.
      * by apply cleaned_absent.
    + match goal with H : prep_run _ _ _ _ _ _ (Ok (inr _)) |- _ =>
        apply prep_run_job in H as -> end.
      match goal with H : conclude_run _ (job_of _ ?s) _ _ _ _ _ |- _ =>
        rewrite <- (Htmp s); inversion H; subst end.
      * split; [|by apply cleaned_absent].
        rewrite !elem_of_app. right; right. right.
        apply elem_of_app. left. unfold cleanup_evs. simpl.
        rewrite Hwav. by left.
      * split; [|by apply cleaned_absent].
        rewrite !elem_of_app. right; right. right.
        unfold cleanup_evs. simpl. rewrite Hwav. by left.
  - intros w' r Hwav Hrun.
    split; [unfold wavForWhisper_of; by rewrite Hwav|].
    apply transcribe_inv in Hrun as (st' & evs & res & -> & -> & Hjob).
    rewrite drop_trace. intros ev Hin.
    pose proof (job_run_events_ok _ _ _ _ _ _ _ _ Hjob) as Hev.
    eapply Forall_forall in Hev; [|exact Hin].
    by eapply wav_untouched_event.
Qed.

(** * Reading a trace *)

Lemma omap_none {A} (f : Event -> option A) (P : Event -> Prop) evs :
  (forall ev, P ev -> f ev = None) -> Forall P evs -> omap f evs = [].
Proof.
  intros Hf. induction 1 as [|ev evs Hev _ IH]; [done|].
  simpl. by rewrite (Hf ev Hev).
Qed.

Lemma prelude_app l evs :
  Forall (fun ev => is_exec ev = false) l -> prelude (l ++ evs) = l ++ prelude evs.
Proof.
  induction 1 as [|ev l Hev _ IH]; [done|]. simpl. by rewrite Hev, IH.
Qed.

Lemma segments_app l evs :
  Forall (fun ev => is_exec ev = false) l -> segments (l ++ evs) = segments evs.
Proof.
  induction 1 as [|ev l Hev _ IH]; [done|]. simpl. by rewrite Hev.
Qed.

Lemma scans_checked desired seg : scans_after_check desired true seg = true.
Proof. induction seg as [|[] seg IH]; simpl; done. Qed.

Lemma scans_neutral desired checked l seg :
  Forall neutral l ->
  scans_after_check desired checked (l ++ seg) =
  scans_after_check desired checked seg.
Proof.
  induction 1 as [|ev l Hev _ IH]; [done|]. by destruct ev.
Qed.

Lemma status_no_exec evs :
  Forall is_status evs -> Forall (fun ev => is_exec ev = false) evs.
Proof. intros H. eapply Forall_impl; [exact H|]. by intros []. Qed.

Lemma status_neutral evs : Forall is_status evs -> Forall neutral evs.
Proof. intros H. eapply Forall_impl; [exact H|]. by intros []. Qed.

Section LoopTrace.

Variable tr : Process.
Variable job : Job.
Variable open : bool.

Lemma direct_evs_no_exec st1 : no_exec (direct_evs job st1).
Proof. unfold direct_evs. destruct (Fs.existsSync _ _); repeat constructor. Qed.

Lemma scan_evs_no_exec st1 : no_exec (scan_evs job st1).
Proof.
  unfold scan_evs. constructor; [done|]. apply Forall_app. split.
  - apply Forall_forall. by intros ev (p & -> & _)%list_elem_of_fmap.
  - destruct (Js.truthy_opt _); repeat constructor.
Qed.

Lemma done_evs_no_exec : no_exec (done_evs job open).
Proof.
  unfold done_evs, cleanup_evs. apply Forall_app. split.
  - destruct (job_isWav job); repeat constructor.
  - apply status_no_exec, status_ev_status.
Qed.

Lemma loop_prelude i rest last st st' evs r :
  loop_run tr job open i rest last st st' evs r ->
  Forall is_status (prelude evs).
Proof.
  assert (Hinv : forall i args st0 l,
            prelude (invoke_evs tr job open i args st0 ++ l) =
            status_ev open (attempt_message job i)).
  { intros. unfold invoke_evs. rewrite <- app_assoc.
    rewrite prelude_app by apply status_no_exec, status_ev_status.
    simpl. by rewrite app_nil_r. }
  induction 1; subst; rewrite ?Hinv; try apply status_ev_status.
  constructor.
Qed.

Lemma direct_evs_checks st1 seg :
  scans_after_check (job_desiredTxt job) false (direct_evs job st1 ++ seg)
  = true.
Proof.
  unfold direct_evs. cbn [app scans_after_check].
  rewrite bool_decide_eq_true_2 by done. apply scans_checked.
Qed.

Lemma chunk_evs_neutral run : Forall neutral (chunk_evs open run).
Proof. apply status_neutral, chunk_evs_status. Qed.

Lemma listed_dir_status evs : Forall is_status evs -> omap listed_dir evs = [].
Proof. apply omap_none. by intros []. Qed.

Lemma listed_dir_direct st1 : omap listed_dir (direct_evs job st1) = [].
Proof. unfold direct_evs. by destruct (Fs.existsSync _ _). Qed.

Lemma listed_dir_stats (l : list string) : omap listed_dir (map EvStat l) = [].
Proof. induction l; simpl; done. Qed.

Lemma listed_dir_scan st1 : omap listed_dir (scan_evs job st1) = [job_dir job].
Proof.
  unfold scan_evs. cbn [omap list_omap listed_dir]. f_equal.
  rewrite omap_app, listed_dir_stats.
  by destruct (Js.truthy_opt _).
Qed.

Lemma listed_dir_done : omap listed_dir (done_evs job open) = [].
Proof.
  unfold done_evs, cleanup_evs. rewrite omap_app.
  rewrite (listed_dir_status (status_ev _ _)) by apply status_ev_status.
  by destruct (job_isWav job).
Qed.

(** The segment of an attempt: the chunks, the direct check, then
    whatever follows. *)
Lemma attempt_segment st0 args st1 rest_evs :
  (List.length (omap listed_dir rest_evs) <= 1)%nat ->
  attempt_ok job (chunk_evs open (run_of tr job args st0) ++
              direct_evs job st1 ++ rest_evs).
Proof.
  intros Hlen. split.
  - rewrite scans_neutral by apply chunk_evs_neutral.
    apply direct_evs_checks.
  - rewrite !omap_app, listed_dir_direct.
    rewrite (listed_dir_status (chunk_evs _ _)) by apply chunk_evs_status.
    done.
Qed.

Lemma segments_invoke i args st0 l :
  segments (invoke_evs tr job open i args st0 ++ l) =
  prelude (chunk_evs open (run_of tr job args st0) ++ l) ::
  segments (chunk_evs open (run_of tr job args st0) ++ l).
Proof.
  unfold invoke_evs. rewrite <- app_assoc.
  rewrite segments_app by apply status_no_exec, status_ev_status.
  done.
Qed.

Lemma invoked_invoke i args st0 :
  omap invoked (invoke_evs tr job open i args st0) = [(job_bin job, args)].
Proof.
  unfold invoke_evs. rewrite omap_app. cbn [omap list_omap invoked].
  rewrite !(omap_none invoked is_status);
    [done | by intros [] | apply chunk_evs_status
    | by intros [] | apply status_ev_status].
Qed.

Lemma invoked_no_exec evs : no_exec evs -> omap invoked evs = [].
Proof. apply omap_none. by intros []. Qed.

Lemma prelude_no_exec evs : no_exec evs -> prelude evs = evs.
Proof.
  intros H. rewrite <- (app_nil_r evs) at 1.
  rewrite prelude_app by done. simpl. by rewrite app_nil_r.
Qed.

Lemma segments_no_exec evs : no_exec evs -> segments evs = [].
Proof.
  intros H. rewrite <- (app_nil_r evs). by rewrite segments_app.
Qed.

Lemma block_segments i args st0 st1 tail :
  segments (invoke_evs tr job open i args st0 ++ direct_evs job st1 ++ tail) =
  (chunk_evs open (run_of tr job args st0) ++ direct_evs job st1 ++
   prelude tail) :: segments tail.
Proof.
  rewrite segments_invoke.
  rewrite prelude_app by apply status_no_exec, chunk_evs_status.
  rewrite segments_app by apply status_no_exec, chunk_evs_status.
  rewrite prelude_app by apply direct_evs_no_exec.
  by rewrite segments_app by apply direct_evs_no_exec.
Qed.

Lemma block_invoked i args st0 st1 tail :
  omap invoked (invoke_evs tr job open i args st0 ++ direct_evs job st1 ++
                tail) =
  (job_bin job, args) :: omap invoked tail.
Proof.
  rewrite !omap_app, invoked_invoke.
  by rewrite (invoked_no_exec (direct_evs _ _)) by apply direct_evs_no_exec.
Qed.

Lemma final_block i args rest st0 st1 tail :
  final_tail tail ->
  omap invoked (invoke_evs tr job open i args st0 ++ direct_evs job st1 ++
                tail) =
    map (pair (job_bin job)) (take 1 (args :: rest)) /\
  Forall (attempt_ok job)
    (segments (invoke_evs tr job open i args st0 ++ direct_evs job st1 ++
               tail)).
Proof.
  intros [Hne Hlen]. split.
  - by rewrite block_invoked, invoked_no_exec by done.
  - rewrite block_segments, prelude_no_exec, segments_no_exec by done.
    constructor; [|constructor]. by apply attempt_segment.
Qed.

Lemma final_done : final_tail (done_evs job open).
Proof. split; [apply done_evs_no_exec|]. rewrite listed_dir_done. simpl. lia. Qed.

Lemma final_scan st1 tail :
  no_exec tail -> omap listed_dir tail = [] ->
  final_tail (scan_evs job st1 ++ tail).
Proof.
  intros Hne Hl. split.
  - apply Forall_app. split; [apply scan_evs_no_exec|done].
  - rewrite omap_app, listed_dir_scan, Hl. simpl. lia.
Qed.

Lemma loop_run_trace i rest last st st' evs r :
  loop_run tr job open i rest last st st' evs r ->
  (exists k, omap invoked evs = map (pair (job_bin job)) (take k rest)) /\
  (forall last', r = Ok (inr last') ->
     omap invoked evs = map (pair (job_bin job)) rest) /\
  Forall (attempt_ok job) (segments evs).
Proof.
  induction 1; subst.
  - split; [by exists 0%nat|]. split; [done|constructor].
  - destruct (final_block i args rest st (fs_of tr job args st) _ final_done)
      as [Hi Hs].
    split; [by exists 1%nat|]. split; [done|exact Hs].
  - match goal with |- context [scan_evs job ?s ++ ?t] =>
      assert (Hf : final_tail (scan_evs job s ++ t)) end.
    { apply final_scan.
      - repeat constructor. apply Forall_app. split;
          [destruct (superseded job p); repeat constructor
          |apply done_evs_no_exec].
      - cbn [app omap list_omap listed_dir]. rewrite omap_app, listed_dir_done.
        by destruct (superseded job p). }
    destruct (final_block i args rest st (fs_of tr job args st) _ Hf)
      as [Hi Hs].
    split; [by exists 1%nat|]. split; [done|exact Hs].
  - match goal with |- context [scan_evs job ?s ++ ?t] =>
      assert (Hf : final_tail (scan_evs job s ++ t)) end.
    { apply final_scan; [repeat constructor|done]. }
    destruct (final_block i args rest st (fs_of tr job args st) _ Hf)
      as [Hi Hs].
    split; [by exists 1%nat|]. split; [done|exact Hs].
  - match goal with |- context [scan_evs job ?s ++ ?t] =>
      assert (Hf : final_tail (scan_evs job s ++ t)) end.
    { apply final_scan; [repeat constructor|done]. }
    destruct (final_block i args rest st (fs_of tr job args st) _ Hf)
      as [Hi Hs].
    split; [by exists 1%nat|]. split; [done|exact Hs].
  - destruct IHloop_run as ((k & Hk) & Hall & Hsegs).
    rewrite block_invoked, block_segments, !omap_app.
    rewrite (invoked_no_exec (scan_evs _ _)) by apply scan_evs_no_exec.
    rewrite prelude_app, segments_app by apply scan_evs_no_exec.
    split; [|split].
    + exists (S k). simpl. by rewrite Hk.
    + intros last' Hr. simpl. by rewrite (Hall last' Hr).
    + constructor; [|done]. apply attempt_segment.
      rewrite omap_app, listed_dir_scan.
      rewrite listed_dir_status; [simpl; lia|].
      by eapply loop_prelude.
Qed.

(** The attempt that ends the loop, every attempt judged against the
    same listing [pre]. *)
Lemma conclusive_found pre st1 :
  job_preExisting job = list_to_set pre ->
  conclusive (job_desiredTxt job) (job_dir job) pre st1 =
  direct_ok job st1 || found job st1.
Proof.
  intros Hpre. unfold conclusive, direct_ok, found, pick, candidates.
  cbv zeta.
  assert (E : List.filter (fun p => negb (bool_decide (p ∈ pre)))
                (listed st1 (job_dir job)) =
              List.filter
                (fun p => negb (bool_decide (p ∈ job_preExisting job)))
                (listed st1 (job_dir job))).
  { apply List.filter_ext. intros p. f_equal. apply bool_decide_ext.
    rewrite Hpre. by rewrite elem_of_list_to_set. }
  by rewrite E.
Qed.

Lemma attempts_hit pre st args rest :
  job_preExisting job = list_to_set pre ->
  direct_ok job (fs_of tr job args st) || found job (fs_of tr job args st)
    = true ->
  attempts tr (job_bin job) (job_desiredTxt job) (job_dir job) pre st
    (args :: rest) = 1%nat.
Proof.
  intros Hpre H. cbn [attempts]. cbv zeta.
  fold (fs_of tr job args st). by rewrite conclusive_found, H.
Qed.

Lemma loop_run_attempts pre i rest last st st' evs r :
  job_preExisting job = list_to_set pre ->
  loop_run tr job open i rest last st st' evs r ->
  omap invoked evs =
    map (pair (job_bin job))
      (take (attempts tr (job_bin job) (job_desiredTxt job) (job_dir job)
               pre st rest) rest).
Proof.
  intros Hpre. induction 1; subst.
  - done.
  - rewrite attempts_hit by (done || by rewrite H0).
    rewrite block_invoked.
    by rewrite invoked_no_exec by apply done_evs_no_exec.
  - rewrite attempts_hit by (done || by rewrite H0, H2).
    rewrite block_invoked. rewrite invoked_no_exec; [done|].
    apply Forall_app. split; [apply scan_evs_no_exec|].
    repeat constructor. apply Forall_app. split;
      [destruct (superseded job p); repeat constructor
      |apply done_evs_no_exec].
  - rewrite attempts_hit by (done || by rewrite H0, H2).
    rewrite block_invoked. rewrite invoked_no_exec; [done|].
    apply Forall_app. split; [apply scan_evs_no_exec|repeat constructor].
  - rewrite attempts_hit by (done || by rewrite H0, H2).
    rewrite block_invoked. rewrite invoked_no_exec; [done|].
    apply Forall_app. split; [apply scan_evs_no_exec|repeat constructor].
  - cbn [attempts]. cbv zeta. fold (fs_of tr job args st).
    rewrite conclusive_found by done. rewrite H0, H1. cbn [orb].
    rewrite block_invoked, !omap_app.
    rewrite (invoked_no_exec (scan_evs _ _)) by apply scan_evs_no_exec.
    simpl. by rewrite IHloop_run.
Qed.

End LoopTrace.

Section PrepTrace.

Variable converter : Process.
Variable payload : option Payload.
Variable open : bool.

Lemma status_quiet evs : Forall is_status evs -> Forall quiet evs.
Proof. intros H. eapply Forall_impl; [exact H|]. by intros []. Qed.

Lemma convert_evs_quiet st : Forall quiet (convert_evs converter payload open st).
Proof.
  unfold convert_evs. constructor; [done|]. apply Forall_app. split.
  - apply status_quiet, stderr_chunks_status.
  - destruct (spawn_error _); [constructor|].
    case_bool_decide; [|constructor].
    destruct (Fs.existsSync _ _); repeat constructor.
Qed.

Lemma quiet_invoked evs : Forall quiet evs -> omap invoked evs = [].
Proof. apply omap_none. by intros ev []. Qed.

Lemma quiet_listed evs : Forall quiet evs -> omap listed_dir evs = [].
Proof. apply omap_none. by intros ev []. Qed.

Lemma setup_evs_trace :
  omap invoked (setup_evs payload) = [] /\
  omap listed_dir (setup_evs payload) = [Path.dirname (audio payload)].
Proof.
  unfold setup_evs.
  by destruct (Js.truthy_opt (payload ≫= whisperBin)),
              (Js.truthy_opt (payload ≫= modelPath)).
Qed.

Lemma prep_run_trace st st1 evs job :
  prep_run converter payload open st st1 evs (Ok (inr job)) ->
  omap invoked evs = [] /\ omap listed_dir evs = [job_dir job].
Proof.
  destruct setup_evs_trace as [Hi Hl].
  inversion 1; subst; cbn [omap list_omap invoked listed_dir job_dir job_of].
  - done.
  - rewrite !omap_app, Hi, Hl.
    rewrite !quiet_invoked, !quiet_listed;
      [done | apply convert_evs_quiet | apply status_quiet, status_ev_status
      | apply convert_evs_quiet | apply status_quiet, status_ev_status].
Qed.

End PrepTrace.

(** Claim C5. The invocations of the loop are, in their order, the declared
    variants up to the first conclusive attempt (all of them when the loop
    runs to its end), an attempt being conclusive when, after its invocation,
    the canonical output is there and not empty or the newest listed text
    file that is not in the listing [listed (fs w1) dir] is not empty: every
    attempt is judged against that one listing, the one the preparation ends
    with. After each invocation the existence of the canonical output is
    checked before the directory is listed, and the directory is listed at
    most once. Before the first invocation the directory is listed exactly
    once, in the preparation; that listing is the snapshot of the job; and no
    file the loop copies from is in it. *)
Theorem variants_in_order
    (converter transcriber : Process) (payload : option Payload)
    (w w1 w2 : World) (job : Job)
    (r : Outcome (JobResult + string * string)) :
  prepare converter payload w = (w1, Ok (inr job)) ->
  run_variants transcriber job 0 (job_variants job) ("", "") w1 = (w2, r) ->
  let before := drop (List.length (trace w)) (trace w1) in
  let evs := drop (List.length (trace w1)) (trace w2) in
  omap invoked evs =
    map (pair (job_bin job))
      (take (attempts transcriber (job_bin job) (job_desiredTxt job)
               (job_dir job) (listed (fs w1) (job_dir job)) (fs w1)
               (job_variants job))
         (job_variants job)) /\
  (forall last, r = Ok (inr last) ->
     omap invoked evs = map (pair (job_bin job)) (job_variants job)) /\
  Forall (fun seg =>
            scans_after_check (job_desiredTxt job) false seg = true /\
            (List.length (omap listed_dir seg) <= 1)%nat)
    (segments evs) /\
  omap invoked before = [] /\
  omap listed_dir before = [job_dir job] /\
  omap listed_dir (prelude evs) = [] /\
  job_preExisting job = list_to_set (listed (fs w1) (job_dir job)) /\
  (forall p, EvReadFile p ∈ evs -> p ∉ listed (fs w1) (job_dir job)).
Proof.
  intros Hprep Hloop before evs.
  apply prepare_inv in Hprep as (st1 & evs1 & -> & Hp).
  apply run_variants_inv in Hloop as (st2 & evs2 & -> & Hl).
  rewrite fs_after, window_open_after in Hl.
  subst before evs. rewrite !drop_trace, fs_after.
  destruct (loop_run_trace _ _ _ _ _ _ _ _ _ _ Hl) as (Hk & Hall & Hsegs).
  destruct (prep_run_trace _ _ _ _ _ _ _ Hp) as (Hi & Hd).
  pose proof (loop_prelude _ _ _ _ _ _ _ _ _ _ Hl) as Hpre.
  pose proof (loop_run_events_ok _ _ _ _ _ _ _ _ _ _ Hl) as Hev.
  pose proof (prep_run_job _ _ _ _ _ _ _ Hp) as Hjob. subst job.
  split; [by eapply loop_run_attempts; [|exact Hl]|].
  repeat split; try done.
  - by apply listed_dir_status.
  - intros p Hin Hlisted.
    eapply Forall_forall in Hev; [|exact Hin]. destruct Hev as (s & Hc).
    unfold candidates in Hc.
    apply list_elem_of_In, filter_In in Hc as [_ Hc].
    apply negb_true_iff, bool_decide_eq_false in Hc. apply Hc.
    cbn [job_preExisting job_of job_dir] in *.
    by apply elem_of_list_to_set.
Qed.

Lemma content_nonEmpty st p text :
  Fs.content st p = Some text -> text <> "" ->
  Fs.faulty st Fs.OpStat p = false ->
  Fs.existsSync st p = true /\ nonEmpty st p = true.
Proof.
  intros Hc Hne Hs. split; [by eapply content_exists|].
  apply content_regular in Hc as (f & E & Hn).
  unfold nonEmpty, Fs.statSync, Fs.stats. rewrite Hs, E, Hn. simpl.
  apply Z.gtb_lt. destruct text; [done|].
  unfold Js.length. simpl. lia.
Qed.

Lemma listed_dir_invoke tr job open i args st :
  omap listed_dir (invoke_evs tr job open i args st) = [].
Proof.
  unfold invoke_evs. rewrite omap_app. cbn [omap list_omap listed_dir].
  rewrite !listed_dir_status;
    [done | apply chunk_evs_status | apply status_ev_status].
Qed.

Lemma done_evs_no_read job open p : EvReadFile p ∉ done_evs job open.
Proof.
  unfold done_evs, cleanup_evs. intros [H|H]%elem_of_app.
  - destruct (job_isWav job); [by apply elem_of_nil in H|].
    by apply list_elem_of_singleton in H.
  - pose proof (status_ev_status open "Done.") as Hs.
    eapply Forall_forall in Hs; [|exact H]. done.
Qed.

(** Claim C8, with the check where the code has it. If the preparation gives a
    job and, once the first invocation has returned, the canonical output
    exists with a content that is not empty (and [stat] succeeds on it), then the
    handler returns [ok = true] with the canonical path after that single
    invocation, the first variant: it lists no directory, reads and writes no
    file, deletes at most the temporary waveform, and the content of the
    canonical output is as the invocation left it. *)
Theorem existing_output_accepted
    (converter transcriber : Process) (payload : option Payload)
    (w w1 : World) (job : Job) (text : string) :
  prepare converter payload w = (w1, Ok (inr job)) ->
  let desired := desiredTxt_of (audio payload) in
  let first := hd [] (job_variants job) in
  let st1 := (transcriber (job_bin job) first (fs w1)).1 in
  Fs.content st1 desired = Some text ->
  text <> "" ->
  Fs.faulty st1 Fs.OpStat desired = false ->
  exists w',
    transcribe converter transcriber payload w =
      (w', Ok {| ok := true; outputPath := Some desired;
                 error := None; note := None |}) /\
    let evs := drop (List.length (trace w1)) (trace w') in
    omap invoked evs = [(job_bin job, first)] /\
    omap listed_dir evs = [] /\
    (forall p, EvReadFile p ∉ evs) /\
    (forall p t, EvWriteFile p t ∉ evs) /\
    (forall p, EvUnlink p ∈ evs ->
       isWav_of (audio payload) = false /\ p = tmpWav_of (audio payload)) /\
    Fs.content (fs w') desired = Some text.
Proof.
  intros Hprep desired first st1 Hc Hne Hstat.
  pose proof Hprep as Hprep0.
  apply prepare_inv in Hprep as (stp & evs1 & -> & Hp).
  apply prep_run_job in Hp as Hjob. subst job.
  change (fs (after stp evs1 w)) with stp in *.
  set (job := job_of payload stp) in *.
  destruct (content_nonEmpty _ _ _ Hc Hne Hstat) as [He Hn].
  assert (Hvars : exists rest, job_variants job = first :: rest).
  { subst first job. simpl. eauto. }
  destruct Hvars as [rest Hvars].
  assert (Hloop : loop_run transcriber job (window_open w) 0
            (first :: rest) ("", "") stp (cleaned job st1)
            (invoke_evs transcriber job (window_open w) 0 first stp ++
             direct_evs job st1 ++ done_evs job (window_open w))
            (Ok (inl (job_ok desired None)))).
  { eapply loop_direct; [reflexivity|]. unfold direct_ok.
    change (job_desiredTxt job) with desired. fold st1. by rewrite He, Hn. }
  pose proof (run_variants_complete transcriber job 0 (first :: rest) ("", "")
                (after stp evs1 w) _ _ _ Hloop) as Hrun.
  rewrite transcribe_phases, Hprep0, Hvars, Hrun.
  eexists. split; [reflexivity|]. cbv zeta.
  rewrite drop_trace, fs_after.
  split; [|split; [|split; [|split; [|split]]]].
  - rewrite block_invoked.
    by rewrite invoked_no_exec by apply done_evs_no_exec.
  - rewrite !omap_app, listed_dir_invoke, listed_dir_direct, listed_dir_done.
    done.
  - intros p. rewrite !elem_of_app. intros [H|[H|H]].
    + eapply not_probe_elem in H; [done|apply invoke_evs_probe|simpl; tauto].
    + eapply not_probe_elem in H; [done|apply direct_evs_probe|simpl; tauto].
    + by eapply done_evs_no_read.
  - intros p t. rewrite !elem_of_app. intros [H|[H|H]].
    + eapply not_probe_elem in H; [done|apply invoke_evs_probe|simpl; tauto].
    + eapply not_probe_elem in H; [done|apply direct_evs_probe|simpl; tauto].
    + by eapply done_evs_no_write.
  - intros p. rewrite !elem_of_app. intros [H|[H|H]].
    + eapply not_probe_elem in H; [done|apply invoke_evs_probe|simpl; tauto].
    + eapply not_probe_elem in H; [done|apply direct_evs_probe|simpl; tauto].
    + unfold done_evs in H. apply elem_of_app in H as [H|H];
        [|exfalso; by eapply status_ev_no_unlink].
      apply cleanup_evs_unlink in H as [Hw ->]. split; [done|].
      subst job. simpl in *. unfold wavForWhisper_of. by rewrite Hw.
  - rewrite cleaned_content; [done|]. apply job_of_tmp_ne_desired.
Qed.

(** ** The naming contract on strings *)

Lemma chars_empty s : Js.chars s = [] -> s = "".
Proof. intros H. by rewrite <- (str_chars s), H. Qed.

Lemma name_ok_spec s :
  name_ok s = true -> Js.chars s <> [] /\ sep_free (Js.chars s).
Proof.
  unfold name_ok. intros [Hne Hsf]%andb_true_iff.
  apply negb_true_iff, bool_decide_eq_false in Hne. split.
  - intros E. by apply Hne, chars_empty.
  - apply Forall_forall. intros c Hc. rewrite forallb_forall in Hsf.
    apply list_elem_of_In in Hc. apply Hsf in Hc.
    by apply PathFacts.not_sep_true.
Qed.

Lemma segment_ok_spec s : segment_ok s = true -> plain (Js.chars s).
Proof.
  unfold segment_ok. intros [[Hn Hd]%andb_true_iff Hdd]%andb_true_iff.
  apply name_ok_spec in Hn as [Hne Hsf].
  apply negb_true_iff, bool_decide_eq_false in Hd, Hdd.
  repeat split; [done | done | |].
  - intros E. apply Hd. by rewrite <- (str_chars s), E.
  - intros E. apply Hdd. by rewrite <- (str_chars s), E.
Qed.

Lemma ext_ok_spec s :
  ext_ok s = true ->
  Js.chars s <> [] /\ sep_free (Js.chars s) /\
  Forall (fun c => Path.not_dot c = true) (Js.chars s).
Proof.
  unfold ext_ok. intros [Hn Hd]%andb_true_iff.
  apply name_ok_spec in Hn as [Hne Hsf]. repeat split; [done | done |].
  apply Forall_forall. intros c Hc. rewrite forallb_forall in Hd.
  apply list_elem_of_In in Hc. by apply Hd.
Qed.

Lemma segments_plain segs :
  forallb segment_ok segs = true -> Forall plain (map Js.chars segs).
Proof.
  intros H. apply Forall_forall. intros l Hl.
  apply list_elem_of_fmap in Hl as (s & -> & Hs).
  apply segment_ok_spec. rewrite forallb_forall in H.
  by apply H, list_elem_of_In.
Qed.

Lemma dir_ok_plain absolute segs :
  dir_ok absolute segs = true -> Forall plain (map Js.chars segs).
Proof. unfold dir_ok. intros [Hs _]%andb_true_iff. by apply segments_plain. Qed.

Lemma dir_ok_rooted absolute segs :
  dir_ok absolute segs = true -> absolute = false -> map Js.chars segs <> [].
Proof.
  unfold dir_ok. intros [_ Hr]%andb_true_iff ->. by destruct segs.
Qed.

Lemma chars_audio_path absolute segs base ext :
  Js.chars (audio_path absolute segs base ext) =
  full_path absolute (map Js.chars segs) (Js.chars base) (Js.chars ext).
Proof.
  unfold audio_path, directory, full_path, file_name.
  by rewrite !chars_app, chars_str.
Qed.

Ltac named :=
  first [ by eapply dir_ok_plain | by eapply dir_ok_rooted
        | by apply name_ok_spec | by apply ext_ok_spec ].

Section Named.
Variable absolute : bool.
Variables (segs : list string) (base ext : string).
Hypothesis Hdir : dir_ok absolute segs = true.
Hypothesis Hbase : name_ok base = true.
Hypothesis Hext : ext_ok ext = true.

Lemma prefix_named :
  prefix_of (audio_path absolute segs base ext) =
  Js.chars (directory absolute segs) ++ ["/"%char].
Proof.
  unfold prefix_of, directory. rewrite chars_audio_path, chars_str.
  apply NamingFacts.prefix_full; named.
Qed.

Lemma stem_named :
  stem_of (audio_path absolute segs base ext) = Js.chars base.
Proof.
  unfold stem_of. rewrite chars_audio_path.
  apply NamingFacts.stem_full; named.
Qed.

Lemma extname_named :
  Path.extname (audio_path absolute segs base ext) = "." +:+ ext.
Proof.
  unfold Path.extname. rewrite chars_audio_path.
  rewrite NamingFacts.extname_full by named.
  change ("."%char :: Js.chars ext) with (Js.chars "." ++ Js.chars ext).
  by rewrite <- chars_app, str_chars.
Qed.

Lemma named_shape (suf : string) :
  Js.str (prefix_of (audio_path absolute segs base ext) ++
          stem_of (audio_path absolute segs base ext) ++ Js.chars suf) =
  directory absolute segs +:+ "/" +:+ base +:+ suf.
Proof.
  rewrite prefix_named, stem_named.
  change ["/"%char] with (Js.chars "/").
  by rewrite <- !chars_app, str_chars, !append_assoc.
Qed.
End Named.

(** Claim C3, with the suffix the code uses. For an input path [dir/base.ext],
    where [dir] is a directory in normal form, absolute or relative, [base] a
    name and [ext] an extension without a dot: the canonical output path is
    [dir/base.txt]; the input counts as wav when [ext] is [wav] in any case;
    the waveform given to the transcriber is the input itself when it counts
    as wav and [dir/base__whisper_tmp.wav] otherwise; the log path is
    [dir/base.log.txt]. All are functions of the input path. *)
Theorem derived_paths (absolute : bool) (segs : list string)
    (base ext : string) :
  dir_ok absolute segs = true ->
  name_ok base = true ->
  ext_ok ext = true ->
  let dir := directory absolute segs in
  let audioPath := dir +:+ "/" +:+ base +:+ "." +:+ ext in
  desiredTxt_of audioPath = dir +:+ "/" +:+ base +:+ ".txt" /\
  isWav_of audioPath = bool_decide (Js.toLowerCase ext = "wav") /\
  wavForWhisper_of audioPath =
    (if isWav_of audioPath then audioPath
     else dir +:+ "/" +:+ base +:+ "__whisper_tmp.wav") /\
  diagnostic_of (desiredTxt_of audioPath) =
    dir +:+ "/" +:+ base +:+ ".log.txt".
Proof.
  intros Hdir Hbase Hext dir audioPath.
  change audioPath with (audio_path absolute segs base ext). subst dir.
  repeat split.
  - rewrite desiredTxt_shape. by apply named_shape.
  - unfold isWav_of. rewrite extname_named by done.
    unfold Js.toLowerCase. rewrite chars_app.
    change (map Js.lower_char (Js.chars "." ++ Js.chars ext))
      with ("."%char :: map Js.lower_char (Js.chars ext)).
    apply bool_decide_ext. split; [by intros [= ->]|].
    intros H. unfold Js.str in *. simpl. by rewrite H.
  - unfold wavForWhisper_of. destruct (isWav_of _); [done|].
    rewrite tmpWav_shape. by apply named_shape.
  - rewrite diagnostic_shape. by apply named_shape.
Qed.

Section ExitStatus.

Variable converter : Process.
Variables tr1 tr2 : Process.
Hypothesis agree : same_effects tr1 tr2.

Lemma fs_of_agree job args st : fs_of tr1 job args st = fs_of tr2 job args st.
Proof. unfold fs_of. apply agree. Qed.

Lemma captures_agree job args st :
  captures (run_of tr1 job args st) = captures (run_of tr2 job args st).
Proof.
  unfold captures, captured, run_of.
  by rewrite (proj2 (agree (job_bin job) args st)).
Qed.

Lemma invoke_evs_agree job open i args st :
  invoke_evs tr1 job open i args st = invoke_evs tr2 job open i args st.
Proof.
  unfold invoke_evs, chunk_evs, run_of.
  by rewrite (proj2 (agree (job_bin job) args st)).
Qed.

Lemma loop_run_agree job open i rest last st st' evs r :
  loop_run tr1 job open i rest last st st' evs r ->
  loop_run tr2 job open i rest last st st' evs r.
Proof.
  induction 1; subst;
    rewrite ?invoke_evs_agree, ?fs_of_agree, ?captures_agree in *.
  - constructor.
  - by eapply loop_direct.
  - by eapply loop_heuristic.
  - by eapply loop_read_throws.
  - by eapply loop_write_throws.
  - by eapply loop_next.
Qed.

Lemma job_run_agree payload open st st' evs result :
  job_run converter tr1 payload open st st' evs result ->
  job_run converter tr2 payload open st st' evs result.
Proof.
  intros (r & H & ->). exists r. split; [|done].
  inversion H; subst.
  - by eapply body_early.
  - by eapply body_prepare_throws.
  - eapply body_matched; [done|]. by apply loop_run_agree.
  - eapply body_copy_throws; [done|]. by apply loop_run_agree.
  - eapply body_exhausted; [done| |done]. by apply loop_run_agree.
Qed.

End ExitStatus.

(** Claim C7. A call of the transcriber always completes with the captured
    stdout and stderr, whatever the way the child ended; and two
    transcribers that have the same effect on the files and print the same
    output, but end with any exit status, signal or spawn error, make the
    handler return the same result through the same events: the exit status
    neither fails an attempt nor cuts the loop short, only the files
    decide. *)
Theorem exit_status_never_decides
    (converter tr1 tr2 : Process) (payload : option Payload) (w : World) :
  same_effects tr1 tr2 ->
  (forall bin args w0,
     (execFileSafe tr1 bin args w0).2 =
       Ok (captured Stdout (tr1 bin args (fs w0)).2,
           captured Stderr (tr1 bin args (fs w0)).2)) /\
  transcribe converter tr1 payload w = transcribe converter tr2 payload w.
Proof.
  intros Hsame. split.
  { intros bin args w0. by rewrite execFileSafe_run. }
  destruct (transcribe_job_run converter tr1 payload w)
    as (st1 & evs1 & res1 & Hrun1 & Hjob1).
  destruct (transcribe_job_run converter tr2 payload w)
    as (st2 & evs2 & res2 & Hrun2 & Hjob2).
  apply (job_run_agree converter tr1 tr2 Hsame) in Hjob1.
  destruct (job_run_det _ _ _ _ _ _ _ _ _ _ _ Hjob1 Hjob2) as (-> & -> & ->).
  by rewrite Hrun1, Hrun2.
Qed.

Lemma newest_from_filter st paths best bestT :
  newest_from st paths best bestT =
  newest_from st (List.filter (stat_ok st) paths) best bestT.
Proof.
  revert best bestT. induction paths as [|p paths IH]; intros; [done|].
  simpl. unfold stat_ok at 1.
  destruct (Fs.statSync st p) as [s|e] eqn:E; simpl; [|apply IH].
  rewrite E. destruct (Fs.mtimeMs s >? bestT); apply IH.
Qed.

(** Claim C10. The probes never throw: [listTxt] returns no candidate when
    listing the directory fails; [fileNonEmpty] is false when [stat] fails;
    [newestByMtime] chooses among the paths on which [stat] succeeds; [safeUnlink]
    returns normally and leaves the files as they are when the deletion
    fails; so [cleanupTemp] and the heuristic scan (listing, dropping the
    pre-existing names, choosing the newest, testing that it is not empty)
    always return a value. *)
Theorem probes_never_throw (dir p wavPath : string) (paths : list string)
    (wasWavInput : bool) (preExisting : gset string) (w : World) :
  listTxt dir w =
    (after (fs w) [EvReaddir dir] w,
     Ok match Fs.readdirSync (fs w) dir with
        | Ok names => map (Path.join dir) (List.filter is_txt names)
        | Throw _ => []
        end) /\
  fileNonEmpty p w =
    (after (fs w) [EvStat p] w,
     Ok match Fs.statSync (fs w) p with
        | Ok s => Fs.size s >? 0
        | Throw _ => false
        end) /\
  newestByMtime paths w =
    (after (fs w) (map EvStat paths) w,
     Ok (newest (fs w) (List.filter (stat_ok (fs w)) paths))) /\
  safeUnlink p w =
    (after match Fs.unlinkSync (fs w) p with
           | (st, Ok _) => st
           | (_, Throw _) => fs w
           end [EvUnlink p] w, Ok tt) /\
  (cleanupTemp wavPath wasWavInput w).2 = Ok tt /\
  (bind (listTxt dir) (fun listed =>
     let after :=
       List.filter (fun p => negb (bool_decide (p ∈ preExisting))) listed in
     bind (newestByMtime after) (fun best =>
       if Js.truthy_opt best then fileNonEmpty (default "" best)
       else ret false)) w).2 =
    Ok (let after :=
          List.filter (fun p => negb (bool_decide (p ∈ preExisting)))
            (listed (fs w) dir) in
        let best := newest (fs w) after in
        Js.truthy_opt best && nonEmpty (fs w) (default "" best)).
Proof.
  split; [apply listTxt_run|]. split; [apply fileNonEmpty_run|].
  split.
  { rewrite newestByMtime_run. unfold newest.
    by rewrite <- newest_from_filter. }
  split.
  { rewrite safeUnlink_run. unfold unlinked, Fs.unlinkSync.
    destruct (Fs.faulty (fs w) Fs.OpUnlink p); [done|].
    by destruct (Fs.files (fs w) !! p). }
  split.
  { unfold cleanupTemp. destruct wasWavInput; simpl; [done|].
    by rewrite safeUnlink_run. }
  unfold bind at 1. rewrite listTxt_run.
  unfold bind at 1. rewrite newestByMtime_run. rewrite fs_after.
  cbv zeta. destruct (Js.truthy_opt _); simpl; [|done].
  by rewrite fileNonEmpty_run.
Qed.

(** * Validation and conversion *)

(** X1.  A request without an audio path, or whose audio path does not exist
    on the disk, is answered with the failure "Audio path is empty or not
    found."; the only thing the handler did is the existence probe, and only
    when a path was given: no process is started and the disk is as it
    was. *)
Theorem missing_audio_rejected
    (converter transcriber : Process) (payload : option Payload) (w : World) :
  audio_given payload = false \/
  Fs.existsSync (fs w) (audio payload) = false ->
  transcribe converter transcriber payload w =
    (after (fs w)
       (if audio_given payload then [EvExists (audio payload)] else []) w,
     Ok {| ok := false; outputPath := None;
           error := Some "Audio path is empty or not found.";
           note := None |}).
Proof.
  intros H. rewrite transcribe_phases.
  destruct (audio_given payload) eqn:Hg.
  - destruct H as [H|H]; [done|].
    by rewrite (prepare_complete converter payload w (fs w)
                  [EvExists (audio payload)] _
                  (prep_not_found converter payload _ _ Hg H)).
  - by rewrite (prepare_complete converter payload w (fs w) [] _
                  (prep_not_given converter payload _ _ Hg)).
Qed.





Lemma tmp_of_non_wav a : isWav_of a = false -> wavForWhisper_of a = tmpWav_of a.
Proof. unfold wavForWhisper_of. by intros ->. Qed.

Section PrepFacts.

Variable converter : Process.
Variable payload : option Payload.
Variable open : bool.





End PrepFacts.




(** X5.  When the audio has to be converted and the conversion does not
    succeed, the job ends with the failure carrying the message of
    [convertToWav]; the transcriber is never invoked, no directory is listed,
    and the handler writes and deletes no file: the disk is the one ffmpeg
    left. *)
Theorem conversion_failure_ends_job
    (converter transcriber : Process) (payload : option Payload) (w : World) :
  let tmp := tmpWav_of (audio payload) in
  let r := converter "ffmpeg"
             ["-y"; "-i"; audio payload; "-ar"; "16000"; "-ac"; "1";
              "-f"; "wav"; tmp] (fs w) in
  converts payload (fs w) = true ->
  ~ (spawn_error r.2 = None /\ exit_code r.2 = Some 0 /\
     Fs.existsSync r.1 tmp = true /\ nonEmpty r.1 tmp = true) ->
  exists w',
    transcribe converter transcriber payload w =
      (w', Ok {| ok := false; outputPath := None;
                 error :=
                   Some match spawn_error r.2 with
                        | Some message => ffmpeg_not_found message
                        | None => ffmpeg_failed (exit_code r.2)
                                    (captured Stderr r.2)
                        end;
                 note := None |}) /\
    fs w' = r.1 /\
    let evs := drop (List.length (trace w)) (trace w') in
    omap invoked evs = [] /\ omap listed_dir evs = [] /\
    (forall p t, EvWriteFile p t ∉ evs) /\ (forall p, EvUnlink p ∉ evs).
Proof.
  intros tmp r Hc Hfail. unfold converts in Hc.
  apply andb_true_iff in Hc as [[Hg He]%andb_true_iff Hw%negb_true_iff].
  set (e := match spawn_error r.2 with
            | Some message => ffmpeg_not_found message
            | None => ffmpeg_failed (exit_code r.2) (captured Stderr r.2)
            end).
  assert (Hr : conversion converter payload (fs w) = r).
  { unfold conversion. rewrite tmp_of_non_wav by done. subst r tmp.
    vm_compute ffmpeg_cmd. reflexivity. }
  assert (Hres : convert_result converter payload (fs w) = Throw e).
  { unfold convert_result. cbv zeta. rewrite Hr, tmp_of_non_wav by done.
    subst e. destruct (spawn_error r.2); [done|].
    destruct (bool_decide _) eqn:Hx; [|done].
    apply bool_decide_eq_true in Hx.
    destruct (Fs.existsSync r.1 _) eqn:Hy; [|done].
    destruct (nonEmpty r.1 _) eqn:Hz; [|done].
    by destruct Hfail. }
  pose proof (prep_convert_throws converter payload (window_open w) (fs w)
                _ e Hg He Hw eq_refl Hres) as Hp.
  rewrite transcribe_phases, (prepare_complete _ _ _ _ _ _ Hp).
  eexists. split.
  { unfold caught. f_equal. f_equal. f_equal. f_equal.
    unfold Js.or_else. subst e.
    by destruct (spawn_error r.2). }
  rewrite fs_after, Hr. split; [done|]. cbv zeta. rewrite drop_trace.
  assert (Hq : Forall quiet
                 (EvExists (audio payload) ::
                  status_ev (window_open w) converting ++
                  convert_evs converter payload (window_open w) (fs w))).
  { constructor; [done|]. apply Forall_app. split;
      [apply status_quiet, status_ev_status|apply convert_evs_quiet]. }
  split; [by apply quiet_invoked|]. split; [by apply quiet_listed|].
  split.
  - intros p t. by eapply prep_no_write.
  - intros p. by eapply prep_no_unlink.
Qed.

(** * The newest of a list of paths *)

Lemma newest_from_spec st paths :
  forall best bestT,
    (newest_from st paths best bestT = best /\
     forall q u, q ∈ paths -> mtime_of st q = Some u -> u <= bestT) \/
    (exists p t pre post,
       newest_from st paths best bestT = Some p /\
       paths = pre ++ p :: post /\
       mtime_of st p = Some t /\ bestT < t /\
       (forall q u, q ∈ pre -> mtime_of st q = Some u -> u < t) /\
       (forall q u, q ∈ post -> mtime_of st q = Some u -> u <= t)).
Proof.
  induction paths as [|q rest IH]; intros best bestT.
  { left. split; [done|]. intros q u Hq. by apply elem_of_nil in Hq. }
  cbn [newest_from].
  destruct (Fs.statSync st q) as [s|e] eqn:Hq.
  - destruct (Fs.mtimeMs s >? bestT) eqn:Hgt.
    + apply Z.gtb_lt in Hgt.
      destruct (IH (Some q) (Fs.mtimeMs s))
        as [[Hres Hall]|(p & t & pre & post & Hres & -> & Hp & Hlt & Hpre & Hpost)].
      * right. exists q, (Fs.mtimeMs s), [], rest.
        split; [done|]. split; [done|].
        split; [by unfold mtime_of; rewrite Hq|]. split; [done|].
        split; [|done]. intros q' u Hin. by apply elem_of_nil in Hin.
      * right. exists p, t, (q :: pre), post.
        split; [done|]. split; [done|]. split; [done|]. split; [lia|].
        split; [|done]. intros q' u [->|Hin]%elem_of_cons Hu.
        -- unfold mtime_of in Hu. rewrite Hq in Hu. injection Hu as <-. lia.
        -- by eapply Hpre.
    + rewrite Z.gtb_ltb in Hgt. apply Z.ltb_ge in Hgt.
      destruct (IH best bestT)
        as [[Hres Hall]|(p & t & pre & post & Hres & -> & Hp & Hlt & Hpre & Hpost)].
      * left. split; [done|]. intros q' u [->|Hin]%elem_of_cons Hu.
        -- unfold mtime_of in Hu. rewrite Hq in Hu. injection Hu as <-. lia.
        -- by eapply Hall.
      * right. exists p, t, (q :: pre), post.
        split; [done|]. split; [done|]. split; [done|]. split; [done|].
        split; [|done]. intros q' u [->|Hin]%elem_of_cons Hu.
        -- unfold mtime_of in Hu. rewrite Hq in Hu. injection Hu as <-. lia.
        -- by eapply Hpre.
  - destruct (IH best bestT)
      as [[Hres Hall]|(p & t & pre & post & Hres & -> & Hp & Hlt & Hpre & Hpost)].
    + left. split; [done|]. intros q' u [->|Hin]%elem_of_cons Hu.
      * unfold mtime_of in Hu. by rewrite Hq in Hu.
      * by eapply Hall.
    + right. exists p, t, (q :: pre), post.
      split; [done|]. split; [done|]. split; [done|]. split; [done|].
      split; [|done]. intros q' u [->|Hin]%elem_of_cons Hu.
      * unfold mtime_of in Hu. by rewrite Hq in Hu.
      * by eapply Hpre.
Qed.

(** X6.  [newestByMtime] never throws and leaves the disk alone.  The path it
    returns is the first one of the list with the largest modification time
    among those that can be examined, that time being larger than -1; it
    returns null exactly when no path of the list can be examined with a
    modification time above -1. *)
Theorem newestByMtime_selects (paths : list string) (w : World) :
  exists best,
    (newestByMtime paths w).2 = Ok best /\
    fs (newestByMtime paths w).1 = fs w /\
    match best with
    | Some p =>
        exists t pre post,
          paths = pre ++ p :: post /\
          mtime_of (fs w) p = Some t /\ -1 < t /\
          (forall q u, q ∈ pre -> mtime_of (fs w) q = Some u -> u < t) /\
          (forall q u, q ∈ post -> mtime_of (fs w) q = Some u -> u <= t)
    | None =>
        forall q u, q ∈ paths -> mtime_of (fs w) q = Some u -> u <= -1
    end.
Proof.
  rewrite newestByMtime_run. cbn [fst snd]. rewrite fs_after.
  eexists. split; [reflexivity|]. split; [done|]. unfold newest.
  destruct (newest_from_spec (fs w) paths None (-1))
    as [[-> Hall]|(p & t & pre & post & -> & Hp)]; [done|].
  by exists t, pre, post.
Qed.

(** * Lines *)

Lemma join_split sep l : Js.join_with [sep] (Js.split_on sep l) = l.
Proof.
  induction l as [|c l IH]; [done|]. cbn [Js.split_on].
  pose proof (PathFacts.split_on_nonempty sep l) as Hne.
  case_bool_decide as Hc.
  - subst c. destruct (Js.split_on sep l) as [|y ys]; [done|].
    change (Js.join_with [sep] ([] :: y :: ys))
      with ([] ++ [sep] ++ Js.join_with [sep] (y :: ys)).
    by rewrite IH.
  - destruct (Js.split_on sep l) as [|s ss]; [done|].
    destruct ss as [|s' ss]; simpl in *; by rewrite <- IH.
Qed.

Lemma split_on_free sep seg :
  Forall (fun c => c <> sep) seg -> Js.split_on sep seg = [seg].
Proof.
  induction 1 as [|c seg Hc _ IH]; simpl; [done|].
  rewrite bool_decide_eq_false_2 by done. by rewrite IH.
Qed.

Lemma split_on_parts_free sep l :
  Forall (Forall (fun c => c <> sep)) (Js.split_on sep l).
Proof.
  induction l as [|c l IH]; [by repeat constructor|]. cbn [Js.split_on].
  case_bool_decide as Hc; [by constructor|].
  destruct (Js.split_on sep l) as [|s ss]; [by repeat constructor|].
  inversion IH; subst. constructor; [by constructor|done].
Qed.

Lemma split_join sep parts :
  parts <> [] -> Forall (Forall (fun c => c <> sep)) parts ->
  Js.split_on sep (Js.join_with [sep] parts) = parts.
Proof.
  induction parts as [|x parts IH]; [done|]. intros _ Hall.
  inversion Hall as [|? ? Hx Hrest]; subst.
  destruct parts as [|y parts]; [by apply split_on_free|].
  change (Js.join_with [sep] (x :: y :: parts))
    with (x ++ sep :: Js.join_with [sep] (y :: parts)).
  rewrite PathFacts.split_on_app, split_on_free, IH by done. done.
Qed.

Lemma join_drop sep parts k :
  (k < List.length parts)%nat ->
  exists pre, Js.join_with sep parts = pre ++ Js.join_with sep (drop k parts).
Proof.
  revert k. induction parts as [|x parts IH]; intros k Hk; [simpl in Hk; lia|].
  destruct k as [|k]; [by exists []|].
  simpl in Hk. destruct (IH k ltac:(lia)) as [pre Hpre].
  destruct parts as [|y parts]; [simpl in Hk; lia|].
  exists (x ++ sep ++ pre).
  change (Js.join_with sep (x :: y :: parts))
    with (x ++ sep ++ Js.join_with sep (y :: parts)).
  rewrite Hpre. cbn [drop]. by rewrite <- !app_assoc.
Qed.

(** X7.  The part of the standard error quoted in the "ffmpeg failed" message
    is a suffix of what ffmpeg printed: its lines are the last ten lines of
    the capture, and it is the whole capture when that has at most ten
    lines. *)
Theorem last_lines_tail (errBuf : string) :
  let lines := Js.split_on (Js.b 10) (Js.chars errBuf) in
  (exists pre, errBuf = pre +:+ last_lines errBuf) /\
  Js.split_on (Js.b 10) (Js.chars (last_lines errBuf)) =
    drop (List.length lines - 10) lines /\
  ((List.length lines <= 10)%nat -> last_lines errBuf = errBuf).
Proof.
  intros lines. unfold last_lines, Js.slice_last. fold lines.
  pose proof (PathFacts.split_on_nonempty (Js.b 10) (Js.chars errBuf)) as Hne.
  fold lines in Hne.
  assert (Hlen : (0 < List.length lines)%nat) by (destruct lines; simpl; [done|lia]).
  split; [|split].
  - destruct (join_drop [Js.b 10] lines (List.length lines - 10))
      as [pre Hpre]; [lia|].
    exists (Js.str pre). rewrite <- str_app, <- Hpre.
    unfold lines. by rewrite join_split, str_chars.
  - rewrite chars_str. apply split_join.
    + intros E. apply (f_equal List.length) in E.
      rewrite length_drop in E. simpl in E. lia.
    + apply Forall_drop, split_on_parts_free.
  - intros H. replace (List.length lines - 10)%nat with 0%nat by lia.
    rewrite drop_0. unfold lines. by rewrite join_split, str_chars.
Qed.

(** * The captures that reach the fallback *)

Lemma loop_run_replay tr job open i rest last st st' evs last' :
  loop_run tr job open i rest last st st' evs (Ok (inr last')) ->
  (st', last') = replay tr (job_bin job) rest st last.
Proof.
  remember (Ok (inr last')) as r eqn:Hr.
  induction 1; try discriminate Hr; subst.
  - by injection Hr as <-.
  - cbn [replay]. cbv zeta. by apply IHloop_run.
Qed.

Lemma replay_snoc tr bin init final st last :
  replay tr bin (init ++ [final]) st last =
  let r := tr bin final (replay tr bin init st last).1 in
  (r.1, (captured Stdout r.2, captured Stderr r.2)).
Proof.
  revert st last. induction init as [|args init IH]; intros st last; [done|].
  cbn [app replay]. cbv zeta. by rewrite IH.
Qed.

(** X8.  When every variant was tried without a conclusive output, the text
    that reaches the stdout fallback and the diagnostic log is what the last
    invocation alone printed: the captures of the earlier attempts are
    dropped, and the disk is the one left by running the transcriber on each
    variant in turn. *)
Theorem fallback_uses_last_attempt
    (transcriber : Process) (job : Job) (w w2 : World)
    (out err : string) :
  run_variants transcriber job 0 (job_variants job) ("", "") w =
    (w2, Ok (inr (out, err))) ->
  (fs w2, (out, err)) =
    replay transcriber (job_bin job) (job_variants job) (fs w) ("", "") /\
  forall init final,
    job_variants job = init ++ [final] ->
    let before := (replay transcriber (job_bin job) init (fs w) ("", "")).1 in
    let r := transcriber (job_bin job) final before in
    fs w2 = r.1 /\ out = captured Stdout r.2 /\ err = captured Stderr r.2.
Proof.
  intros H. apply run_variants_inv in H as (st2 & evs2 & -> & Hl).
  rewrite fs_after. apply loop_run_replay in Hl. split; [done|].
  intros init final Hv. rewrite Hv, replay_snoc in Hl. cbv zeta in *.
  by injection Hl as -> -> ->.
Qed.

(** * The result and the writes of a job *)

Lemma caught_message e : Js.or_else e "Error" <> "".
Proof.
  unfold Js.or_else, Js.truthy. case_bool_decide; simpl; [done|done].
Qed.

Lemma loop_result tr job open i rest last st st' evs result :
  loop_run tr job open i rest last st st' evs (Ok (inl result)) ->
  result = job_ok (job_desiredTxt job) None.
Proof.
  remember (Ok (inl result)) as r eqn:Hr.
  induction 1; try discriminate Hr; subst;
    try (by injection Hr as <-). by apply IHloop_run.
Qed.

(** X9.  Every result of the handler has one of two shapes.  A success carries
    the canonical output path, no error, and either no note or the note
    "Saved from stdout fallback.".  A failure carries no output path, no
    note, and a non-empty error message. *)
Theorem result_shape
    (converter transcriber : Process) (payload : option Payload)
    (w w' : World) (result : JobResult) :
  transcribe converter transcriber payload w = (w', Ok result) ->
  (ok result = true ->
     outputPath result = Some (desiredTxt_of (audio payload)) /\
     error result = None /\
     (note result = None \/
      note result = Some "Saved from stdout fallback.")) /\
  (ok result = false ->
     outputPath result = None /\ note result = None /\
     exists message, error result = Some message /\ message <> "").
Proof.
  intros H. apply transcribe_inv in H
    as (st' & evs & result' & -> & [= <-] & r & Hbody & ->).
  assert (Hfail : forall m, m <> "" ->
    (ok (job_failed m) = true ->
       outputPath (job_failed m) = Some (desiredTxt_of (audio payload)) /\
       error (job_failed m) = None /\
       (note (job_failed m) = None \/
        note (job_failed m) = Some "Saved from stdout fallback.")) /\
    (ok (job_failed m) = false ->
       outputPath (job_failed m) = None /\ note (job_failed m) = None /\
       exists message, error (job_failed m) = Some message /\ message <> "")).
  { intros m Hm. split; [done|]. intros _. split; [done|]. split; [done|].
    by exists m. }
  assert (Hok : forall n,
    n = None \/ n = Some "Saved from stdout fallback." ->
    let res := job_ok (desiredTxt_of (audio payload)) n in
    (ok res = true ->
       outputPath res = Some (desiredTxt_of (audio payload)) /\
       error res = None /\
       (note res = None \/ note res = Some "Saved from stdout fallback.")) /\
    (ok res = false ->
       outputPath res = None /\ note res = None /\
       exists message, error res = Some message /\ message <> "")).
  { intros n Hn res. split; [|done]. intros _. by repeat split. }
  inversion Hbody; subst; cbn [settle].
  - match goal with H : prep_run _ _ _ _ _ _ _ |- _ => inversion H; subst end;
      by apply Hfail.
  - apply Hfail, caught_message.
  - match goal with H : prep_run _ _ _ _ _ _ _ |- _ =>
      apply prep_run_job in H as -> end.
    match goal with H : loop_run _ _ _ _ _ _ _ _ _ _ |- _ =>
      apply loop_result in H as -> end.
    apply (Hok None). by left.
  - apply Hfail, caught_message.
  - match goal with H : prep_run _ _ _ _ _ _ _ |- _ =>
      apply prep_run_job in H as -> end.
    match goal with H : conclude_run _ _ _ _ _ _ _ |- _ =>
      inversion H; subst end; cbn [settle].
    + apply (Hok (Some "Saved from stdout fallback.")). by right.
    + apply Hfail, caught_message.
    + by apply Hfail.
    + apply Hfail, caught_message.
Qed.

Lemma written_probe evs : Forall probe_event evs -> omap written evs = [].
Proof. apply omap_none. by intros []. Qed.

Lemma deleted_probe evs : Forall probe_event evs -> omap deleted evs = [].
Proof. apply omap_none. by intros []. Qed.

Lemma status_probe_all evs : Forall is_status evs -> Forall probe_event evs.
Proof. intros H. eapply Forall_impl; [exact H|]. by intros []. Qed.

Lemma written_done job open : omap written (done_evs job open) = [].
Proof.
  unfold done_evs, cleanup_evs. rewrite omap_app.
  rewrite (written_probe (status_ev _ _))
    by apply status_probe_all, status_ev_status.
  by destruct (job_isWav job).
Qed.

Lemma deleted_cleanup job :
  (List.length (omap deleted (cleanup_evs job)) <= 1)%nat.
Proof. unfold cleanup_evs. destruct (job_isWav job); simpl; lia. Qed.

Lemma deleted_done job open :
  (List.length (omap deleted (done_evs job open)) <= 1)%nat.
Proof.
  unfold done_evs. rewrite omap_app, length_app.
  rewrite (deleted_probe (status_ev _ _))
    by apply status_probe_all, status_ev_status.
  pose proof (deleted_cleanup job). simpl. lia.
Qed.

Lemma loop_run_effects tr job open i rest last st st' evs r :
  loop_run tr job open i rest last st st' evs r ->
  (List.length (omap written evs) <= 1)%nat /\
  (List.length (omap deleted evs) <= 2)%nat /\
  (forall last', r = Ok (inr last') ->
     omap written evs = [] /\ omap deleted evs = []).
Proof.
  induction 1; subst;
    rewrite ?omap_app;
    rewrite ?(written_probe (invoke_evs _ _ _ _ _ _)),
            ?(deleted_probe (invoke_evs _ _ _ _ _ _))
      by apply invoke_evs_probe;
    rewrite ?(written_probe (direct_evs _ _)), ?(deleted_probe (direct_evs _ _))
      by apply direct_evs_probe;
    rewrite ?(written_probe (scan_evs _ _)), ?(deleted_probe (scan_evs _ _))
      by apply scan_evs_probe;
    rewrite ?written_done; cbn [app omap list_omap written deleted].
  - split; [simpl; lia|]. split; [simpl; lia|]. done.
  - pose proof (deleted_done job open). split; [simpl; lia|].
    split; [lia|done].
  - pose proof (deleted_done job open).
    destruct (superseded job p); cbn [app omap list_omap written deleted];
      rewrite ?written_done; simpl; split; try lia; split; try lia; done.
  - split; [simpl; lia|]. split; [simpl; lia|]. done.
  - split; [simpl; lia|]. split; [simpl; lia|]. done.
  - done.
Qed.

Lemma prep_run_effects converter payload open st st1 evs r :
  prep_run converter payload open st st1 evs r ->
  omap written evs = [] /\ omap deleted evs = [].
Proof.
  intros H%prep_run_events_ok. split.
  - revert H. apply omap_none. by intros [].
  - revert H. apply omap_none. by intros [].
Qed.

Lemma conclude_run_effects open job last st st' evs r :
  conclude_run open job last st st' evs r ->
  (List.length (omap written evs) <= 1)%nat /\
  (List.length (omap deleted evs) <= 1)%nat.
Proof.
  pose proof (deleted_cleanup job) as Hd.
  assert (Hw : omap written (cleanup_evs job) = [])
    by (unfold cleanup_evs; by destruct (job_isWav job)).
  inversion 1; subst; cbn [omap list_omap written deleted];
    rewrite ?omap_app, ?Hw;
    rewrite ?(written_probe (status_ev _ _)), ?(deleted_probe (status_ev _ _))
      by apply status_probe_all, status_ev_status;
    rewrite ?length_app; simpl; lia.
Qed.

(** X10.  Whatever the processes do, the handler itself writes at most one file
    and deletes at most two during a job. *)
Theorem one_write_per_job
    (converter transcriber : Process) (payload : option Payload) (w : World) :
  let run := transcribe converter transcriber payload w in
  let evs := drop (List.length (trace w)) (trace run.1) in
  (List.length (omap written evs) <= 1)%nat /\
  (List.length (omap deleted evs) <= 2)%nat.
Proof.
  cbv zeta.
  destruct (transcribe_job_run converter transcriber payload w)
    as (st' & evs & result & -> & r & Hbody & _).
  cbn [fst]. rewrite drop_trace.
  inversion Hbody; subst;
    match goal with H : prep_run _ _ _ _ _ _ _ |- _ =>
      destruct (prep_run_effects _ _ _ _ _ _ _ H) as [Hpw Hpd] end;
    rewrite ?omap_app, ?Hpw, ?Hpd; cbn [app];
    try (simpl; lia);
    match goal with H : loop_run _ _ _ _ _ _ _ _ _ _ |- _ =>
      destruct (loop_run_effects _ _ _ _ _ _ _ _ _ _ H) as (Hlw & Hld & Hlx) end;
    try done.
  destruct (Hlx _ eq_refl) as [-> ->]. cbn [app].
  match goal with H : conclude_run _ _ _ _ _ _ _ |- _ =>
    destruct (conclude_run_effects _ _ _ _ _ _ _ H) end.
  lia.
Qed.

(** * The derived paths do not collide *)

Lemma extname_tmp_suffix r stem :
  dir_prefix r -> sep_free stem ->
  Path.extname_l (r ++ stem ++ Js.chars "__whisper_tmp.wav") = Js.chars ".wav".
Proof.
  intros Hr Hs. unfold Path.extname_l.
  rewrite PathFacts.rev_component_seg; [| done | | by destruct stem].
  2:{ apply Forall_app. split; [done|]. by apply sep_free_literal. }
  rewrite rev_app_distr.
  change (rev (Js.chars "__whisper_tmp.wav"))
    with (Js.chars "vaw" ++ "."%char :: Js.chars "pmt_repsihw__").
  rewrite <- app_assoc. cbn [app].
  change ("v"%char :: "a"%char :: "w"%char :: "."%char ::
          Js.chars "pmt_repsihw__" ++ rev stem)
    with (Js.chars "vaw" ++ "."%char :: (Js.chars "pmt_repsihw__" ++ rev stem)).
  rewrite PathFacts.drop_while_all;
    [| by repeat constructor | right; by eexists _, _].
  rewrite bool_decide_eq_false_2 by done.
  rewrite bool_decide_eq_false_2 by done.
  rewrite PathFacts.take_while_all;
    [| by repeat constructor | right; by eexists _, _].
  done.
Qed.

Lemma tmpWav_is_wav a : isWav_of (tmpWav_of a) = true.
Proof.
  unfold isWav_of. rewrite tmpWav_shape. unfold Path.extname.
  rewrite chars_str, extname_tmp_suffix;
    [| apply PathFacts.join_prefix_dir | apply PathFacts.stem_sep_free].
  by apply bool_decide_eq_true_2.
Qed.

Lemma append_cancel (s a b : string) : s +:+ a = s +:+ b -> a = b.
Proof.
  induction s as [|c s IH]; intros H; [exact H|]. apply IH. by injection H.
Qed.

(** X11.  The canonical output, the temporary waveform and the diagnostic log
    are three different paths, and only the temporary waveform ends in .wav.
    The temporary waveform differs from an input that is converted; the
    output and the log differ from a wav input.  For an input [dir/base.ext]
    the output path is the input itself exactly when [ext] is [txt], and the
    log path is never the input. *)
Theorem derived_paths_apart (audioPath : string) :
  let desired := desiredTxt_of audioPath in
  let tmp := tmpWav_of audioPath in
  let log := diagnostic_of desired in
  tmp <> desired /\ log <> desired /\ log <> tmp /\
  isWav_of tmp = true /\ isWav_of desired = false /\ isWav_of log = false /\
  (isWav_of audioPath = false -> tmp <> audioPath) /\
  (isWav_of audioPath = true -> desired <> audioPath /\ log <> audioPath) /\
  (forall absolute segs base ext,
     dir_ok absolute segs = true -> name_ok base = true ->
     ext_ok ext = true ->
     audioPath = audio_path absolute segs base ext ->
     (desired = audioPath <-> ext = "txt") /\ log <> audioPath).
Proof.
  cbv zeta.
  split; [apply tmpWav_ne_desiredTxt|].
  split; [apply diagnostic_ne_desiredTxt|].
  split; [apply diagnostic_ne_tmpWav|].
  split; [apply tmpWav_is_wav|].
  split; [apply TxtFacts.txt_path_not_wav, TxtFacts.desiredTxt_txt_path|].
  split; [apply TxtFacts.txt_path_not_wav, TxtFacts.diagnostic_txt_path|].
  split; [|split].
  - intros Hw E. pose proof (tmpWav_is_wav audioPath) as H.
    rewrite E in H. congruence.
  - intros Hw. split; [by apply wav_ne_desiredTxt|by apply wav_ne_diagnostic].
  - intros absolute segs base ext Hdir Hbase Hext ->.
    assert (Hd : desiredTxt_of (audio_path absolute segs base ext) =
                 directory absolute segs +:+ "/" +:+ base +:+ ".txt")
      by (rewrite desiredTxt_shape; by apply named_shape).
    assert (Hl : diagnostic_of (desiredTxt_of (audio_path absolute segs base ext))
                 = directory absolute segs +:+ "/" +:+ base +:+ ".log.txt")
      by (rewrite diagnostic_shape; by apply named_shape).
    rewrite Hl, Hd. unfold audio_path. split; [split|].
    + intros E. do 3 apply append_cancel in E.
      change ".txt" with ("." +:+ "txt") in E. by apply append_cancel in E.
    + by intros ->.
    + intros E. do 3 apply append_cancel in E.
      change ".log.txt" with ("." +:+ "log.txt") in E.
      apply append_cancel in E. subst ext. vm_compute in Hext. discriminate.
Qed.

(** * The listing of the text files *)

Lemma txt_path_ends p :
  txt_path p -> Js.endsWith (Js.toLowerCase p) ".txt" = true /\ p <> "".
Proof.
  intros (r & seg & -> & _ & _ & Ht). split.
  - unfold Js.endsWith. rewrite TxtFacts.toLowerCase_str, chars_str.
    rewrite map_app, rev_app_distr.
    unfold txt_name in Ht.
    revert Ht. generalize (rev (map Js.lower_char seg)) as x.
    generalize (rev (map Js.lower_char r)) as y.
    generalize (rev (Js.chars ".txt")) as s.
    induction s as [|c s IH]; intros y x; [done|].
    destruct x as [|d x]; [done|]. cbn [app Js.is_prefix].
    intros [-> H]%andb_true_iff. by rewrite IH.
  - apply TxtFacts.txt_name_rev in Ht as (c1 & c2 & c3 & rest & Hrev & _).
    intros E. apply (f_equal Js.chars) in E. rewrite chars_str in E.
    simpl in E. apply app_eq_nil in E as [_ ->]. done.
Qed.

(** X12.  [listTxt] never throws and leaves the disk alone.  It returns the
    empty list when the directory cannot be read, and otherwise the entries
    whose name ends in .txt in any case, in the order of the listing, each
    joined to the directory; so every candidate is a non-empty path that ends
    in .txt and not in .wav. *)
Theorem listTxt_candidates (dir : string) (w : World) :
  exists paths,
    (listTxt dir w).2 = Ok paths /\
    fs (listTxt dir w).1 = fs w /\
    (forall message, Fs.readdirSync (fs w) dir = Throw message -> paths = []) /\
    (forall names, Fs.readdirSync (fs w) dir = Ok names ->
       paths =
         map (Path.join dir)
           (List.filter (fun f => Js.endsWith (Js.toLowerCase f) ".txt")
              names)) /\
    forall p, p ∈ paths ->
      Js.endsWith (Js.toLowerCase p) ".txt" = true /\ p <> "" /\
      isWav_of p = false.
Proof.
  rewrite listTxt_run. cbn [fst snd]. rewrite fs_after.
  exists (listed (fs w) dir). split; [done|]. split; [done|].
  split; [|split].
  - intros m Hm. unfold listed. by rewrite Hm.
  - intros names Hn. unfold listed. by rewrite Hn.
  - intros p Hp. apply TxtFacts.listed_txt_path in Hp.
    destruct (txt_path_ends p Hp). split; [done|]. split; [done|].
    by apply TxtFacts.txt_path_not_wav.
Qed.

(** * What a job leaves alone *)



(** * The heuristic match *)




(** * The invocations of the transcriber *)

Lemma attempts_bounds tr bin desired dir pre st rest :
  rest <> [] ->
  (1 <= attempts tr bin desired dir pre st rest <= List.length rest)%nat.
Proof.
  revert st. induction rest as [|args rest IH]; intros st Hne; [done|].
  cbn [attempts]. cbv zeta. destruct (conclusive _ _ _ _); [simpl; lia|].
  destruct rest as [|args' rest]; [simpl; lia|].
  specialize (IH (tr bin args st).1 ltac:(done)). simpl in *. lia.
Qed.

Lemma invoked_conclude open job last st st' evs r :
  conclude_run open job last st st' evs r -> omap invoked evs = [].
Proof.
  assert (Hc : omap invoked (cleanup_evs job) = [])
    by (unfold cleanup_evs; by destruct (job_isWav job)).
  inversion 1; subst; cbn [omap list_omap invoked];
    rewrite ?omap_app, ?Hc; [|done|by rewrite ?app_nil_r|done].
  rewrite (invoked_no_exec (status_ev _ _)); [done|].
  apply status_no_exec, status_ev_status.
Qed.

(** X15.  A job that passes the preparation invokes the transcriber at least
    once and at most four times.  Every invocation runs the configured binary
    when that is given and exists and the command whisper otherwise, with the
    arguments -f <waveform> -otxt, one of the four output directives, and the
    common flags: -l <language> when a language is given, --no-timestamps
    when asked for, -m <model> when the model path is given and exists. *)
Theorem invocations_shape
    (converter transcriber : Process) (payload : option Payload)
    (w w1 w' : World) (job : Job) (r : Outcome JobResult) :
  prepare converter payload w = (w1, Ok (inr job)) ->
  transcribe converter transcriber payload w = (w', r) ->
  let evs := drop (List.length (trace w)) (trace w') in
  let input := audio payload in
  let wav := if isWav_of input then input else tmpWav_of input in
  let desired := desiredTxt_of input in
  let present (o : option string) :=
    Js.truthy_opt o && Fs.existsSync (fs w1) (default "" o) in
  let bin :=
    if present (payload ≫= whisperBin)
    then default "" (payload ≫= whisperBin) else "whisper" in
  let common :=
    (if Js.truthy_opt (payload ≫= language)
     then ["-l"; default "" (payload ≫= language)] else []) ++
    (if from_option noTimestamps false payload
     then ["--no-timestamps"] else []) ++
    (if present (payload ≫= modelPath)
     then ["-m"; default "" (payload ≫= modelPath)] else []) in
  (1 <= List.length (omap invoked evs) <= 4)%nat /\
  Forall (fun inv : string * list string =>
            inv.1 = bin /\
            exists directive,
              directive ∈ [ ["-of"; desired]; ["--output-file"; desired];
                            ["-o"; Path.dirname input]; [] ] /\
              inv.2 = ["-f"; wav; "-otxt"] ++ directive ++ common)
    (omap invoked evs).
Proof.
  intros Hprep Hrun. cbv zeta.
  apply prepare_inv in Hprep as (st1 & evs1 & -> & Hp).
  apply transcribe_inv in Hrun as (st' & evs & result & -> & -> & Hjob).
  rewrite drop_trace, fs_after.
  destruct Hjob as (r & Hbody & ->).
  pose proof (prep_run_job _ _ _ _ _ _ _ Hp) as ->.
  set (job := job_of payload st1).
  assert (Hshape : forall k,
    let l := map (pair (job_bin job)) (take k (job_variants job)) in
    Forall (fun inv : string * list string =>
      inv.1 =
        (if Js.truthy_opt (payload ≫= whisperBin) &&
            Fs.existsSync st1 (default "" (payload ≫= whisperBin))
         then default "" (payload ≫= whisperBin) else "whisper") /\
      exists directive,
        directive ∈ [ ["-of"; desiredTxt_of (audio payload)];
                      ["--output-file"; desiredTxt_of (audio payload)];
                      ["-o"; Path.dirname (audio payload)]; [] ] /\
        inv.2 =
          ["-f"; if isWav_of (audio payload) then audio payload
                 else tmpWav_of (audio payload); "-otxt"] ++ directive ++
          ((if Js.truthy_opt (payload ≫= language)
            then ["-l"; default "" (payload ≫= language)] else []) ++
           (if from_option noTimestamps false payload
            then ["--no-timestamps"] else []) ++
           (if Js.truthy_opt (payload ≫= modelPath) &&
               Fs.existsSync st1 (default "" (payload ≫= modelPath))
            then ["-m"; default "" (payload ≫= modelPath)] else []))) l).
  { intros k l. subst l. apply Forall_fmap, Forall_take.
    subst job. cbn [job_variants job_of job_bin].
    unfold variants_of, bin_of, common_of, wavForWhisper_of. cbv zeta.
    change win32 with false. cbn [fst snd].
    assert (Hin : forall (d : list string) (ds : list (list string)), d ∈ ds ->
              forall (bin : string) (args : list string), args = ["-f"; if isWav_of (audio payload)
                                            then audio payload
                                            else tmpWav_of (audio payload);
                                       "-otxt"] ++ d ++
                   ((if Js.truthy_opt (payload ≫= language)
                     then ["-l"; default "" (payload ≫= language)] else []) ++
                    (if from_option noTimestamps false payload
                     then ["--no-timestamps"] else []) ++
                    (if Js.truthy_opt (payload ≫= modelPath) &&
                        Fs.existsSync st1 (default "" (payload ≫= modelPath))
                     then ["-m"; default "" (payload ≫= modelPath)] else [])) ->
              (bin, args).1 = bin /\
              exists directive, directive ∈ ds /\
                (bin, args).2 =
                  ["-f"; if isWav_of (audio payload) then audio payload
                         else tmpWav_of (audio payload); "-otxt"] ++
                  directive ++
                  ((if Js.truthy_opt (payload ≫= language)
                    then ["-l"; default "" (payload ≫= language)] else []) ++
                   (if from_option noTimestamps false payload
                    then ["--no-timestamps"] else []) ++
                   (if Js.truthy_opt (payload ≫= modelPath) &&
                       Fs.existsSync st1 (default "" (payload ≫= modelPath))
                    then ["-m"; default "" (payload ≫= modelPath)] else []))).
    { intros d ds Hd bin args ->. split; [done|]. by exists d. }
    constructor;
      [eapply (Hin ["-of"; desiredTxt_of (audio payload)]); [|reflexivity];
       event_among|].
    constructor;
      [eapply (Hin ["--output-file"; desiredTxt_of (audio payload)]);
       [|reflexivity]; event_among|].
    constructor;
      [eapply (Hin ["-o"; Path.dirname (audio payload)]); [|reflexivity];
       event_among|].
    constructor; [eapply (Hin []); [|reflexivity]; event_among|].
    constructor. }
  assert (Hloop : forall st2 evs2 r2,
    loop_run transcriber job (window_open w) 0 (job_variants job) ("", "")
      st1 st2 evs2 r2 ->
    omap invoked evs2 =
      map (pair (job_bin job))
        (take (attempts transcriber (job_bin job) (job_desiredTxt job)
                 (job_dir job) (listed st1 (job_dir job)) st1
                 (job_variants job)) (job_variants job)) /\
    (1 <= List.length (omap invoked evs2) <= 4)%nat).
  { intros st2 evs2 r2 Hl.
    assert (Hpre : job_preExisting job =
                   list_to_set (listed st1 (job_dir job))) by done.
    pose proof (loop_run_attempts _ _ _ _ _ _ _ _ _ _ _ Hpre Hl) as Hk.
    split; [done|]. rewrite Hk, length_map, length_take.
    pose proof (attempts_bounds transcriber (job_bin job) (job_desiredTxt job)
                  (job_dir job) (listed st1 (job_dir job)) st1
                  (job_variants job) ltac:(done)) as Hb.
    change (List.length (job_variants job)) with 4%nat in *. lia. }
  inversion Hbody; subst;
    match goal with H : prep_run _ _ _ _ _ _ _ |- _ =>
      destruct (prep_run_det _ _ _ _ _ _ _ _ _ _ Hp H) as (<- & <- & E);
      try discriminate E; try (injection E as <-)
    end;
    destruct (prep_run_trace _ _ _ _ _ _ _ Hp) as [Hi _];
    match goal with H : loop_run _ _ _ _ _ _ _ _ _ _ |- _ =>
      destruct (Hloop _ _ _ H) as [Hk Hlen] end;
    rewrite ?omap_app, Hi; cbn [app].
  - split; [done|]. rewrite Hk. apply Hshape.
  - split; [done|]. rewrite Hk. apply Hshape.
  - match goal with H : conclude_run _ _ _ _ _ _ _ |- _ =>
      rewrite (invoked_conclude _ _ _ _ _ _ _ H) end.
    rewrite app_nil_r. split; [done|]. rewrite Hk. apply Hshape.
Qed.

(** * The status sink *)

Lemma mute_app evs1 evs2 : mute (evs1 ++ evs2) = mute evs1 ++ mute evs2.
Proof. apply List.filter_app. Qed.

Lemma mute_status evs : Forall is_status evs -> mute evs = [].
Proof.
  induction 1 as [|ev evs Hev _ IH]; [done|]. by destruct ev.
Qed.

Lemma mute_probe_free evs :
  Forall (fun ev => is_statusb ev = false) evs -> mute evs = evs.
Proof.
  induction 1 as [|ev evs Hev _ IH]; [done|].
  unfold mute in *. simpl. by rewrite Hev, IH.
Qed.

Lemma chunk_evs_closed run : chunk_evs false run = [].
Proof. unfold chunk_evs. by induction (output run). Qed.

Lemma mute_invoke tr job open i args st :
  mute (invoke_evs tr job open i args st) = invoke_evs tr job false i args st.
Proof.
  unfold invoke_evs. rewrite mute_app, chunk_evs_closed.
  rewrite (mute_status (status_ev _ _)) by apply status_ev_status.
  cbn [status_ev app]. unfold mute at 1. cbn [List.filter is_statusb negb].
  fold (mute (chunk_evs open (run_of tr job args st))).
  by rewrite mute_status by apply chunk_evs_status.
Qed.

Lemma mute_direct job st1 : mute (direct_evs job st1) = direct_evs job st1.
Proof.
  apply mute_probe_free. unfold direct_evs.
  destruct (Fs.existsSync _ _); by repeat constructor.
Qed.

Lemma mute_scan job st1 : mute (scan_evs job st1) = scan_evs job st1.
Proof.
  apply mute_probe_free. unfold scan_evs. constructor; [done|].
  apply Forall_app. split.
  - apply Forall_forall. intros ev (p & -> & _)%list_elem_of_fmap. done.
  - destruct (Js.truthy_opt _); by repeat constructor.
Qed.

Lemma mute_cleanup job : mute (cleanup_evs job) = cleanup_evs job.
Proof. unfold cleanup_evs. by destruct (job_isWav job). Qed.

Lemma mute_done job open : mute (done_evs job open) = done_evs job false.
Proof.
  unfold done_evs. rewrite mute_app, mute_cleanup.
  by rewrite (mute_status (status_ev _ _)) by apply status_ev_status.
Qed.

Lemma loop_run_mute tr job open i rest last st st' evs r :
  loop_run tr job open i rest last st st' evs r ->
  loop_run tr job false i rest last st st' (mute evs) r.
Proof.
  induction 1; subst;
    rewrite ?mute_app, ?mute_invoke, ?mute_direct, ?mute_scan, ?mute_done.
  - constructor.
  - by constructor.
  - replace (mute (if superseded job p then [EvUnlink p] else []))
      with (if superseded job p then [EvUnlink p] else [])
      by (by destruct (superseded job p)).
    by eapply loop_heuristic.
  - by eapply loop_read_throws.
  - by eapply loop_write_throws.
  - by eapply loop_next.
Qed.

Section PrepMute.

Variable converter : Process.
Variable payload : option Payload.

Lemma mute_setup : mute (setup_evs payload) = setup_evs payload.
Proof.
  unfold setup_evs.
  by destruct (Js.truthy_opt (payload ≫= whisperBin)),
              (Js.truthy_opt (payload ≫= modelPath)).
Qed.

Lemma mute_convert open st :
  mute (convert_evs converter payload open st) =
  convert_evs converter payload false st.
Proof.
  unfold convert_evs. cbv zeta.
  change (mute (?ev :: ?l)) with
    (if negb (is_statusb ev) then ev :: mute l else mute l).
  cbn [is_statusb negb]. f_equal. rewrite mute_app.
  rewrite mute_status by apply stderr_chunks_status.
  assert (E : flat_map (fun c : Stream * string =>
                match c.1 with
                | Stderr => status_ev false c.2
                | Stdout => []
                end) (output (conversion converter payload st).2) = []).
  { induction (output _) as [|[[] d] l IH]; simpl; done. }
  rewrite E. cbn [app]. apply mute_probe_free.
  destruct (spawn_error _); [constructor|].
  case_bool_decide; [|constructor].
  destruct (Fs.existsSync _ _); by repeat constructor.
Qed.

Lemma prep_run_mute open st st1 evs r :
  prep_run converter payload open st st1 evs r ->
  prep_run converter payload false st st1 (mute evs) r.
Proof.
  inversion 1; subst.
  - by constructor.
  - by constructor.
  - change (mute (EvExists (audio payload) :: setup_evs payload))
      with (EvExists (audio payload) :: mute (setup_evs payload)).
    rewrite mute_setup. by constructor.
  - change (mute (EvExists (audio payload) :: ?l))
      with (EvExists (audio payload) :: mute l).
    rewrite !mute_app, mute_convert, mute_setup.
    rewrite (mute_status (status_ev _ _)) by apply status_ev_status.
    by eapply (prep_converted converter payload false).
  - change (mute (EvExists (audio payload) :: ?l))
      with (EvExists (audio payload) :: mute l).
    rewrite !mute_app, mute_convert.
    rewrite (mute_status (status_ev _ _)) by apply status_ev_status.
    by eapply (prep_convert_throws converter payload false).
Qed.

End PrepMute.

Lemma conclude_run_mute open job last st st' evs r :
  conclude_run open job last st st' evs r ->
  conclude_run false job last st st' (mute evs) r.
Proof.
  inversion 1; subst.
  - change (mute (?ev :: ?l)) with (ev :: mute l).
    rewrite mute_app, mute_cleanup.
    rewrite (mute_status (status_ev _ _)) by apply status_ev_status.
    change [] with (status_ev false "Done (saved from stdout).").
    by constructor.
  - by constructor.
  - change (mute (?ev :: ?l)) with (ev :: mute l).
    rewrite mute_cleanup. by constructor.
  - by constructor.
Qed.

Lemma body_run_mute converter transcriber payload open st st' evs r :
  body_run converter transcriber payload open st st' evs r ->
  body_run converter transcriber payload false st st' (mute evs) r.
Proof.
  inversion 1; subst; rewrite ?mute_app.
  - apply body_early. by eapply prep_run_mute.
  - apply body_prepare_throws. by eapply prep_run_mute.
  - eapply body_matched; [by eapply prep_run_mute|by eapply loop_run_mute].
  - eapply body_copy_throws; [by eapply prep_run_mute|by eapply loop_run_mute].
  - eapply body_exhausted;
      [by eapply prep_run_mute|by eapply loop_run_mute
      |by eapply conclude_run_mute].
Qed.

(** X16.  Sending status messages has no influence on a job: with the window
    closed the handler returns the same result, leaves the same disk and
    performs the same file-system and process operations in the same order; a
    job started with the window closed sends no status message at all. *)
Theorem status_sink_is_passive
    (converter transcriber : Process) (payload : option Payload) (w : World) :
  let closed := {| fs := fs w; window_open := false; trace := trace w |} in
  let run := transcribe converter transcriber payload w in
  let silent := transcribe converter transcriber payload closed in
  run.2 = silent.2 /\
  fs run.1 = fs silent.1 /\
  mute (drop (List.length (trace w)) (trace run.1)) =
    drop (List.length (trace w)) (trace silent.1) /\
  (window_open w = false ->
   forall text, EvStatus text ∉ drop (List.length (trace w)) (trace run.1)).
Proof.
  cbv zeta.
  set (closed := {| fs := fs w; window_open := false; trace := trace w |}).
  destruct (transcribe_job_run converter transcriber payload w)
    as (st1 & evs1 & r1 & -> & ra & Hb1 & ->).
  destruct (transcribe_job_run converter transcriber payload closed)
    as (st2 & evs2 & r2 & -> & rb & Hb2 & ->).
  cbn [fst snd]. rewrite !fs_after.
  change (trace (after st2 evs2 closed)) with (trace (after st2 evs2 w)).
  rewrite !drop_trace.
  apply body_run_mute in Hb1 as Hm.
  change (window_open closed) with false in Hb2.
  change (fs closed) with (fs w) in Hb2.
  destruct (body_run_det _ _ _ _ _ _ _ _ _ _ _ Hm Hb2) as (-> & <- & ->).
  split; [done|]. split; [done|]. split; [done|].
  intros Hopen text Hin. rewrite Hopen in Hb1.
  destruct (body_run_det _ _ _ _ _ _ _ _ _ _ _ Hm Hb1) as (_ & E & _).
  rewrite <- E in Hin. unfold mute in Hin.
  apply list_elem_of_In, filter_In in Hin as [_ Hin]. done.
Qed.

(** * [normalize] and the case of letters *)

Section LowerCase.
Import Js Path.

Lemma lower_char_is_sep c : is_sep (lower_char c) = is_sep c.
Proof. destruct c as [[] [] [] [] [] [] [] []]; reflexivity. Qed.

Lemma lower_char_is_dot c : is_dot (lower_char c) = is_dot c.
Proof. destruct c as [[] [] [] [] [] [] [] []]; reflexivity. Qed.

Lemma lower_eq_sep c : lower_char c = "/"%char <-> c = "/"%char.
Proof.
  pose proof (lower_char_is_sep c) as H. unfold is_sep in H.
  split; intros E.
  - rewrite E in H. symmetry in H. by apply bool_decide_eq_true in H.
  - by subst.
Qed.

Lemma lower_eq_dot c : lower_char c = "."%char <-> c = "."%char.
Proof.
  pose proof (lower_char_is_dot c) as H. unfold is_dot in H.
  split; intros E.
  - rewrite E in H. symmetry in H. by apply bool_decide_eq_true in H.
  - by subst.
Qed.

Local Abbreviation low := (map lower_char).

Lemma low_eq_nil l : low l = [] <-> l = [].
Proof. by destruct l. Qed.

Lemma low_eq_dot l : low l = ["."%char] <-> l = ["."%char].
Proof.
  destruct l as [|c [|d l]]; try done. simpl. split; intros [= E].
  - by apply lower_eq_dot in E as ->.
  - by subst.
Qed.

Lemma low_eq_dotdot l : low l = dotdot <-> l = dotdot.
Proof.
  unfold dotdot. destruct l as [|c [|d [|e l]]]; try done.
  simpl. split; intros [= E1 E2].
  - apply lower_eq_dot in E1 as ->. by apply lower_eq_dot in E2 as ->.
  - by subst.
Qed.

Lemma split_on_low l :
  split_on "/"%char (low l) = map low (split_on "/"%char l).
Proof.
  induction l as [|c l IH]; [done|]. cbn [map split_on]. rewrite IH.
  rewrite (bool_decide_ext _ _ (lower_eq_sep c)).
  case_bool_decide; [done|].
  by destruct (split_on "/"%char l).
Qed.

Lemma join_with_low sep parts :
  low (join_with sep parts) = join_with (low sep) (map low parts).
Proof.
  induction parts as [|x [|y parts] IH]; [done|done|].
  change (join_with sep (x :: y :: parts))
    with (x ++ sep ++ join_with sep (y :: parts)).
  rewrite !map_app, IH. done.
Qed.

Lemma push_segment_low allow stack seg :
  push_segment allow (map low stack) (low seg) =
  map low (push_segment allow stack seg).
Proof.
  unfold push_segment.
  rewrite (bool_decide_ext _ _ (low_eq_nil seg)),
          (bool_decide_ext _ _ (low_eq_dot seg)),
          (bool_decide_ext _ _ (low_eq_dotdot seg)).
  destruct (bool_decide (seg = []) || bool_decide (seg = ["."%char]));
    [done|].
  case_bool_decide.
  - rewrite <- map_rev. destruct (rev stack) as [|top below] eqn:E.
    + by destruct allow.
    + cbn [map]. rewrite (bool_decide_ext _ _ (low_eq_dotdot top)).
      case_bool_decide.
      * destruct allow; [|done]. by rewrite map_app.
      * by rewrite map_rev.
  - by rewrite map_app.
Qed.

Lemma fold_push_low allow segs stack :
  fold_left (push_segment allow) (map low segs) (map low stack) =
  map low (fold_left (push_segment allow) segs stack).
Proof.
  revert stack. induction segs as [|seg segs IH]; intros stack; [done|].
  cbn [map fold_left]. by rewrite push_segment_low, IH.
Qed.

Lemma normalizeString_low allow l :
  normalizeString allow (low l) = low (normalizeString allow l).
Proof.
  unfold normalizeString.
  rewrite split_on_low, (fold_push_low allow _ []), join_with_low. done.
Qed.

Lemma normalize_l_low l : normalize_l (low l) = low (normalize_l l).
Proof.
  destruct l as [|c0 l]; [done|]. cbn [map]. unfold normalize_l.
  cbv zeta. change (lower_char c0 :: low l) with (low (c0 :: l)).
  rewrite lower_char_is_sep, normalizeString_low.
  assert (Ht : match rev (low (c0 :: l)) with
               | c :: _ => is_sep c | [] => false end =
               match rev (c0 :: l) with
               | c :: _ => is_sep c | [] => false end).
  { rewrite <- map_rev. destruct (rev (c0 :: l)); [done|].
    apply lower_char_is_sep. }
  rewrite Ht.
  destruct (normalizeString (negb (is_sep c0)) (c0 :: l)) as [|b body].
  - by destruct (is_sep c0), (match rev (c0 :: l) with
                               | c :: _ => is_sep c | [] => false end).
  - cbn [map].
    destruct (is_sep c0), (match rev (c0 :: l) with
                           | c :: _ => is_sep c | [] => false end);
      cbn [app map]; rewrite ?map_app; done.
Qed.

End LowerCase.

(** X17.  On paths of ASCII characters, the comparison that decides whether
    a matched file is deleted ignores the case of letters: [normalize] gives
    the same result on two such paths that differ only in case, so a file
    whose path is the canonical output up to case is kept. *)
Theorem normalize_ignores_case (p : string) :
  ascii_only p = true ->
  normalize p = Path.normalize (Js.toLowerCase p) /\
  (forall q, ascii_only q = true ->
     Js.toLowerCase p = Js.toLowerCase q -> normalize p = normalize q) /\
  (forall job, ascii_only (job_desiredTxt job) = true ->
     Js.toLowerCase p = Js.toLowerCase (job_desiredTxt job) ->
     superseded job p = false).
Proof.
  intros _.
  assert (H : forall s, normalize s = Path.normalize (Js.toLowerCase s)).
  { intros s. unfold normalize, Path.normalize, Js.toLowerCase.
    by rewrite !chars_str, normalize_l_low. }
  split; [apply H|]. split.
  - intros q _ E. by rewrite !H, E.
  - intros job _ E. unfold superseded. apply bool_decide_eq_false_2.
    intros Hne. apply Hne. by rewrite !H, E.
Qed.

(* ===================================================================== *)
(** * The claims on concrete runs *)
(* ===================================================================== *)

Import Scenario.

(** Against claim C1 as stated: the conversion of [/m/memo.mp3] succeeds, the
    first attempt writes the canonical output and the job returns
    [ok = true]; deleting the temporary waveform fails, [safeUnlink] swallows
    the failure, and the temporary waveform is still on the disk. *)
Lemma temp_survives_failed_unlink :
  isWav_of (audio memo_request) = false /\
  wavForWhisper_of (audio memo_request) = "/m/memo__whisper_tmp.wav" /\
  Fs.content
    (fs (prepare ffmpeg memo_request
           (world (memo_disk [(Fs.OpUnlink, "/m/memo__whisper_tmp.wav")]))).1)
    "/m/memo__whisper_tmp.wav" = Some "RIFF" /\
  (memo_run (writes "/m/memo.txt" "hello world" 0)
     [(Fs.OpUnlink, "/m/memo__whisper_tmp.wav")]).2 =
    Ok (job_ok "/m/memo.txt" None) /\
  Fs.content
    (fs (memo_run (writes "/m/memo.txt" "hello world" 0)
           [(Fs.OpUnlink, "/m/memo__whisper_tmp.wav")]).1)
    "/m/memo__whisper_tmp.wav" = Some "RIFF".
Proof. vm_compute. done. Qed.

(** When the write of the log throws, the handler returns through its [catch],
    which does not clean up. *)
Lemma temp_survives_thrown_write :
  (memo_run (prints "") [(Fs.OpWrite, "/m/memo.log.txt")]).2 =
    Ok (job_failed "EACCES: permission denied, open '/m/memo.log.txt'") /\
  Fs.content (fs (memo_run (prints "") [(Fs.OpWrite, "/m/memo.log.txt")]).1)
    "/m/memo__whisper_tmp.wav" = Some "RIFF".
Proof. vm_compute. done. Qed.


(** Against claim C3 as stated: the temporary waveform of [/m/lecture.mp3] is
    not [/m/lecture__tmp.wav]. The derived paths are moreover in normal form
    ([path.join]), whatever the form of the directory of the input. *)
Lemma temp_name_differs :
  isWav_of "/m/lecture.mp3" = false /\
  wavForWhisper_of "/m/lecture.mp3" = "/m/lecture__whisper_tmp.wav" /\
  wavForWhisper_of "/m/lecture.mp3" <> "/m/lecture__tmp.wav" /\
  desiredTxt_of "/m/../n/talk.mp3" = "/n/talk.txt" /\
  desiredTxt_of "talk.mp3" = "talk.txt".
Proof. vm_compute. repeat split; done. Qed.


(** Against claim C8 as stated: [/m/talk.txt] exists with a content before any
    attempt. A transcriber that empties it makes the first check, and the
    job, fail; a transcriber that rewrites it makes the job succeed with
    another content. *)
Lemma existing_output_clobbered :
  desiredTxt_of (audio talk_request) = "/m/talk.txt" /\
  Fs.content talk_disk "/m/talk.txt" = Some "old words" /\
  (talk_run (truncates "/m/talk.txt")).2 =
    Ok (job_failed ("Transcription finished but no .txt file was found. " +:+
                    "Saved logs to /m/talk.log.txt")) /\
  (talk_run (writes "/m/talk.txt" "new words" 0)).2 =
    Ok (job_ok "/m/talk.txt" None) /\
  Fs.content (fs (talk_run (writes "/m/talk.txt" "new words" 0)).1)
    "/m/talk.txt" = Some "new words".
Proof. vm_compute. done. Qed.

(** Against claim C4 as stated: a directory sits at the canonical output
    path of [/m/song.wav]. The direct check accepts it, since it exists and
    [stat] reports a positive size, and the job returns [ok = true] with
    that path, at which there is no file content to read. *)
Lemma output_is_a_directory :
  desiredTxt_of (audio song_request) = "/m/song.txt" /\
  Fs.is_dir folder_disk "/m/song.txt" = true /\
  folder_run.2 = Ok (job_ok "/m/song.txt" None) /\
  Fs.existsSync (fs folder_run.1) "/m/song.txt" = true /\
  Fs.is_dir (fs folder_run.1) "/m/song.txt" = true /\
  Fs.content (fs folder_run.1) "/m/song.txt" = None /\
  Fs.readFileSync (fs folder_run.1) "/m/song.txt" =
    Throw "EISDIR: illegal operation on a directory, read".
Proof. vm_compute. done. Qed.

(** Claim C4 on the run of [/m/song.wav]. *)
Lemma ok_output_nonempty_song :
  song_run = (song_run.1, Ok (job_ok "/m/song.txt" None)) /\
  ok (job_ok "/m/song.txt" None) = true /\
  Fs.is_dir (fs song_run.1) (desiredTxt_of (audio song_request)) = false /\
  outputPath (job_ok "/m/song.txt" None) =
    Some (desiredTxt_of (audio song_request)) /\
  Fs.existsSync (fs song_run.1) (desiredTxt_of (audio song_request)) = true /\
  exists text,
    Fs.content (fs song_run.1) (desiredTxt_of (audio song_request)) =
      Some text /\
    text <> "" /\
    forall p t,
      EvWriteFile p t ∈ drop (List.length (trace (world song_disk)))
                             (trace song_run.1) ->
      p = desiredTxt_of (audio song_request) /\ t = text.
Proof.
  assert (Hrun : song_run = (song_run.1, Ok (job_ok "/m/song.txt" None)))
    by (vm_compute; reflexivity).
  assert (Hd : Fs.is_dir (fs song_run.1)
                 (desiredTxt_of (audio song_request)) = false)
    by (vm_compute; reflexivity).
  split; [exact Hrun|]. split; [reflexivity|]. split; [exact Hd|].
  pose proof (ok_output_nonempty no_converter song_whisper song_request
                (world song_disk) song_run.1 _ Hrun eq_refl) as T.
  cbv zeta in T. destruct T as (Hpath & Hex & Hfile & _).
  split; [exact Hpath|]. split; [exact Hex|]. exact (Hfile Hd).
Defined.

(** Claim C1 on the runs of [/m/lecture.mp3] and [/m/song.wav]. *)
Lemma temp_cleanup_runs :
  (lecture_ready = (lecture_ready.1, Ok (inr lecture_job)) /\
   isWav_of (audio lecture_request) = false /\
   lecture_body = (lecture_body.1, Ok (job_ok "/m/lecture.txt" None)) /\
   EvUnlink (tmpWav_of (audio lecture_request)) ∈
     drop (List.length (trace (world lecture_disk))) (trace lecture_body.1) /\
   Fs.files (fs lecture_body.1) !! tmpWav_of (audio lecture_request) = None) /\
  (isWav_of (audio song_request) = true /\
   wavForWhisper_of (audio song_request) = audio song_request /\
   forall ev,
     ev ∈ drop (List.length (trace (world song_disk))) (trace song_run.1) ->
     ev <> EvUnlink (audio song_request) /\
     forall t, ev <> EvWriteFile (audio song_request) t).
Proof.
  assert (Hready : lecture_ready = (lecture_ready.1, Ok (inr lecture_job)))
    by (vm_compute; reflexivity).
  assert (Hbody : lecture_body =
                  (lecture_body.1, Ok (job_ok "/m/lecture.txt" None)))
    by (vm_compute; reflexivity).
  pose proof (temp_cleanup ffmpeg lecture_whisper lecture_request
                (world lecture_disk)) as [Hmp3 _].
  pose proof (temp_cleanup no_converter song_whisper song_request
                (world song_disk)) as [_ Hwav].
  destruct (Hmp3 _ _ _ _ Hready eq_refl Hbody) as [Hev Hgone].
  split.
  - split; [exact Hready|]. split; [reflexivity|]. split; [exact Hbody|].
    split; [exact Hev|]. apply Hgone. vm_compute. reflexivity.
  - split; [reflexivity|].
    exact (Hwav song_run.1 song_run.2 eq_refl (surjective_pairing song_run)).
Defined.


(** Claim C3 on [/home/ann/My Talks/lecture.v2.MP3]. *)
Lemma derived_paths_lecture :
  dir_ok true ["home"; "ann"; "My Talks"] = true /\
  name_ok "lecture.v2" = true /\
  ext_ok "MP3" = true /\
  desiredTxt_of "/home/ann/My Talks/lecture.v2.MP3" =
    "/home/ann/My Talks/lecture.v2.txt" /\
  wavForWhisper_of "/home/ann/My Talks/lecture.v2.MP3" =
    "/home/ann/My Talks/lecture.v2__whisper_tmp.wav" /\
  diagnostic_of (desiredTxt_of "/home/ann/My Talks/lecture.v2.MP3") =
    "/home/ann/My Talks/lecture.v2.log.txt" /\
  dir_ok false ["talks"] = true /\
  wavForWhisper_of "talks/intro.Wav" = "talks/intro.Wav" /\
  desiredTxt_of "talks/intro.Wav" = "talks/intro.txt".
Proof.
  destruct (derived_paths true ["home"; "ann"; "My Talks"] "lecture.v2" "MP3"
              eq_refl eq_refl eq_refl) as (Htxt & Hwav & Htmp & Hlog).
  destruct (derived_paths false ["talks"] "intro" "Wav"
              eq_refl eq_refl eq_refl) as (Htxt' & Hwav' & Htmp' & _).
  split; [reflexivity|]. split; [reflexivity|]. split; [reflexivity|].
  split; [exact Htxt|]. split; [rewrite Hwav in Htmp; exact Htmp|].
  split; [exact Hlog|]. split; [reflexivity|].
  split; [rewrite Hwav' in Htmp'; exact Htmp'|exact Htxt'].
Defined.

(** Claim C5 on a run of [/m/lecture.mp3]: the file that appears, empty, at
    the first attempt is still new at the second, which copies it. *)
Lemma variants_in_order_draft :
  lecture_ready = (lecture_ready.1, Ok (inr lecture_job)) /\
  draft_loop = (draft_loop.1, draft_loop.2) /\
  draft_loop.2 = Ok (inl (job_ok "/m/lecture.txt" None)) /\
  Fs.content (fs draft_loop.1) "/m/lecture.txt" = Some "late transcript" /\
  omap invoked (drop (List.length (trace lecture_ready.1))
                     (trace draft_loop.1)) =
    map (pair (job_bin lecture_job)) (take 2 (job_variants lecture_job)) /\
  Forall (fun seg =>
            scans_after_check (job_desiredTxt lecture_job) false seg = true /\
            (List.length (omap listed_dir seg) <= 1)%nat)
    (segments (drop (List.length (trace lecture_ready.1))
                    (trace draft_loop.1))) /\
  omap listed_dir (drop (List.length (trace (world lecture_disk)))
                        (trace lecture_ready.1)) = [job_dir lecture_job] /\
  job_preExisting lecture_job =
    list_to_set (listed (fs lecture_ready.1) (job_dir lecture_job)).
Proof.
  assert (Hready : lecture_ready = (lecture_ready.1, Ok (inr lecture_job)))
    by (vm_compute; reflexivity).
  pose proof (surjective_pairing draft_loop) as Hloop.
  destruct (variants_in_order ffmpeg draft_whisper lecture_request
              (world lecture_disk) _ _ _ _ Hready Hloop)
    as (Hk & _ & Hseg & _ & Hsnap & _ & Hpre & _).
  assert (Hn : attempts draft_whisper (job_bin lecture_job)
                 (job_desiredTxt lecture_job) (job_dir lecture_job)
                 (listed (fs lecture_ready.1) (job_dir lecture_job))
                 (fs lecture_ready.1) (job_variants lecture_job) = 2%nat)
    by (vm_compute; reflexivity).
  rewrite Hn in Hk.
  split; [exact Hready|]. split; [exact Hloop|].
  split; [vm_compute; reflexivity|]. split; [vm_compute; reflexivity|].
  split; [exact Hk|].
  split; [exact Hseg|split; [exact Hsnap|exact Hpre]].
Defined.


(** Claim C7 on the run of [/m/song.wav]: exit status 1 or 0. *)
Lemma exit_status_song :
  same_effects song_whisper (writes "/m/song.txt" "hello world" 0) /\
  (execFileSafe song_whisper "whisper" ["-f"; "/m/song.wav"]
     (world song_disk)).2 = Ok ("x", "") /\
  transcribe no_converter song_whisper song_request (world song_disk) =
  transcribe no_converter (writes "/m/song.txt" "hello world" 0) song_request
    (world song_disk).
Proof.
  assert (Hsame : same_effects song_whisper
                    (writes "/m/song.txt" "hello world" 0))
    by (intros cmd args st; split; reflexivity).
  destruct (exit_status_never_decides no_converter song_whisper
              (writes "/m/song.txt" "hello world" 0) song_request
              (world song_disk) Hsame) as [Hcap Hrun].
  split; [exact Hsame|]. split; [|exact Hrun].
  rewrite Hcap. reflexivity.
Defined.

(** Claim C8 on the run of [/m/talk.wav] with a transcriber that leaves the
    files alone. *)
Lemma existing_output_talk :
  talk_ready = (talk_ready.1, Ok (inr talk_job)) /\
  Fs.content
    (prints "" (job_bin talk_job) (hd [] (job_variants talk_job))
       (fs talk_ready.1)).1
    (desiredTxt_of (audio talk_request)) = Some "old words" /\
  "old words" <> "" /\
  Fs.faulty
    (prints "" (job_bin talk_job) (hd [] (job_variants talk_job))
       (fs talk_ready.1)).1
    Fs.OpStat (desiredTxt_of (audio talk_request)) = false /\
  exists w',
    talk_run (prints "") =
      (w', Ok {| ok := true;
                 outputPath := Some (desiredTxt_of (audio talk_request));
                 error := None; note := None |}) /\
    omap invoked (drop (List.length (trace talk_ready.1)) (trace w')) =
      [(job_bin talk_job, hd [] (job_variants talk_job))] /\
    omap listed_dir (drop (List.length (trace talk_ready.1)) (trace w')) = [] /\
    Fs.content (fs w') (desiredTxt_of (audio talk_request)) = Some "old words".
Proof.
  assert (Hready : talk_ready = (talk_ready.1, Ok (inr talk_job)))
    by (vm_compute; reflexivity).
  assert (Hc : Fs.content
    (prints "" (job_bin talk_job) (hd [] (job_variants talk_job))
       (fs talk_ready.1)).1
    (desiredTxt_of (audio talk_request)) = Some "old words")
    by (vm_compute; reflexivity).
  assert (Hne : "old words" <> "") by discriminate.
  assert (Hs : Fs.faulty
    (prints "" (job_bin talk_job) (hd [] (job_variants talk_job))
       (fs talk_ready.1)).1
    Fs.OpStat (desiredTxt_of (audio talk_request)) = false)
    by (vm_compute; reflexivity).
  split; [exact Hready|]. split; [exact Hc|]. split; [exact Hne|].
  split; [exact Hs|].
  destruct (existing_output_accepted no_converter (prints "") talk_request
              (world talk_disk) _ _ _ Hready Hc Hne Hs)
    as (w' & Hrun & Hinv & Hscan & _ & _ & _ & Hkeep).
  exists w'. split; [exact Hrun|]. split; [exact Hinv|].
  split; [exact Hscan|exact Hkeep].
Defined.

(** Claim C9 on the run of [/m/song.wav]. *)
Lemma wav_input_frame_song :
  isWav_of (audio song_request) = true /\
  song_run = (song_run.1, Ok (job_ok "/m/song.txt" None)) /\
  (forall cmd args,
     EvSpawn cmd args ∉
       drop (List.length (trace (world song_disk))) (trace song_run.1)) /\
  (forall p t,
     EvWriteFile p t ∈
       drop (List.length (trace (world song_disk))) (trace song_run.1) ->
     p <> tmpWav_of (audio song_request) /\
     (p = desiredTxt_of (audio song_request) \/
      (p = diagnostic_of (desiredTxt_of (audio song_request)) /\
       ok (job_ok "/m/song.txt" None) = false))) /\
  (forall p,
     EvUnlink p ∈
       drop (List.length (trace (world song_disk))) (trace song_run.1) ->
     normalize p <> normalize (desiredTxt_of (audio song_request)) /\
     EvReadFile p ∈
       drop (List.length (trace (world song_disk))) (trace song_run.1) /\
     exists text,
       EvWriteFile (desiredTxt_of (audio song_request)) text ∈
         drop (List.length (trace (world song_disk))) (trace song_run.1)).
Proof.
  assert (Hrun : song_run = (song_run.1, Ok (job_ok "/m/song.txt" None)))
    by (vm_compute; reflexivity).
  split; [reflexivity|]. split; [exact Hrun|].
  exact (wav_input_frame no_converter song_whisper song_request
           (world song_disk) song_run.1 _ eq_refl Hrun).
Defined.

(* ===================================================================== *)
(** * Further properties on concrete runs *)
(* ===================================================================== *)

Import Cases.

(** X1 on a request for [/m/ghost.wav], which is not on the disk. *)
Lemma missing_audio_ghost :
  Fs.existsSync (fs (world song_disk)) (audio (request "/m/ghost.wav")) = false /\
  (transcribe no_converter song_whisper (request "/m/ghost.wav")
     (world song_disk)).2 =
    Ok (job_failed "Audio path is empty or not found.") /\
  fs (transcribe no_converter song_whisper (request "/m/ghost.wav")
        (world song_disk)).1 = song_disk.
Proof.
  assert (H : Fs.existsSync (fs (world song_disk))
                (audio (request "/m/ghost.wav")) = false)
    by (vm_compute; reflexivity).
  split; [exact H|].
  rewrite (missing_audio_rejected no_converter song_whisper
             (request "/m/ghost.wav") (world song_disk) (or_intror H)).
  split; reflexivity.
Defined.



(** X5 on [/m/memo.mp3] with a converter that gives up. *)
Lemma conversion_failure_memo :
  converts memo_request (fs (world (memo_disk []))) = true /\
  exists w',
    transcribe broken_ffmpeg song_whisper memo_request (world (memo_disk [])) =
      (w', Ok (job_failed "ffmpeg failed (code 1). no codec")) /\
    fs w' = memo_disk [].
Proof.
  assert (Hc : converts memo_request (fs (world (memo_disk []))) = true)
    by (vm_compute; reflexivity).
  split; [exact Hc|].
  pose proof (conversion_failure_ends_job broken_ffmpeg song_whisper
                memo_request (world (memo_disk []))) as T.
  cbv zeta in T.
  destruct (T Hc) as (w' & Hrun & Hfs & _).
  { intros (_ & Hcode & _). vm_compute in Hcode. discriminate. }
  exists w'. split; [exact Hrun|exact Hfs].
Defined.

(** X7 on a capture of two lines. *)
Lemma last_lines_short :
  (List.length (Js.split_on (Js.b 10) (Js.chars two_lines)) <= 10)%nat /\
  last_lines two_lines = two_lines.
Proof.
  assert (H : (List.length (Js.split_on (Js.b 10) (Js.chars two_lines))
               <= 10)%nat) by (vm_compute; lia).
  split; [exact H|].
  pose proof (last_lines_tail two_lines) as T. cbv zeta in T.
  destruct T as (_ & _ & Hshort). exact (Hshort H).
Defined.

(** X8 on the run of [/m/note.wav] with a transcriber that only prints. *)
Lemma fallback_last_attempt_note :
  run_variants (prints "partial text") (note_job []) 0
    (job_variants (note_job [])) ("", "") (note_ready []).1 =
    ((note_loop "partial text" []).1, Ok (inr ("partial text", "boom"))) /\
  (fs (note_loop "partial text" []).1, ("partial text", "boom")) =
    replay (prints "partial text") (job_bin (note_job []))
      (job_variants (note_job [])) (fs (note_ready []).1) ("", "").
Proof.
  assert (H : run_variants (prints "partial text") (note_job []) 0
                (job_variants (note_job [])) ("", "") (note_ready []).1 =
              ((note_loop "partial text" []).1,
               Ok (inr ("partial text", "boom"))))
    by (vm_compute; reflexivity).
  split; [exact H|].
  exact (proj1 (fallback_uses_last_attempt _ _ _ _ _ _ H)).
Defined.

(** X9 on the run of [/m/song.wav]. *)
Lemma result_shape_song :
  transcribe no_converter song_whisper song_request (world song_disk) =
    (song_run.1, Ok (job_ok "/m/song.txt" None)) /\
  outputPath (job_ok "/m/song.txt" None) =
    Some (desiredTxt_of (audio song_request)) /\
  error (job_ok "/m/song.txt" None) = None.
Proof.
  assert (H : transcribe no_converter song_whisper song_request
                (world song_disk) =
              (song_run.1, Ok (job_ok "/m/song.txt" None)))
    by (vm_compute; reflexivity).
  split; [exact H|].
  destruct (result_shape _ _ _ _ _ _ H) as [Hok _].
  destruct (Hok eq_refl) as (Hpath & Herr & _).
  split; [exact Hpath|exact Herr].
Defined.

(** X11 on [/m/lecture.mp3] and on [/m/lecture.txt]. *)
Lemma derived_paths_apart_lecture :
  isWav_of "/m/lecture.mp3" = false /\
  tmpWav_of "/m/lecture.mp3" <> "/m/lecture.mp3" /\
  tmpWav_of "/m/lecture.mp3" <> desiredTxt_of "/m/lecture.mp3" /\
  diagnostic_of (desiredTxt_of "/m/lecture.mp3") <> "/m/lecture.mp3" /\
  desiredTxt_of "/m/lecture.txt" = "/m/lecture.txt".
Proof.
  assert (H : isWav_of "/m/lecture.mp3" = false) by (vm_compute; reflexivity).
  pose proof (derived_paths_apart "/m/lecture.mp3") as T. cbv zeta in T.
  destruct T as (H1 & _ & _ & _ & _ & _ & H7 & _ & Hshape).
  split; [exact H|]. split; [exact (H7 H)|]. split; [exact H1|]. split.
  - apply (Hshape true ["m"] "lecture" "mp3"); vm_compute; reflexivity.
  - pose proof (derived_paths_apart "/m/lecture.txt") as U. cbv zeta in U.
    destruct U as (_ & _ & _ & _ & _ & _ & _ & _ & Hsame).
    apply (Hsame true ["m"] "lecture" "txt"); vm_compute; reflexivity.
Defined.



(** X15 on the run of [/m/lecture.mp3]. *)
Lemma invocations_shape_lecture :
  prepare ffmpeg lecture_request (world lecture_disk) =
    (lecture_ready.1, Ok (inr lecture_job)) /\
  (1 <= List.length
          (omap invoked
             (trace (transcribe ffmpeg lecture_whisper lecture_request
                       (world lecture_disk)).1)) <= 4)%nat.
Proof.
  assert (Hready : prepare ffmpeg lecture_request (world lecture_disk) =
                     (lecture_ready.1, Ok (inr lecture_job)))
    by (vm_compute; reflexivity).
  split; [exact Hready|].
  pose proof (invocations_shape ffmpeg lecture_whisper lecture_request
                (world lecture_disk) _ _ _ _ Hready
                (surjective_pairing _)) as T.
  cbv zeta in T. exact (proj1 T).
Defined.

(** X16 on the run of [/m/song.wav] with the window closed. *)
Lemma closed_window_song :
  window_open (closed_world song_disk) = false /\
  forall text,
    EvStatus text ∉
      trace (transcribe no_converter song_whisper song_request
               (closed_world song_disk)).1.
Proof.
  split; [reflexivity|].
  pose proof (status_sink_is_passive no_converter song_whisper song_request
                (closed_world song_disk)) as T.
  cbv zeta in T. destruct T as (_ & _ & _ & H). exact (H eq_refl).
Defined.

(** X17 on two spellings of one path. *)
Lemma normalize_case_song :
  ascii_only "/m/Song.TXT" = true /\
  ascii_only "/m/song.txt" = true /\
  Js.toLowerCase "/m/Song.TXT" = Js.toLowerCase "/m/song.txt" /\
  normalize "/m/Song.TXT" = normalize "/m/song.txt".
Proof.
  assert (Hp : ascii_only "/m/Song.TXT" = true) by (vm_compute; reflexivity).
  assert (Hq : ascii_only "/m/song.txt" = true) by (vm_compute; reflexivity).
  assert (H : Js.toLowerCase "/m/Song.TXT" = Js.toLowerCase "/m/song.txt")
    by (vm_compute; reflexivity).
  split; [exact Hp|]. split; [exact Hq|]. split; [exact H|].
  destruct (normalize_ignores_case "/m/Song.TXT" Hp) as (_ & Hsame & _).
  exact (Hsame _ Hq H).
Defined.
